(** * Meduza: the Redis driver's value codec, index keys and change sets

    A shallow embedding of the parts of [driver/redis] (with the pieces of
    [schema] and [query] they use) that the storage-level properties of the
    design document talk about:

    - [convert.go]: [Encoder.Encode] and [Decoder.Decode];
    - [schema/types.go]: [InternalType], [NewList], [NewSet] and [Map.Set],
      which [Decode] applies to what the BSON decoder returns;
    - [index.go]: [prepareValue] and [formatValue];
    - [primary.go]: [compoundPrimaryIndex.GenerateId], [basePrimaryIndex.find];
    - [compound.go]: [CompoundIndex.Matches], [entry], [rangeKeys],
      [Pipeline] and [Find];
    - [changeset.go]: [indexableProperties] with its process-wide cache,
      [commands], [getDiffs], [indexChanges] and [Execute];
    - [table.go]: [table.Put].

    Go byte slices and strings are Rocq [string]s (sequences of 8-bit
    characters).  Go's [int], [int64] and [uint64] are [Z] with the range
    or the wrap-around written where the code depends on it.  A [float64]
    is its IEEE 754 bit pattern, a [Z] below [2^64].  Go maps are [gmap]s.
    A function that returns [(T, error)] returns [result T]; a run-time
    panic is the third outcome [Panic].

    Code that lives outside the repository is either modelled from its
    documentation ([strconv], [fmt], [hash/fnv], [encoding/hex], and the
    Redis commands the driver sends) or, where no executable model is
    attempted, taken as a field of the class [ExternalLibs]
    ([golang.org/x/text], [snappy], [compress/lzw], the BSON library and
    [strconv.ParseFloat]). *)

From Stdlib Require Import ZArith List String Ascii Lia Bool.
From stdpp Require Import base gmap strings list.

Local Open Scope Z_scope.

(** ** Results of fallible Go functions *)

Inductive result (A : Type) : Type :=
| Ok (a : A)
| Err (msg : string)
| Panic.
Arguments Ok {A} a.
Arguments Err {A} msg.
Arguments Panic {A}.

Definition bindR {A B : Type} (r : result A) (k : A -> result B) : result B :=
  match r with
  | Ok a => k a
  | Err m => Err m
  | Panic => Panic
  end.

Definition mapR {A B : Type} (f : A -> B) (r : result A) : result B :=
  bindR r (fun a => Ok (f a)).

#[global] Instance result_bind : MBind result := fun _ _ k r => bindR r k.
#[global] Instance result_ret : MRet result := fun _ a => Ok a.

Definition isOk {A : Type} (r : result A) : bool :=
  match r with Ok _ => true | _ => false end.

(** ** Bytes *)

Definition byteOf (z : Z) : ascii := ascii_of_N (Z.to_N (z mod 256)).
Definition byteVal (c : ascii) : Z := Z.of_N (N_of_ascii c).

Definition strLen (s : string) : Z := Z.of_nat (String.length s).

(** Byte-wise lexicographic order, a proper prefix being smaller: Go's
    [<] on strings, [bytes.Compare], and the [memcmp] order Redis uses for
    the members of a sorted set whose scores are equal. *)
Fixpoint strLt (a b : string) : bool :=
  match a, b with
  | _, EmptyString => false
  | EmptyString, String _ _ => true
  | String x a', String y b' =>
      (byteVal x <? byteVal y) || ((byteVal x =? byteVal y) && strLt a' b')
  end.

Definition strLe (a b : string) : bool := negb (strLt b a).

Definition strEq (a b : string) : bool := bool_decide (a = b).

Fixpoint strAll (p : ascii -> bool) (s : string) : bool :=
  match s with
  | EmptyString => true
  | String c r => p c && strAll p r
  end.

Fixpoint strMap (f : ascii -> ascii) (s : string) : string :=
  match s with
  | EmptyString => EmptyString
  | String c r => String (f c) (strMap f r)
  end.

Fixpoint strJoin (sep : string) (l : list string) : string :=
  match l with
  | [] => ""
  | [x] => x
  | x :: r => x +:+ sep +:+ strJoin sep r
  end.

Fixpoint strConcat (l : list string) : string :=
  match l with
  | [] => ""
  | x :: r => x +:+ strConcat r
  end.

Definition isDigit (c : ascii) : bool := (48 <=? byteVal c) && (byteVal c <=? 57).

(** ASCII lower-casing, what [strings.ToLower] does to the bytes below 128. *)
Definition asciiLower (c : ascii) : ascii :=
  if (65 <=? byteVal c) && (byteVal c <=? 90) then byteOf (byteVal c + 32) else c.

(** ** [strconv] and [fmt]: integers *)

Definition digitChar (d : Z) : ascii := byteOf (48 + d).

Fixpoint decimalAcc (fuel : nat) (n : Z) (acc : string) : string :=
  match fuel with
  | O => acc
  | S f =>
      let acc' := String (digitChar (n mod 10)) acc in
      if n <? 10 then acc' else decimalAcc f (n / 10) acc'
  end.

(** The decimal digits of a non-negative integer, without leading zeros. *)
Definition formatUint (n : Z) : string :=
  decimalAcc (S (Z.to_nat (Z.log2 n))) n "".

(** [fmt.Sprintf("%d", i)] and [strconv.FormatInt(i, 10)]. *)
Definition formatInt (i : Z) : string :=
  if i <? 0 then String "-" (formatUint (- i)) else formatUint i.

Fixpoint parseDigits (s : string) (acc : Z) : option Z :=
  match s with
  | EmptyString => Some acc
  | String c r =>
      if isDigit c then parseDigits r (acc * 10 + (byteVal c - 48)) else None
  end.

(** [strconv.ParseUint(s, 10, 64)]: one or more decimal digits, no sign,
    the value below [2^64]. *)
Definition ParseUint (s : string) : option Z :=
  match s with
  | EmptyString => None
  | _ =>
      match parseDigits s 0 with
      | Some n => if n <? 2 ^ 64 then Some n else None
      | None => None
      end
  end.

(** [strconv.ParseInt(s, 10, 64)]: an optional sign, then as [ParseUint],
    the value within the range of [int64]. *)
Definition ParseInt (s : string) : option Z :=
  match s with
  | EmptyString => None
  | String c r =>
      let neg := bool_decide (c = "-"%char) in
      let body := if bool_decide (c = "+"%char) || neg then r else s in
      match ParseUint body with
      | None => None
      | Some un =>
          if neg then (if un <=? 2 ^ 63 then Some (- un) else None)
          else (if un <? 2 ^ 63 then Some un else None)
      end
  end.

(** [fmt.Sprintf("%x", u)] for a [uint64]: lower-case hexadecimal digits
    without leading zeros. *)
Definition hextable : string := "0123456789abcdef".

Definition hexChar (d : Z) : ascii :=
  match String.get (Z.to_nat d) hextable with
  | Some c => c
  | None => "0"%char
  end.

Fixpoint hexAcc (fuel : nat) (n : Z) (acc : string) : string :=
  match fuel with
  | O => acc
  | S f =>
      let acc' := String (hexChar (n mod 16)) acc in
      if n <? 16 then acc' else hexAcc f (n / 16) acc'
  end.

Definition formatHex (n : Z) : string :=
  hexAcc (S (Z.to_nat (Z.log2 n))) n "".

(** ** [float64] as a bit pattern *)

Definition floatSign (b : Z) : bool := Z.testbit b 63.
Definition floatExp (b : Z) : Z := (b / 2 ^ 52) mod 2 ^ 11.
Definition floatFrac (b : Z) : Z := b mod 2 ^ 52.

Definition floatIsNaN (b : Z) : bool :=
  (floatExp b =? 2047) && negb (floatFrac b =? 0).
Definition floatIsInf (b : Z) : bool :=
  (floatExp b =? 2047) && (floatFrac b =? 0).

(** The magnitude of a float in units of [2^-1074] (the smallest
    subnormal): an integer for every finite float, and for the infinities
    a value above every finite one. *)
Definition floatMag (b : Z) : Z :=
  if floatExp b =? 0 then floatFrac b
  else (2 ^ 52 + floatFrac b) * 2 ^ (floatExp b - 1).

(** The signed value in the same units; [-0] and [+0] are both [0]. *)
Definition floatScaled (b : Z) : Z :=
  if floatSign b then - floatMag b else floatMag b.

(** Numeric [<] on floats that are not NaN. *)
Definition floatLt (a b : Z) : Prop := floatScaled a < floatScaled b.

Definition roundHalfEven (num den : Z) : Z :=
  let q := num / den in
  let r := num mod den in
  if 2 * r <? den then q
  else if 2 * r =? den then (if Z.even q then q else q + 1)
  else q + 1.

Definition pad6 (n : Z) : string :=
  String (digitChar ((n / 100000) mod 10))
 (String (digitChar ((n / 10000) mod 10))
 (String (digitChar ((n / 1000) mod 10))
 (String (digitChar ((n / 100) mod 10))
 (String (digitChar ((n / 10) mod 10))
 (String (digitChar (n mod 10)) ""))))).

Definition pow2_1074 : Z := Eval vm_compute in 2 ^ 1074.

(** [fmt.Sprintf("%f", f)]: the value rounded (to nearest, ties to even)
    to six digits after the decimal point. *)
Definition formatFloat (b : Z) : string :=
  if floatIsNaN b then "NaN"
  else if floatIsInf b then (if floatSign b then "-Inf" else "+Inf")
  else
    let n := roundHalfEven (floatMag b * 1000000) pow2_1074 in
    (if floatSign b then "-" else "")
      +:+ formatUint (n / 1000000) +:+ "." +:+ pad6 (n mod 1000000).

(** ** [hash/fnv]: FNV-1a, 64 bits *)

Definition fnvOffset64 : Z := 14695981039346656037.
Definition fnvPrime64 : Z := 1099511628211.

Fixpoint fnvWrite (h : Z) (s : string) : Z :=
  match s with
  | EmptyString => h
  | String c r => fnvWrite ((Z.lxor h (byteVal c) * fnvPrime64) mod 2 ^ 64) r
  end.

(** ** [encoding/binary] and [encoding/hex] *)

(** [binary.BigEndian.PutUint64] into a buffer of [n] bytes ([n = 8] in
    the driver): the most significant byte first. *)
Fixpoint bigEndian (n : nat) (u : Z) : list Z :=
  match n with
  | O => []
  | S k => (Z.shiftr u (8 * Z.of_nat k)) mod 256 :: bigEndian k u
  end.

(** [hex.EncodeToString]: two lower-case digits per byte. *)
Fixpoint hexEncode (l : list Z) : string :=
  match l with
  | [] => ""
  | b :: r => String (hexChar (Z.shiftr b 4)) (String (hexChar (Z.land b 15)) (hexEncode r))
  end.

(** ** Go values from the BSON decoder

    The dynamic types of the values that [bson.DecodeArray] and
    [bson.DecodeMap] return in their [[]interface{}] and
    [map[string]interface{}], as the decoders that
    [unmarshalBsonInternal] of [schema/entity.go] calls name them: [nil],
    [bool], [int32], [int64], [uint64], [float64], [string], [[]byte],
    [time.Time], a nested slice and a nested map.  [GOther] is a value of
    any other dynamic type. *)

#[warnings="-register-all"]
Inductive GoValue : Type :=
| GNil
| GBool (b : bool)
| GInt32 (i : Z)
| GInt64 (i : Z)
| GUint64 (u : Z)
| GFloat64 (bits : Z)
| GString (s : string)
| GBytes (b : string)
| GTime (sec nsec : Z)
| GSlice (elems : list GoValue)
| GMap (entries : list (string * GoValue))
| GOther.

(** ** Typed values ([schema/types.go])

    The dynamic types a property, a filter value or a change value has
    once [schema.InternalType] has mapped the client's Go value to an
    internal type.  [VNil] is the [nil] interface.  A [Timestamp] is an
    instant: seconds since the Unix epoch and nanoseconds within the
    second.  A [Set] is the list of its keys, a [Map] the list of its
    entries.  [VRawMap] is a [schema.Map] too: the one [InternalType]
    makes of a decoded [map[string]interface{}] by a conversion of the
    map alone, its values staying the Go values they are.  Two more
    dynamic types travel in the same [interface{}] fields: a [schema.Key]
    (an id given as a filter value) and the [time.Duration] of an
    [Expire] change, in nanoseconds. *)

#[warnings="-register-all"]
Inductive Value : Type :=
| VNil
| VInt (i : Z)
| VUint (u : Z)
| VFloat (bits : Z)
| VBool (b : bool)
| VText (s : string)
| VBinary (b : string)
| VTimestamp (sec nsec : Z)
| VSet (elems : list Value)
| VList (elems : list Value)
| VMap (entries : list (string * Value))
| VRawMap (raw : list (string * GoValue))
| VKey (k : string)
| VDuration (ns : Z).

(** Whether Go can use the value as a map key; hashing a slice or a map
    panics. *)
Definition hashable (v : Value) : bool :=
  match v with
  | VBinary _ | VSet _ | VList _ | VMap _ | VRawMap _ => false
  | _ => true
  end.

(** [==] on two hashable interface values: equal dynamic types and equal
    values, with the IEEE comparison on floats. *)
Definition keyEq (a b : Value) : bool :=
  match a, b with
  | VNil, VNil => true
  | VInt x, VInt y => x =? y
  | VUint x, VUint y => x =? y
  | VFloat x, VFloat y =>
      negb (floatIsNaN x) && negb (floatIsNaN y) && (floatScaled x =? floatScaled y)
  | VBool x, VBool y => eqb x y
  | VText x, VText y => strEq x y
  | VTimestamp s1 n1, VTimestamp s2 n2 => (s1 =? s2) && (n1 =? n2)
  | VKey x, VKey y => strEq x y
  | VDuration x, VDuration y => x =? y
  | _, _ => false
  end.

(** [schema.InternalType] of a decoded value: the internal type of its
    kind.  A slice goes through [NewList]; a map is converted as it is;
    any other dynamic type is an error. *)
Fixpoint InternalType (g : GoValue) : result Value :=
  match g with
  | GNil => Ok VNil
  | GString s => Ok (VText s)
  | GTime sec nsec => Ok (VTimestamp sec nsec)
  | GInt32 i | GInt64 i => Ok (VInt i)
  | GUint64 u => Ok (VUint u)
  | GFloat64 f => Ok (VFloat f)
  | GBool b => Ok (VBool b)
  | GBytes b => Ok (VBinary b)
  | GSlice l =>
      Ok (VList ((fix newList (l : list GoValue) : list Value :=
                    match l with
                    | [] => []
                    | e :: r =>
                        match InternalType e with
                        | Ok v => v
                        | _ => VNil
                        end :: newList r
                    end) l))
  | GMap m => Ok (VRawMap m)
  | GOther => Err "Unconvertible type"
  end.

(** [schema.NewList]: every element is replaced by what [InternalType]
    returns for it, which is [nil] beside an error. *)
Definition NewList (elems : list GoValue) : list Value :=
  (fun e => match InternalType e with
            | Ok v => v
            | _ => VNil
            end) <$> elems.

(** [s[v] = struct{}{}] on the keys of a Go map whose key type is an
    interface: a key equal to [v] is overwritten by [v], where it is;
    else [v] is a new key. *)
Fixpoint setAdd (s : list Value) (v : Value) : list Value :=
  match s with
  | [] => [v]
  | k :: r => if keyEq k v then v :: r else k :: setAdd r v
  end.

(** [schema.NewSet]: each element that [InternalType] converts becomes a
    key of a Go map, and hashing an unhashable key panics; an element
    with a conversion error is logged and skipped. *)
Definition NewSet (elems : list GoValue) : result (list Value) :=
  fold_left
    (fun acc e =>
       s ← acc;
       match InternalType e with
       | Ok v => if hashable v then Ok (setAdd s v) else Panic
       | _ => Ok s
       end)
    elems (Ok []).

(** [m[k] = v] on the entries of a Go map with string keys. *)
Fixpoint mapAssign (m : list (string * Value)) (k : string) (v : Value)
    : list (string * Value) :=
  match m with
  | [] => [(k, v)]
  | (k', v') :: r => if strEq k' k then (k', v) :: r else (k', v') :: mapAssign r k v
  end.

(** [Map.Set]: the value that [InternalType] converts is assigned to the
    key; beside a conversion error the map is left as it is. *)
Definition mapSet (m : list (string * Value)) (k : string) (val : GoValue)
    : list (string * Value) :=
  match InternalType val with
  | Ok v => mapAssign m k v
  | _ => m
  end.

(** ** Libraries outside the repository *)

Class ExternalLibs : Type := {
  (** [golang.org/x/text]: the transformer chain [norm.NFD],
      [transform.RemoveFunc(filterMn)], [cases.Lower(locale)] that
      [schema.NewNormalizer(language.Und, true, false)] builds in front of
      its own [whitespaceDedupe]. *)
  textTransform : string -> string;
  (** [strconv.ParseFloat(s, 64)], the result as a bit pattern. *)
  ParseFloat : string -> option Z;
  (** [snappy.Encode] and [snappy.Decode]. *)
  snappyEncode : string -> string;
  snappyDecode : string -> option string;
  (** A [compress/lzw] reader (LSB first, 8-bit literals) read to its end. *)
  lzwDecode : string -> option string;
  (** [bson.MarshalToStream] of a slice and of a map: the bytes written,
      or an error.  (The library writes an element whose type has a
      [MarshalBson] method, as [schema.Text] has, through that method.) *)
  bsonMarshalArray : list Value -> option string;
  bsonMarshalMap : list (string * Value) -> option string;
  bsonMarshalRawMap : list (string * GoValue) -> option string;
  (** [bson.DecodeArray] and [bson.DecodeMap]: the Go values decoded.
      Neither returns an error; [None] is a panic of the decoder. *)
  bsonDecodeArray : string -> option (list GoValue);
  bsonDecodeMap : string -> option (list (string * GoValue));
  (** [fmt.Fprint] of a float, a timestamp, a duration or a container,
      which is how redigo writes such a command argument. *)
  fmtPrint : Value -> string;
}.

(** ** The value codec ([driver/redis/convert.go]) *)

Definition IntPrefix : ascii := "i".
Definition UintPrefix : ascii := "u".
Definition FloatPrefix : ascii := "f".
Definition TextPrefix : ascii := "x".
Definition CompressedTextPrefix : ascii := "z".
Definition CompressedTextPrefixSnappy : ascii := "Z".
Definition BoolPrefix : ascii := "b".
Definition TimestampPrefix : ascii := "t".
Definition BinaryPrefix : ascii := "r".
Definition SetPrefix : ascii := "s".
Definition ListPrefix : ascii := "l".
Definition NilPrefix : ascii := "N".
Definition MapPrefix : ascii := "m".

Record Encoder : Type := { TextCompressThreshold : Z }.

(** [time.Time.Unix()] of the zero [time.Time] (January 1, year 1, UTC). *)
Definition zeroTimeUnix : Z := -62135596800.

Section Codec.
Context `{ExternalLibs}.

Definition encodeInt (i : Z) : string := formatInt i.
Definition encodeUint (u : Z) : string := formatInt u.

Definition encodeBool (b : bool) : string :=
  if b then String BoolPrefix "1" else String BoolPrefix "0".

Definition encodeFloat (bits : Z) : string := formatFloat bits.

Definition encodeCompressedText (v : string) : string :=
  String CompressedTextPrefixSnappy (snappyEncode v).

Definition encodeText (c : Encoder) (v : string) : string :=
  if (0 <? TextCompressThreshold c) && (TextCompressThreshold c <=? strLen v)
  then encodeCompressedText v
  else String TextPrefix v.

Definition encodeBinary (v : string) : string := String BinaryPrefix v.

Definition encodeTimestamp (sec nsec : Z) : string :=
  if (sec =? zeroTimeUnix) && (nsec =? 0) then ""
  else String TimestampPrefix (formatInt sec).

Definition encodeSet (s : list Value) : result string :=
  match bsonMarshalArray s with
  | Some b => Ok (String SetPrefix b)
  | None => Err "Could not encode set"
  end.

Definition encodeMap (m : list (string * Value)) : result string :=
  match bsonMarshalMap m with
  | Some b => Ok (String MapPrefix b)
  | None => Err "Could not encode set"
  end.

Definition encodeList (l : list Value) : result string :=
  match bsonMarshalArray l with
  | Some b => Ok (String ListPrefix b)
  | None => Err "Could not encode set"
  end.

(** [encodeMap] of a map whose values are Go values. *)
Definition encodeRawMap (m : list (string * GoValue)) : result string :=
  match bsonMarshalRawMap m with
  | Some b => Ok (String MapPrefix b)
  | None => Err "Could not encode set"
  end.

Definition Encode (c : Encoder) (v : Value) : result string :=
  match v with
  | VNil => Ok (String NilPrefix "")
  | VInt i => Ok (encodeInt i)
  | VUint u => Ok (encodeUint u)
  | VFloat f => Ok (encodeFloat f)
  | VBool b => Ok (encodeBool b)
  | VText s => Ok (encodeText c s)
  | VBinary b => Ok (encodeBinary b)
  | VTimestamp sec nsec => Ok (encodeTimestamp sec nsec)
  | VSet s => encodeSet s
  | VList l => encodeList l
  | VMap m => encodeMap m
  | VRawMap m => encodeRawMap m
  | VKey _ | VDuration _ => Err "Unsupported type"
  end.

Definition decodeInt (v : string) : result Value :=
  match ParseInt v with
  | Some i => Ok (VInt i)
  | None => Err "strconv.ParseInt"
  end.

Definition decodeUint (v : string) : result Value :=
  match ParseUint v with
  | Some u => Ok (VUint u)
  | None => Err "strconv.ParseUint"
  end.

Definition decodeFloat (v : string) : result Value :=
  match ParseFloat v with
  | Some f => Ok (VFloat f)
  | None => Err "strconv.ParseFloat"
  end.

Definition decodeBool (v : string) : result Value :=
  let s := strMap asciiLower v in
  if strEq s "1" || strEq s "true" then Ok (VBool true)
  else if strEq s "0" || strEq s "false" then Ok (VBool false)
  else Err "Invalid boolean argument".

Definition decodeText (v : string) : result Value := Ok (VText v).

Definition decodeCompressedText (v : string) : result Value :=
  match snappyDecode v with
  | Some s => Ok (VText s)
  | None => Err "snappy"
  end.

Definition decodeCompressedTextLZW (v : string) : result Value :=
  match lzwDecode v with
  | Some s => Ok (VText s)
  | None => Err "lzw"
  end.

Definition decodeBinary (v : string) : result Value := Ok (VBinary v).

Definition decodeTimestamp (v : string) : result Value :=
  match ParseInt v with
  | Some i => Ok (VTimestamp i 0)
  | None => Err "strconv.ParseInt"
  end.

(** [decodeSet]: [schema.NewSet] of the decoded elements. *)
Definition decodeSet (v : string) : result Value :=
  match bsonDecodeArray v with
  | Some l => s ← NewSet l; Ok (VSet s)
  | None => Panic
  end.

(** [decodeMap]: [Map.Set] of every decoded entry on a new map. *)
Definition decodeMap (v : string) : result Value :=
  match bsonDecodeMap v with
  | Some mp => Ok (VMap (fold_left (fun m kv => mapSet m kv.1 kv.2) mp []))
  | None => Panic
  end.

(** [decodeList]: [schema.NewList] of the decoded elements. *)
Definition decodeList (v : string) : result Value :=
  match bsonDecodeArray v with
  | Some l => Ok (VList (NewList l))
  | None => Panic
  end.

(** [decodeNumber]: a number written without a type prefix, tried as an
    [int64], then as a [uint64], then as a [float64]. *)
Definition decodeNumber (num : string) : result Value :=
  match ParseInt num with
  | Some i => Ok (VInt i)
  | None =>
      match ParseUint num with
      | Some u => Ok (VUint u)
      | None =>
          match ParseFloat num with
          | Some f => Ok (VFloat f)
          | None => Err "Invalid number format"
          end
      end
  end.

(** [Decoder.Decode] of a non-nil byte slice.  Reading [data[0]] of an
    empty slice panics. *)
Definition Decode (data : string) : result Value :=
  match data with
  | EmptyString => Panic
  | String prefix value =>
      if bool_decide (prefix = NilPrefix) then Ok VNil
      else if bool_decide (prefix = IntPrefix) then decodeInt value
      else if bool_decide (prefix = UintPrefix) then decodeUint value
      else if bool_decide (prefix = FloatPrefix) then decodeFloat value
      else if bool_decide (prefix = BoolPrefix) then decodeBool value
      else if bool_decide (prefix = TextPrefix) then decodeText value
      else if bool_decide (prefix = CompressedTextPrefix) then decodeCompressedTextLZW value
      else if bool_decide (prefix = CompressedTextPrefixSnappy) then decodeCompressedText value
      else if bool_decide (prefix = BinaryPrefix) then decodeBinary value
      else if bool_decide (prefix = TimestampPrefix) then decodeTimestamp value
      else if bool_decide (prefix = SetPrefix) then decodeSet value
      else if bool_decide (prefix = ListPrefix) then decodeList value
      else if bool_decide (prefix = MapPrefix) then decodeMap value
      else if isDigit prefix || bool_decide (prefix = "-"%char) then decodeNumber data
      else Err "Invalid type prefix"
  end.

(** What a stored property reads back as: [Decode] of [Encode]. *)
Definition decodeEncoded (c : Encoder) (v : Value) : result Value :=
  data ← Encode c v; Decode data.

End Codec.

(** ** The text normalizer ([schema/normalize.go]) *)

Definition isWhite (b : ascii) : bool :=
  let n := byteVal b in
  (n =? 9) || (n =? 10) || (n =? 11) || (n =? 12) || (n =? 13) || (n =? 32).

(** [whitespaceDedupe.Transform] on one chunk: a white byte that follows a
    white byte of the source is dropped.  [prevWhite] tells whether the
    previous source byte was white; it is [false] at index [0]. *)
Fixpoint whitespaceDedupe (prevWhite : bool) (src : string) : string :=
  match src with
  | EmptyString => EmptyString
  | String b r =>
      if isWhite b && prevWhite then whitespaceDedupe true r
      else String b (whitespaceDedupe (isWhite b) r)
  end.

(** ** Index keys ([driver/redis/index.go], [primary.go], [compound.go]) *)

(** A value prepared for indexing: what [prepareValue] leaves in an
    [interface{}], namely [nil], a Go [string] or a [[]byte]. *)
Inductive PValue : Type :=
| PNil
| PStr (s : string)
| PBytes (b : string).

(** [fmt.Sprintf("%v", v)] on a prepared value; a byte slice prints as the
    list of its bytes in decimal. *)
Fixpoint bytesList (b : string) : list string :=
  match b with
  | EmptyString => []
  | String c r => formatUint (byteVal c) :: bytesList r
  end.

Definition sprintV (v : PValue) : string :=
  match v with
  | PNil => "<nil>"
  | PStr s => s
  | PBytes b => "[" +:+ strJoin " " (bytesList b) +:+ "]"
  end.

(** [formatValue]: the serialized form of a prepared value inside an id. *)
Definition formatValue (v : PValue) : string :=
  match v with
  | PBytes b => b +:+ "|"
  | PStr s => s +:+ "|"
  | PNil => sprintV PNil +:+ "|"
  end.

Section Keys.
Context `{ExternalLibs}.

(** [DefaultTextNormalizer.Normalize] (and [NormalizeString]), for a text
    that the transformer chain hands to [whitespaceDedupe] in one call
    and transforms without an error.  (The chain works through a long
    text in chunks, each deduplicated by a call of its own, and an error
    of [transform.Bytes] is returned by [Normalize]; neither is
    modelled.) *)
Definition Normalize (input : string) : string :=
  match input with
  | EmptyString => ""
  | _ => whitespaceDedupe false (textTransform input)
  end.

(** The order-preserving image of a float among the [uint64]s. *)
Definition floatOrdered (bits : Z) : Z :=
  if negb (Z.land bits 0x8000000000000000 =? 0)
  then Z.land (Z.lnot bits) 0xFFFFFFFFFFFFFFFF
  else Z.lor bits 0x8000000000000000.

(** [prepareValue] on a [schema.Uint] (and on the [uint64] conversion of a
    [schema.Int]): eight big-endian bytes, in hexadecimal. *)
Definition prepareUint (u : Z) : string := hexEncode (bigEndian 8 u).

Definition prepareValue (enc : Encoder) (val : Value) : result PValue :=
  match val with
  | VNil => Ok PNil
  | VText s => Ok (PStr (Normalize s))
  | VInt i => Ok (PStr (prepareUint (i mod 2 ^ 64)))
  | VUint u => Ok (PStr (prepareUint u))
  | VFloat f => Ok (PStr (prepareUint (floatOrdered f)))
  | _ => b ← Encode enc val; Ok (PBytes b)
  end.

End Keys.

(** ** Entities, filters and orderings ([schema], [query]) *)

Record Entity : Type := {
  Id : string;
  Properties : gmap string Value;
  TTL : Z;
}.

Definition IdKey : string := "id".

Module query.

Record Filter : Type := {
  Property : string;
  Operator : string;
  Values : list Value;
}.

Definition In : string := "IN".
Definition Eq : string := "=".
Definition Between : string := "><".
Definition All : string := "ALL".

(** [Filters]: the filters of a query, keyed by property name. *)
Abbreviation Filters := (gmap string Filter).

Record Ordering : Type := {
  By : string;
  Ascending : bool;
}.

Definition NoOrder : Ordering := {| By := ""; Ascending := true |}.

Definition IsNil (o : Ordering) : bool := strLen (By o) =? 0.

(** [ChangeOp] and [Change] ([query/update.go]). *)
Inductive ChangeOp : Type :=
| OpSet | OpDel | OpExpire | OpIncrement
| OpSetAdd | OpSetDel | OpMapSet | OpMapDel
| OpPropDel | Noop.

Record Change : Type := {
  ChangeProperty : string;
  ChangeValue : Value;
  Op : ChangeOp;
}.

Definition Set_ (prop : string) (newVal : Value) : Change :=
  {| ChangeProperty := prop; ChangeValue := newVal; Op := OpSet |}.

Definition Expire (ttl : Z) : Change :=
  {| ChangeProperty := ""; ChangeValue := VDuration ttl; Op := OpExpire |}.

End query.

(** ** Index descriptors *)

Record compoundPrimaryIndex : Type := {
  primaryProperties : list string;
  hashed : bool;
}.

Record CompoundIndex : Type := {
  indexName : string;
  properties : list string;
  indexTable : string;
}.

Section PrimaryIds.
Context `{ExternalLibs}.

(** [compoundPrimaryIndex.processId]. *)
Definition processId (i : compoundPrimaryIndex) (id : string) : string :=
  match id with
  | EmptyString => ""
  | _ => if hashed i then formatHex (fnvWrite fnvOffset64 id) else id
  end.

(** The loop of [compoundPrimaryIndex.GenerateId]: [key] grows by the
    formatted value of each primary column, in the declared order. *)
Fixpoint generateKey (enc : Encoder) (props : list string)
    (ent : Entity) (key : string) : result string :=
  match props with
  | [] => Ok key
  | p :: ps =>
      match Properties ent !! p with
      | None | Some VNil => Err ("Cannot index entity with missing/nil value for " +:+ p)
      | Some val =>
          pv ← prepareValue enc val;
          generateKey enc ps ent (key +:+ formatValue pv)
      end
  end.

Definition GenerateId (enc : Encoder) (i : compoundPrimaryIndex)
    (ent : Entity) : result string :=
  key ← generateKey enc (primaryProperties i) ent "";
  Ok (processId i key).

End PrimaryIds.

(** ** The compound secondary index ([driver/redis/compound.go]) *)

(** A match score [float32(matches) / float32(len(properties))], kept as
    the two integers. *)
Definition score : Type := (nat * nat)%type.
Definition scoreZero : score := (0%nat, 1%nat).

(** The loop of [CompoundIndex.Matches] over the index's properties.
    [None] is the [return false, 0] inside the loop, [Some matches] the
    loop's end (by [break] or by exhaustion). *)
Fixpoint matchLoop (filters : query.Filters) (order : query.Ordering)
    (props : list string) (matches expectedMatches : nat) : option nat :=
  match props with
  | [] => Some matches
  | p :: ps =>
      match filters !! p with
      | None =>
          if negb (query.IsNil order) && bool_decide (p = query.By order)
          then matchLoop filters order ps (S matches) expectedMatches
          else None
      | Some _ =>
          if (S matches =? expectedMatches)%nat then Some (S matches)
          else matchLoop filters order ps (S matches) expectedMatches
      end
  end.

Definition matchWith (i : CompoundIndex) (filters : query.Filters)
    (order : query.Ordering) (expectedMatches : nat) : result (bool * score) :=
  if (length (properties i) <? expectedMatches)%nat then Ok (false, scoreZero)
  else
    match matchLoop filters order (properties i) 0 expectedMatches with
    | None => Ok (false, scoreZero)
    | Some matches => Ok (true, (matches, length (properties i)))
    end.

(** [CompoundIndex.Matches].  With an ordering, reading the last property
    of an index without properties panics. *)
Definition Matches (i : CompoundIndex) (filters : query.Filters)
    (order : query.Ordering) : result (bool * score) :=
  if query.IsNil order then matchWith i filters order (size filters)
  else
    match last (properties i) with
    | None => Panic
    | Some lp =>
        if bool_decide (query.By order = lp) then
          matchWith i filters order
            (match filters !! query.By order with
             | Some _ => size filters
             | None => S (size filters)
             end)
        else Ok (false, scoreZero)
    end.

Definition contains (l : list string) (p : string) : bool :=
  existsb (fun lp => strEq lp p) l.

Definition MatchesProperties (i : CompoundIndex) (props : list string) : bool :=
  forallb (contains (properties i)) props.

Definition RedisKey (i : CompoundIndex) : string :=
  "k:" +:+ indexTable i +:+ "/" +:+ strJoin "_" (properties i).

(** The loop of [CompoundIndex.entry]: [None] when a property of the index
    is missing from the map, else whether a non-nil value was seen and the
    bytes accumulated. *)
Fixpoint entryLoop (props : list string) (vals : gmap string PValue)
    (first validEntry : bool) (stringVals : string) : option (bool * string) :=
  match props with
  | [] => Some (validEntry, stringVals)
  | p :: ps =>
      match vals !! p with
      | None => None
      | Some v =>
          let sep := if first then stringVals else stringVals +:+ "|" in
          match v with
          | PNil => entryLoop ps vals false validEntry sep
          | _ => entryLoop ps vals false true (sep +:+ sprintV v)
          end
      end
  end.

Definition entry (i : CompoundIndex) (id : string)
    (vals : gmap string PValue) : string :=
  match entryLoop (properties i) vals true false "" with
  | Some (true, stringVals) => stringVals +:+ "|::" +:+ id
  | _ => ""
  end.

Section RangeKeys.
Context `{ExternalLibs}.

(** The loop of [CompoundIndex.rangeKeys]; it ends at the first property
    of the index that the query does not filter on. *)
Fixpoint rangeLoop (enc : Encoder) (vals : query.Filters)
    (order : query.Ordering) (props : list string)
    (startVals endVals : string) (nProps numRanges : nat)
    : result (string * string * nat) :=
  match props with
  | [] => Ok (startVals, endVals, nProps)
  | p :: ps =>
      match vals !! p with
      | None => Ok (startVals, endVals, nProps)
      | Some f =>
          if strEq (query.Operator f) query.Eq then
            if (0 <? numRanges)%nat
            then Err "Ranges must come after equality filters in the index's column order"
            else
              match query.Values f with
              | [] => Panic
              | v0 :: _ =>
                  pv ← prepareValue enc v0;
                  let b := sprintV pv +:+ "|" in
                  rangeLoop enc vals order ps (startVals +:+ b) (endVals +:+ b)
                            (S nProps) numRanges
              end
          else if strEq (query.Operator f) query.Between then
            if negb (query.IsNil order) && negb (strEq (query.By order) p)
            then Err "Range queries can only be ordered by the range property"
            else if (0 <? numRanges)%nat
            then Err "Only a single range per query allowed"
            else
              match query.Values f with
              | [] => Panic
              | v0 :: rest =>
                  pv0 ← prepareValue enc v0;
                  match rest with
                  | [] => Panic
                  | v1 :: _ =>
                      pv1 ← prepareValue enc v1;
                      rangeLoop enc vals order ps
                                (startVals +:+ sprintV pv0) (endVals +:+ sprintV pv1)
                                (S nProps) (S numRanges)
                  end
              end
          else Err "Invalid filter type for index"
      end
  end.

(** [CompoundIndex.rangeKeys]: the inclusive lower and the exclusive upper
    bound of the lexicographic range, both empty when the query filters on
    no leading property of the index. *)
Definition rangeKeys (enc : Encoder) (i : CompoundIndex) (vals : query.Filters)
    (order : query.Ordering) : result (string * string) :=
  '(startVals, endVals, nProps) ← rangeLoop enc vals order (properties i) "[" "(" 0 0;
  if (0 <? nProps)%nat
  then Ok (startVals, endVals +:+ String (byteOf 255) "")
  else Ok ("", "").

End RangeKeys.

(** [extractId]: the part after the separator of an entry that contains
    [::] exactly once ([strings.Split] yields two parts), else empty. *)
Fixpoint splitOn2 (s : string) : list string :=
  match s with
  | EmptyString => [""]
  | String c r =>
      match r with
      | String c' r' =>
          if bool_decide (c = ":"%char) && bool_decide (c' = ":"%char)
          then "" :: splitOn2 r'
          else match splitOn2 r with
               | [] => [String c ""]
               | h :: t => String c h :: t
               end
      | EmptyString => [String c ""]
      end
  end.

Definition extractId (s : string) : string :=
  match splitOn2 s with
  | [_; id] => id
  | _ => ""
  end.

(** ** The Redis server

    The commands the driver sends, after the Redis command reference.  A
    key holds a hash or a sorted set; the driver writes every member of a
    sorted set with score [0], so a sorted set is the list of its members
    in ascending byte order.  A hash or a sorted set that becomes empty is
    removed.  There is no clock: [PEXPIRE] records the time to live. *)

Module Redis.

Inductive rvalue : Type :=
| RHash (h : gmap string string)
| RZSet (members : list string).

Record db : Type := {
  keys : gmap string rvalue;
  expires : gmap string Z;
}.

Definition empty : db := {| keys := ∅; expires := ∅ |}.

#[warnings="-register-all"]
Inductive reply : Type :=
| RInt (n : Z)
| RBulk (s : string)
| RNull
| RArray (l : list reply)
| RStatus (s : string)
| RError (msg : string).

Definition isError (r : reply) : bool :=
  match r with RError _ => true | _ => false end.

Definition wrongType : reply :=
  RError "WRONGTYPE Operation against a key holding the wrong kind of value".
Definition wrongArity : reply := RError "ERR wrong number of arguments".
Definition notInteger : reply := RError "ERR value is not an integer or out of range".

(** [string2ll]: a decimal [int64] in canonical form. *)
Definition string2ll (s : string) : option Z :=
  match s with
  | EmptyString => None
  | String c r =>
      if bool_decide (c = "-"%char) then
        match r with
        | EmptyString => None
        | String d _ =>
            if bool_decide (d = "0"%char) then None
            else match parseDigits r 0 with
                 | Some n => if n <=? 2 ^ 63 then Some (- n) else None
                 | None => None
                 end
        end
      else if bool_decide (c = "0"%char) then
        match r with EmptyString => Some 0 | _ => None end
      else match parseDigits s 0 with
           | Some n => if n <? 2 ^ 63 then Some n else None
           | None => None
           end
  end.

Definition hasKey (d : db) (k : string) : bool :=
  match keys d !! k with Some _ => true | None => false end.

Definition setKey (d : db) (k : string) (v : rvalue) : db :=
  {| keys := <[k := v]> (keys d); expires := expires d |}.

Definition delKey (d : db) (k : string) : db :=
  {| keys := delete k (keys d); expires := delete k (expires d) |}.

Definition putHash (d : db) (k : string) (h : gmap string string) : db :=
  if bool_decide (h = ∅) then delKey d k else setKey d k (RHash h).

Definition putZSet (d : db) (k : string) (z : list string) : db :=
  match z with
  | [] => delKey d k
  | _ => setKey d k (RZSet z)
  end.

(** *** Sorted sets of equal scores *)

Fixpoint zinsert (m : string) (l : list string) : list string :=
  match l with
  | [] => [m]
  | x :: r =>
      if strLt m x then m :: l
      else if strEq m x then l
      else x :: zinsert m r
  end.

Definition zremove (m : string) (l : list string) : list string :=
  List.filter (fun x => negb (strEq x m)) l.

Definition zmember (m : string) (l : list string) : bool :=
  existsb (strEq m) l.

Inductive lexBound : Type :=
| LexMinusInf
| LexPlusInf
| LexIncl (s : string)
| LexExcl (s : string).

Definition parseLex (s : string) : option lexBound :=
  match s with
  | String c r =>
      if bool_decide (c = "["%char) then Some (LexIncl r)
      else if bool_decide (c = "("%char) then Some (LexExcl r)
      else if bool_decide (s = "-") then Some LexMinusInf
      else if bool_decide (s = "+") then Some LexPlusInf
      else None
  | EmptyString => None
  end.

Definition aboveMin (min : lexBound) (m : string) : bool :=
  match min with
  | LexMinusInf => true
  | LexPlusInf => false
  | LexIncl s => strLe s m
  | LexExcl s => strLt s m
  end.

Definition belowMax (max : lexBound) (m : string) : bool :=
  match max with
  | LexPlusInf => true
  | LexMinusInf => false
  | LexIncl s => strLe m s
  | LexExcl s => strLt m s
  end.

Definition inLexRange (min max : lexBound) (m : string) : bool :=
  aboveMin min m && belowMax max m.

(** [LIMIT offset count]: skip [offset] elements, then return at most
    [count] of them (all of them when [count] is negative). *)
Definition limitSlice (offset count : Z) (l : list string) : list string :=
  if offset <? 0 then []
  else
    let rest := drop (Z.to_nat offset) l in
    if count <? 0 then rest else take (Z.to_nat count) rest.

(** The optional [LIMIT offset count] tail of a range command. *)
Definition parseLimit (opt : list string) : option (option (Z * Z)) :=
  match opt with
  | [] => Some None
  | [kw; o; c] =>
      if strEq (strMap asciiLower kw) "limit" then
        match string2ll o, string2ll c with
        | Some o', Some c' => Some (Some (o', c'))
        | _, _ => None
        end
      else None
  | _ => None
  end.

Definition applyLimit (lim : option (Z * Z)) (l : list string) : list string :=
  match lim with
  | None => l
  | Some (o, c) => limitSlice o c l
  end.

(** [ZRANGE start stop] by rank, negative ranks counting from the end. *)
Definition rankSlice (start stop : Z) (l : list string) : list string :=
  let n := Z.of_nat (length l) in
  let start := if start <? 0 then Z.max 0 (n + start) else start in
  let stop := if stop <? 0 then n + stop else stop in
  let stop := Z.min stop (n - 1) in
  if (stop <? start) || (n <=? start) then []
  else take (Z.to_nat (stop - start + 1)) (drop (Z.to_nat start) l).

(** The view a command has of a key. *)
Definition asZSet (d : db) (k : string) : option (list string) :=
  match keys d !! k with
  | None => Some []
  | Some (RZSet z) => Some z
  | Some (RHash _) => None
  end.

Definition asHash (d : db) (k : string) : option (gmap string string) :=
  match keys d !! k with
  | None => Some ∅
  | Some (RHash h) => Some h
  | Some (RZSet _) => None
  end.

Fixpoint pairUp (l : list string) : option (list (string * string)) :=
  match l with
  | [] => Some []
  | a :: b :: r => match pairUp r with Some p => Some ((a, b) :: p) | None => None end
  | [_] => None
  end.

Definition lexRange (d : db) (k smin smax : string) (opt : list string)
    (rev : bool) : reply :=
  match parseLex smin, parseLex smax, parseLimit opt with
  | Some min, Some max, Some lim =>
      match asZSet d k with
      | None => wrongType
      | Some z =>
          let hits := List.filter (inLexRange min max) z in
          RArray (RBulk <$> applyLimit lim (if rev then reverse hits else hits))
      end
  | None, _, _ | _, None, _ => RError "ERR min or max not valid string range item"
  | _, _, None => RError "ERR syntax error"
  end.

(** One command, its arguments as the bulk strings of the wire. *)
Definition exec (d : db) (command : string) (args : list string) : db * reply :=
  if strEq command "EXISTS" then
    match args with
    | [k] => (d, RInt (if hasKey d k then 1 else 0))
    | _ => (d, wrongArity)
    end
  else if strEq command "DEL" then
    match args with
    | [k] => (delKey d k, RInt (if hasKey d k then 1 else 0))
    | _ => (d, wrongArity)
    end
  else if strEq command "HMSET" then
    match args with
    | k :: (_ :: _) as fvs =>
        match pairUp fvs, asHash d k with
        | None, _ => (d, wrongArity)
        | _, None => (d, wrongType)
        | Some ps, Some h =>
            (setKey d k (RHash (fold_left (fun h fv => <[fv.1 := fv.2]> h) ps h)),
             RStatus "OK")
        end
    | _ => (d, wrongArity)
    end
  else if strEq command "HMGET" then
    match args with
    | k :: (_ :: _) as fs =>
        match asHash d k with
        | None => (d, wrongType)
        | Some h =>
            (d, RArray ((fun f => match h !! f with
                                  | Some v => RBulk v
                                  | None => RNull
                                  end) <$> fs))
        end
    | _ => (d, wrongArity)
    end
  else if strEq command "HDEL" then
    match args with
    | k :: (_ :: _) as fs =>
        match asHash d k with
        | None => (d, wrongType)
        | Some h =>
            let h' := fold_left (fun h f => delete f h) fs h in
            (if hasKey d k then putHash d k h' else d,
             RInt (Z.of_nat (size h) - Z.of_nat (size h')))
        end
    | _ => (d, wrongArity)
    end
  else if strEq command "HINCRBY" then
    match args with
    | [k; f; delta] =>
        match string2ll delta, asHash d k with
        | None, _ => (d, notInteger)
        | _, None => (d, wrongType)
        | Some incr, Some h =>
            match (match h !! f with Some v => string2ll v | None => Some 0 end) with
            | None => (d, RError "ERR hash value is not an integer")
            | Some old =>
                let new := old + incr in
                if (new <? - 2 ^ 63) || (2 ^ 63 <=? new)
                then (d, RError "ERR increment or decrement would overflow")
                else (setKey d k (RHash (<[f := formatInt new]> h)), RInt new)
            end
        end
    | _ => (d, wrongArity)
    end
  else if strEq command "PEXPIRE" then
    match args with
    | [k; ms] =>
        match string2ll ms with
        | None => (d, notInteger)
        | Some t =>
            match keys d !! k with
            | None => (d, RInt 0)
            | Some _ =>
                if t <=? 0 then (delKey d k, RInt 1)
                else ({| keys := keys d; expires := <[k := t]> (expires d) |}, RInt 1)
            end
        end
    | _ => (d, wrongArity)
    end
  else if strEq command "ZADD" then
    match args with
    | k :: (_ :: _) as sms =>
        match pairUp sms, asZSet d k with
        | None, _ => (d, RError "ERR syntax error")
        | _, None => (d, wrongType)
        | Some ps, Some z =>
            if forallb (fun sm => strEq sm.1 "0") ps then
              let z' := fold_left (fun z sm => zinsert sm.2 z) ps z in
              (putZSet d k z', RInt (Z.of_nat (length z') - Z.of_nat (length z)))
            else (d, RError "ERR a score other than 0")
        end
    | _ => (d, wrongArity)
    end
  else if strEq command "ZREM" then
    match args with
    | k :: (_ :: _) as ms =>
        match asZSet d k with
        | None => (d, wrongType)
        | Some z =>
            let z' := fold_left (fun z m => zremove m z) ms z in
            (if hasKey d k then putZSet d k z' else d,
             RInt (Z.of_nat (length z) - Z.of_nat (length z')))
        end
    | _ => (d, wrongArity)
    end
  else if strEq command "ZCARD" then
    match args with
    | [k] =>
        match asZSet d k with
        | None => (d, wrongType)
        | Some z => (d, RInt (Z.of_nat (length z)))
        end
    | _ => (d, wrongArity)
    end
  else if strEq command "ZRANGE" || strEq command "ZREVRANGE" then
    match args with
    | [k; start; stop] =>
        match string2ll start, string2ll stop, asZSet d k with
        | Some a, Some b, Some z =>
            (d, RArray (RBulk <$> rankSlice a b
                          (if strEq command "ZRANGE" then z else reverse z)))
        | _, _, None => (d, wrongType)
        | _, _, _ => (d, notInteger)
        end
    | _ => (d, wrongArity)
    end
  else if strEq command "ZRANGEBYLEX" then
    match args with
    | k :: smin :: smax :: opt => (d, lexRange d k smin smax opt false)
    | _ => (d, wrongArity)
    end
  else if strEq command "ZREVRANGEBYLEX" then
    match args with
    | k :: smax :: smin :: opt => (d, lexRange d k smin smax opt true)
    | _ => (d, wrongArity)
    end
  else if strEq command "ZLEXCOUNT" then
    match args with
    | [k; smin; smax] =>
        match parseLex smin, parseLex smax with
        | Some min, Some max =>
            match asZSet d k with
            | None => (d, wrongType)
            | Some z =>
                (d, RInt (Z.of_nat (length (List.filter (inLexRange min max) z))))
            end
        | _, _ => (d, RError "ERR min or max not valid string range item")
        end
    | _ => (d, wrongArity)
    end
  else (d, RError "ERR unknown command").

End Redis.

(** ** Commands, batches and transactions ([changeset.go], [batch.go])

    A command's arguments are kept as redigo writes them: an [int] in
    decimal, a string or a byte slice as it is.  The connection does not
    fail; what can fail is a command, whose reply is then an error. *)

Record redisCommand : Type := {
  command : string;
  args : list string;
}.

Definition newRedisCommand (cmd : string) (a : list string) : redisCommand :=
  {| command := cmd; args := a |}.

Definition add (r : redisCommand) (a : list string) : redisCommand :=
  {| command := command r; args := args r ++ a |}.

Definition valid (r : redisCommand) : bool := (1 <? length (args r))%nat.

Definition newUnindexCommand (key : string) : redisCommand :=
  newRedisCommand "ZREM" [key].
Definition newIndexCommand (key : string) : redisCommand :=
  newRedisCommand "ZADD" [key].

Definition unindexAddEntry (c : redisCommand) (e : string) : redisCommand :=
  add c [e].
Definition indexAddEntry (c : redisCommand) (e : string) : redisCommand :=
  add c [formatInt 0; e].

(** The commands of a pipeline, run in order. *)
Fixpoint runAll (d : Redis.db) (cmds : list redisCommand)
    : Redis.db * list Redis.reply :=
  match cmds with
  | [] => (d, [])
  | c :: cs =>
      let '(d1, r) := Redis.exec d (command c) (args c) in
      let '(d2, rs) := runAll d1 cs in
      (d2, r :: rs)
  end.

(** [Batch.Execute]: flush, then receive one reply per command; redigo's
    [Receive] turns an error reply into an error. *)
Definition batchExecute (d : Redis.db) (cmds : list redisCommand)
    : Redis.db * result (list Redis.reply) :=
  let '(d', rs) := runAll d cmds in
  (d', if existsb Redis.isError rs then Err "Redis error" else Ok rs).

(** [Transaction.Execute]: [MULTI], the commands, [EXEC]; the replies of
    [EXEC], error replies among them, fill the promises. *)
Definition txExecute (d : Redis.db) (cmds : list redisCommand)
    : Redis.db * list Redis.reply :=
  runAll d cmds.

(** redigo's reply helpers, with the error they return dropped as the
    driver drops it. *)
Definition replyStrings (r : Redis.reply) : list string :=
  match r with
  | Redis.RArray l =>
      if forallb (fun x => match x with
                           | Redis.RBulk _ | Redis.RNull => true
                           | _ => false
                           end) l
      then (fun x => match x with Redis.RBulk s => s | _ => "" end) <$> l
      else []
  | _ => []
  end.

Definition replyInt (r : Redis.reply) : Z :=
  match r with
  | Redis.RInt n => n
  | Redis.RBulk s => match ParseInt s with Some n => n | None => 0 end
  | _ => 0
  end.

Definition replyBool (r : Redis.reply) : bool :=
  match r with
  | Redis.RInt n => negb (n =? 0)
  | Redis.RBulk s =>
      existsb (strEq s) ["1"; "t"; "T"; "TRUE"; "true"; "True"]
  | _ => false
  end.

Definition replyValues (r : Redis.reply) : option (list Redis.reply) :=
  match r with
  | Redis.RArray l => Some l
  | _ => None
  end.

(** Go's [int] is 64 bits wide. *)
Definition wrapInt (z : Z) : Z := (z + 2 ^ 63) mod 2 ^ 64 - 2 ^ 63.

(** ** Tables *)

Inductive primaryIndex : Type :=
| randomPrimary
| compoundPrimary (i : compoundPrimaryIndex).

Record table : Type := {
  tableName : string;
  indexes : list CompoundIndex;
  primary : primaryIndex;
}.

(** [table.idKey]: the key of an entity's hash. *)
Definition idKey (t : table) (id : string) : string :=
  tableName t +:+ ":" +:+ id.

(** [basePrimaryIndex.RedisKey]. *)
Definition primaryRedisKey (t : table) : string :=
  tableName t +:+ "::PRIMARY".

(** [primaryIndex.Properties]. *)
Definition primaryProps (t : table) : list string :=
  match primary t with
  | randomPrimary => [IdKey]
  | compoundPrimary i => primaryProperties i
  end.

(** ** Looking ids up ([basePrimaryIndex.find], [CompoundIndex.Find]) *)

(** The id a filter value gives: a [schema.Key], a [string] or a [[]byte];
    any other dynamic type is logged and skipped. *)
Definition asKey (id : Value) : option string :=
  match id with
  | VKey k => Some k
  | _ => None
  end.

(** The loop of [find] over the replies: reply [i] answers [keys[i]] while
    [i] is an index of [keys], and is the cardinality after that. *)
Fixpoint findLoop (keys : list string) (rets : list Redis.reply) (i : nat)
    (ret repairs : list string) (total : Z) : list string * list string * Z :=
  match rets with
  | [] => (ret, repairs, total)
  | p :: ps =>
      match keys !! i with
      | Some k =>
          if replyBool p then findLoop keys ps (S i) (ret ++ [k]) repairs total
          else findLoop keys ps (S i) ret (repairs ++ [k]) total
      | None => findLoop keys ps (S i) ret repairs (replyInt p)
      end
  end.

(** [basePrimaryIndex.find]: the ids that exist as rows, and the total;
    ids without a row are removed from the primary set (read repair). *)
Definition find (t : table) (d : Redis.db) (ids : list Value)
    : Redis.db * result (list string * Z) :=
  let keys := (fun id => default "" (asKey id)) <$> ids in
  let exists_ :=
    omap (fun id => (fun k => newRedisCommand "EXISTS" [idKey t k]) <$> asKey id) ids in
  let '(d1, r) :=
    batchExecute d (exists_ ++ [newRedisCommand "ZCARD" [primaryRedisKey t]]) in
  match r with
  | Ok rets =>
      let '(ret, repairs, total) := findLoop keys rets 0 [] [] 0 in
      let d2 :=
        match repairs with
        | [] => d1
        | _ => (Redis.exec d1 "ZREM" (primaryRedisKey t :: repairs)).1
        end in
      (d2, Ok (ret, total))
  | Err m => (d1, Err m)
  | Panic => (d1, Panic)
  end.

Section Find.
Context `{ExternalLibs}.

(** The range command of [CompoundIndex.Find], before paging. *)
Definition findCommand (i : CompoundIndex) (rangeStart rangeEnd : string)
    (order : query.Ordering) : redisCommand :=
  if negb (query.IsNil order) && negb (query.Ascending order)
  then newRedisCommand "ZREVRANGEBYLEX" [RedisKey i; rangeEnd; rangeStart]
  else newRedisCommand "ZRANGEBYLEX" [RedisKey i; rangeStart; rangeEnd].

(** [CompoundIndex.Find]. *)
Definition Find (enc : Encoder) (i : CompoundIndex) (d : Redis.db)
    (filters : query.Filters) (offset limit : Z) (order : query.Ordering)
    : Redis.db * result (list string * Z) :=
  match rangeKeys enc i filters order with
  | Ok (rangeStart, rangeEnd) =>
      let cmd := findCommand i rangeStart rangeEnd order in
      let cmd :=
        if 0 <? limit
        then add cmd ["LIMIT"; formatInt offset; formatInt (wrapInt (offset + limit))]
        else cmd in
      let '(d1, r) :=
        batchExecute d [cmd; newRedisCommand "ZLEXCOUNT" (take 3 (args cmd))] in
      match r with
      | Ok rets =>
          match rets with
          | r0 :: r1 :: _ => (d1, Ok (extractId <$> replyStrings r0, replyInt r1))
          | _ => (d1, Panic)
          end
      | Err m => (d1, Err m)
      | Panic => (d1, Panic)
      end
  | Err m => (d, Err m)
  | Panic => (d, Panic)
  end.

End Find.

(** ** Change sets ([driver/redis/changeset.go]) *)

Inductive changeType : Type :=
| changeNop
| changeUpdate
| changeInsert
| changeDelete
| changeReindex.

Definition isDelete (ct : changeType) : bool :=
  match ct with changeDelete => true | _ => false end.

Record entityChange : Type := {
  changes : list query.Change;
  changedProperties : list string;
  objectId : string;
  rcChangeType : changeType;
  rcTable : table;
}.

(** [propertyList.sorted]: ascending byte order. *)
Fixpoint insertSorted (s : string) (l : list string) : list string :=
  match l with
  | [] => [s]
  | x :: r => if strLt x s then x :: insertSorted s r else s :: l
  end.

Definition sorted (l : list string) : list string :=
  fold_right insertSorted [] l.

(** [propertyList.hash]: FNV-1a over the names written one after the
    other. *)
Definition hash (l : list string) : Z := fold_left fnvWrite l fnvOffset64.

Definition newEntityChange (t : table) (id : string) (ct : changeType)
    (chs : list query.Change) : entityChange :=
  {| changes := chs;
     changedProperties := sorted (query.ChangeProperty <$> chs);
     objectId := id;
     rcChangeType := ct;
     rcTable := t |}.

(** [indexableCache]: the process-wide [propCache]. *)
Abbreviation indexableCache := (gmap Z (list string)).

(** Append the properties of [more] that [props] does not contain yet. *)
Definition addMissing (props more : list string) : list string :=
  fold_left (fun acc p => if contains acc p then acc else acc ++ [p]) more props.

(** The body of [indexableProperties] after a cache miss. *)
Definition computeIndexable (t : table) (rc : entityChange) : list string :=
  fold_left
    (fun props ch =>
       fold_left
         (fun props idx =>
            if isDelete (rcChangeType rc) then addMissing props (properties idx)
            else if MatchesProperties idx [query.ChangeProperty ch]
                 then addMissing props (properties idx)
                 else props)
         (indexes t) props)
    (changes rc) (primaryProps t).

(** [changeSet.indexableProperties], the cache threaded through. *)
Definition indexableProperties (t : table) (rc : entityChange)
    (cache : indexableCache) : list string * indexableCache :=
  let h := hash (changedProperties rc) in
  match cache !! h with
  | Some cached => (cached, cache)
  | None =>
      let props := computeIndexable t rc in
      (props, <[h := props]> cache)
  end.

Record changeResult : Type := {
  resultProperties : list string;
  oldPromise : option nat;
  resultChange : entityChange;
}.

Record propertyDiff : Type := {
  newVal : PValue;
  oldVal : PValue;
  changed : bool;
  loadOnly : bool;
}.

Record entityDiff : Type := {
  diffId : string;
  diffs : gmap string propertyDiff;
  diffChangeType : changeType;
}.

(** [entityDiff.vals]. *)
Definition vals (d : entityDiff) (newVals : bool) : gmap string PValue :=
  (fun pd => if newVals then newVal pd else oldVal pd) <$> diffs d.

(** ** Index pipelines ([CompoundIndex.Pipeline], [basePrimaryIndex.Pipeline])

    The goroutine of a pipeline reads the diffs the caller sends down the
    channel, in order, until the channel is closed or a [nil] arrives;
    the channel is the list of what is sent, [None] being [nil].  What the
    pipeline enqueues is appended to the commands of the transaction. *)

Definition diffEntry (i : CompoundIndex) (eDiff : entityDiff) (useNew : bool) : string :=
  entry i (diffId eDiff) (vals eDiff useNew).

(** One iteration: the entries [addCmd] and [delCmd] gain for one diff. *)
Definition pipelineStep (i : CompoundIndex) (st : redisCommand * redisCommand)
    (eDiff : entityDiff) : redisCommand * redisCommand :=
  let '(addCmd, delCmd) := st in
  let delEntry := diffEntry i eDiff false in
  if negb (isDelete (diffChangeType eDiff)) then
    let addEntry := diffEntry i eDiff true in
    if negb (strEq addEntry delEntry) then
      (if 0 <? strLen addEntry then indexAddEntry addCmd addEntry else addCmd,
       if 0 <? strLen delEntry then unindexAddEntry delCmd delEntry else delCmd)
    else st
  else if negb (strEq delEntry "") then (addCmd, unindexAddEntry delCmd delEntry)
  else st.

Fixpoint pipelineLoop (i : CompoundIndex) (st : redisCommand * redisCommand)
    (ch : list (option entityDiff)) : redisCommand * redisCommand :=
  match ch with
  | [] => st
  | None :: _ => st
  | Some eDiff :: rest => pipelineLoop i (pipelineStep i st eDiff) rest
  end.

(** Enqueue the [ZREM], then the [ZADD], each only if it has an entry. *)
Definition sendBoth (tx : list redisCommand) (st : redisCommand * redisCommand)
    : list redisCommand :=
  let '(addCmd, delCmd) := st in
  let tx := if valid delCmd then tx ++ [delCmd] else tx in
  if valid addCmd then tx ++ [addCmd] else tx.

Definition Pipeline (i : CompoundIndex) (tx : list redisCommand)
    (ch : list (option entityDiff)) : list redisCommand :=
  sendBoth tx
    (pipelineLoop i (newIndexCommand (RedisKey i), newUnindexCommand (RedisKey i)) ch).

Definition primaryStep (st : redisCommand * redisCommand) (eDiff : entityDiff)
    : redisCommand * redisCommand :=
  let '(addCmd, delCmd) := st in
  if isDelete (diffChangeType eDiff)
  then (addCmd, unindexAddEntry delCmd (diffId eDiff))
  else (indexAddEntry addCmd (diffId eDiff), delCmd).

Fixpoint primaryLoop (st : redisCommand * redisCommand)
    (ch : list (option entityDiff)) : redisCommand * redisCommand :=
  match ch with
  | [] => st
  | None :: _ => st
  | Some eDiff :: rest => primaryLoop (primaryStep st eDiff) rest
  end.

Definition primaryPipeline (t : table) (tx : list redisCommand)
    (ch : list (option entityDiff)) : list redisCommand :=
  sendBoth tx
    (primaryLoop (newIndexCommand (primaryRedisKey t),
                  newUnindexCommand (primaryRedisKey t)) ch).

Section ChangeSets.
Context `{ExternalLibs}.

(** How redigo writes a value given as a command argument: [fmt.Fprint]
    for the driver's named types. *)
Definition argOfValue (v : Value) : string :=
  match v with
  | VNil => ""
  | VInt i => formatInt i
  | VUint u => formatInt u
  | VBool b => if b then "true" else "false"
  | VText s => s
  | VKey k => k
  | VBinary b => sprintV (PBytes b)
  | _ => fmtPrint v
  end.

(** The loop of [entityChange.commands]: the [HMSET] under construction
    and the commands after it; [inl] is the early return of a [DEL]. *)
Fixpoint commandsLoop (enc : Encoder) (key : string) (chs : list query.Change)
    (hmset : redisCommand) (ret : list redisCommand)
    : result (list redisCommand + redisCommand * list redisCommand) :=
  match chs with
  | [] => Ok (inr (hmset, ret))
  | ch :: rest =>
      match query.Op ch with
      | query.Noop => commandsLoop enc key rest hmset ret
      | query.OpSet =>
          match Encode enc (query.ChangeValue ch) with
          | Ok val =>
              commandsLoop enc key rest (add hmset [query.ChangeProperty ch; val]) ret
          | Err _ => Err "Could not encode changeset"
          | Panic => Panic
          end
      | query.OpDel => Ok (inl [newRedisCommand "DEL" [key]])
      | query.OpIncrement =>
          commandsLoop enc key rest hmset
            (ret ++ [newRedisCommand "HINCRBY"
                       [key; query.ChangeProperty ch; argOfValue (query.ChangeValue ch)]])
      | query.OpPropDel =>
          commandsLoop enc key rest hmset
            (ret ++ [newRedisCommand "HDEL" [key; query.ChangeProperty ch]])
      | query.OpExpire =>
          match query.ChangeValue ch with
          | VDuration ns =>
              commandsLoop enc key rest hmset
                (ret ++ [newRedisCommand "PEXPIRE" [key; formatInt (Z.quot ns 1000000)]])
          | _ => Err "Invalid value for TTL"
          end
      | _ => Err "Operation not supported"
      end
  end.

(** [entityChange.commands]: the [HMSET] comes first and is left out when
    it has no field. *)
Definition commands (enc : Encoder) (rc : entityChange) : result (list redisCommand) :=
  let key := idKey (rcTable rc) (objectId rc) in
  r ← commandsLoop enc key (changes rc) (newRedisCommand "HMSET" [key]) [];
  match r with
  | inl del => Ok del
  | inr (hmset, ret) => Ok (if valid hmset then hmset :: ret else ret)
  end.

Fixpoint mapMR {A B : Type} (f : A -> result B) (l : list A) : result (list B) :=
  match l with
  | [] => Ok []
  | a :: r => b ← f a; bs ← mapMR f r; Ok (b :: bs)
  end.

(** A property's diff while its values are still typed values. *)
Record rawDiff : Type := {
  rawNew : Value;
  rawOld : Value;
  rawChanged : bool;
  rawLoadOnly : bool;
}.

(** Go's [!=] on two interface values panics when both hold the same
    uncomparable type. *)
Definition uncomparable (a b : Value) : bool :=
  match a, b with
  | VBinary _, VBinary _ | VSet _, VSet _ | VList _, VList _
  | VMap _, VMap _ | VMap _, VRawMap _ | VRawMap _, VMap _ | VRawMap _, VRawMap _ => true
  | _, _ => false
  end.

(** First loop of [getDiffs]: one diff per indexable property, with the
    decoded old value when the row was read. *)
Fixpoint oldDiffs (rc : entityChange) (olds : option (list Redis.reply))
    (props : list string) (i : nat) (acc : gmap string rawDiff)
    : result (gmap string rawDiff) :=
  match props with
  | [] => Ok acc
  | p :: ps =>
      let lo := negb (contains (changedProperties rc) p) in
      old ← match olds with
            | None => Ok VNil
            | Some l =>
                match l !! i with
                | Some (Redis.RBulk v) =>
                    match Decode v with
                    | Ok x => Ok x
                    | Err _ => Err "Could not decode"
                    | Panic => Panic
                    end
                | Some Redis.RNull => Ok VNil
                | Some _ => Err "Invalid value to deocde"
                | None => Panic
                end
            end;
      oldDiffs rc olds ps (S i)
        (<[p := {| rawNew := VNil; rawOld := old; rawChanged := false;
                   rawLoadOnly := lo |}]> acc)
  end.

(** Second loop: the new value of every changed property that has a diff. *)
Fixpoint newDiffs (chs : list query.Change) (acc : gmap string rawDiff)
    : result (gmap string rawDiff) :=
  match chs with
  | [] => Ok acc
  | ch :: rest =>
      match acc !! query.ChangeProperty ch with
      | None => newDiffs rest acc
      | Some pd =>
          if uncomparable (query.ChangeValue ch) (rawOld pd) then Panic
          else
            newDiffs rest
              (<[query.ChangeProperty ch :=
                   {| rawNew := query.ChangeValue ch; rawOld := rawOld pd;
                      rawChanged := negb (keyEq (query.ChangeValue ch) (rawOld pd));
                      rawLoadOnly := rawLoadOnly pd |}]> acc)
      end
  end.

(** Third loop: both values prepared for indexing; a property that was
    only loaded keeps its old value as its new one. *)
Definition prepareDiff (enc : Encoder) (ct : changeType) (kv : string * rawDiff)
    : result (string * propertyDiff) :=
  match prepareValue enc (rawOld kv.2), prepareValue enc (rawNew kv.2) with
  | Ok o, Ok n =>
      Ok (kv.1, {| newVal := if rawLoadOnly kv.2 && negb (isDelete ct) then o else n;
                   oldVal := o;
                   changed := rawChanged kv.2;
                   loadOnly := rawLoadOnly kv.2 |})
  | Panic, _ | Ok _, Panic => Panic
  | _, _ => Err "Error encoding value for indexing"
  end.

(** [changeResult.getDiffs]; [replies] are the replies of the first
    transaction. *)
Definition getDiffs (enc : Encoder) (replies : list Redis.reply)
    (cr : changeResult) : result entityDiff :=
  let rc := resultChange cr in
  let olds :=
    match oldPromise cr with
    | None => None
    | Some n => match replies !! n with Some r => replyValues r | None => None end
    end in
  d1 ← oldDiffs rc olds (resultProperties cr) 0 ∅;
  d2 ← (if isDelete (rcChangeType rc) then Ok d1 else newDiffs (changes rc) d1);
  d3 ← mapMR (prepareDiff enc (rcChangeType rc)) (map_to_list d2);
  Ok {| diffId := objectId rc;
        diffs := list_to_map d3;
        diffChangeType := rcChangeType rc |}.

(** [changeSet.indexChanges]: a transaction of its own with what the
    primary's pipeline and every secondary index's pipeline enqueue. *)
Definition indexChanges (enc : Encoder) (t : table) (d : Redis.db)
    (results : list changeResult) (replies : list Redis.reply)
    : Redis.db * result unit :=
  match mapMR (getDiffs enc replies) results with
  | Ok ds =>
      let ch := Some <$> ds in
      let tx := primaryPipeline t [] ch in
      let tx := fold_left (fun tx idx => Pipeline idx tx ch) (indexes t) tx in
      ((txExecute d tx).1, Ok ())
  | Err m => (d, Err m)
  | Panic => (d, Panic)
  end.

Record changeSet : Type := {
  csTable : table;
  csChanges : list entityChange;
}.

(** The loop of [changeSet.Execute]: the read of the indexable
    properties, then the row commands, for one change after the other. *)
Fixpoint executeLoop (enc : Encoder) (t : table) (chs : list entityChange)
    (cache : indexableCache) (tx : list redisCommand) (results : list changeResult)
    : indexableCache * result (list redisCommand * list changeResult) :=
  match chs with
  | [] => (cache, Ok (tx, results))
  | rc :: rest =>
      let '(indexable, cache1) := indexableProperties t rc cache in
      let '(tx1, results1) :=
        match indexable with
        | [] => (tx, results)
        | _ =>
            match rcChangeType rc with
            | changeUpdate | changeDelete =>
                (tx ++ [newRedisCommand "HMGET" (idKey t (objectId rc) :: indexable)],
                 results ++ [{| resultProperties := indexable;
                                oldPromise := Some (length tx);
                                resultChange := rc |}])
            | changeInsert | changeReindex =>
                (tx, results ++ [{| resultProperties := indexable;
                                    oldPromise := None;
                                    resultChange := rc |}])
            | changeNop => (tx, results)
            end
        end in
      match commands enc rc with
      | Ok cmds => executeLoop enc t rest cache1 (tx1 ++ cmds) results1
      | Err m => (cache1, Err m)
      | Panic => (cache1, Panic)
      end
  end.

(** ** The state of the process and of the server *)

Record World : Type := {
  store : Redis.db;
  propCache : indexableCache;
  (** The ids [randomPrimaryIndex.GenerateId] draws: the n-th read of
      [crypto/rand], eight bytes, in unpadded URL-safe base64. *)
  randomIds : nat -> string;
  randomPos : nat;
}.

Definition withStore (w : World) (d : Redis.db) : World :=
  {| store := d; propCache := propCache w;
     randomIds := randomIds w; randomPos := randomPos w |}.

Definition withCache (w : World) (c : indexableCache) : World :=
  {| store := store w; propCache := c;
     randomIds := randomIds w; randomPos := randomPos w |}.

(** [changeSet.Execute]: the number of changes executed. *)
Definition Execute (enc : Encoder) (c : changeSet) (w : World) : World * result Z :=
  let '(cache, r) := executeLoop enc (csTable c) (csChanges c) (propCache w) [] [] in
  let w1 := withCache w cache in
  match r with
  | Ok (tx, results) =>
      let '(d1, replies) := txExecute (store w1) tx in
      let '(d2, r2) := indexChanges enc (csTable c) d1 results replies in
      match r2 with
      | Ok _ => (withStore w1 d2, Ok (Z.of_nat (length (csChanges c))))
      | Err m => (withStore w1 d2, Err m)
      | Panic => (withStore w1 d2, Panic)
      end
  | Err m => (w1, Err m)
  | Panic => (w1, Panic)
  end.

(** ** [table.Put] *)

(** [primaryIndex.GenerateId] of the table's primary index. *)
Definition generateId (enc : Encoder) (t : table) (ent : Entity) (w : World)
    : World * result string :=
  match primary t with
  | randomPrimary =>
      match Id ent with
      | EmptyString =>
          ({| store := store w; propCache := propCache w;
              randomIds := randomIds w; randomPos := S (randomPos w) |},
           Ok (randomIds w (randomPos w)))
      | id => (w, Ok id)
      end
  | compoundPrimary i => (w, GenerateId enc i ent)
  end.

(** The changes [Put] makes of an entity: a [Set] per property and, last,
    the expiry. *)
Definition putChanges (ent : Entity) : list query.Change :=
  ((fun kv => query.Set_ kv.1 kv.2) <$> map_to_list (Properties ent))
    ++ (if 0 <? TTL ent then [query.Expire (TTL ent)] else []).

Fixpoint putLoop (enc : Encoder) (t : table) (entities : list Entity) (w : World)
    (ret : list string) (cs : list entityChange)
    : World * result (list string * list entityChange) :=
  match entities with
  | [] => (w, Ok (ret, cs))
  | ent :: rest =>
      let '(w1, r) := generateId enc t ent w in
      match r with
      | Ok id =>
          let ct := if strEq id (Id ent) then changeUpdate else changeInsert in
          putLoop enc t rest w1 (ret ++ [id])
                  (cs ++ [newEntityChange t id ct (putChanges ent)])
      | Err m => (w1, Err m)
      | Panic => (w1, Panic)
      end
  end.

Definition Put (enc : Encoder) (t : table) (entities : list Entity) (w : World)
    : World * result (list string) :=
  let '(w1, r) := putLoop enc t entities w [] [] in
  match r with
  | Ok (ret, cs) =>
      let '(w2, r2) := Execute enc {| csTable := t; csChanges := cs |} w1 in
      match r2 with
      | Ok _ => (w2, Ok ret)
      | Err m => (w2, Err m)
      | Panic => (w2, Panic)
      end
  | Err m => (w1, Err m)
  | Panic => (w1, Panic)
  end.

End ChangeSets.

(** ** The libraries at the inputs of the examples

    On ASCII text the transformer chain of the normalizer lower-cases the
    letters and changes nothing else.  The concrete inputs below use
    scalars and ASCII text only, so nothing they compute goes through the
    other fields. *)
Definition asciiLibs : ExternalLibs := {|
  textTransform := strMap asciiLower;
  ParseFloat := fun _ => None;
  snappyEncode := fun s => s;
  snappyDecode := fun s => Some s;
  lzwDecode := fun _ => None;
  bsonMarshalArray := fun _ => None;
  bsonMarshalMap := fun _ => None;
  bsonMarshalRawMap := fun _ => None;
  bsonDecodeArray := fun _ => None;
  bsonDecodeMap := fun _ => None;
  fmtPrint := fun _ => "";
|}.

Definition firstByte (s : string) : option ascii :=
  match s with
  | EmptyString => None
  | String c _ => Some c
  end.

(** ** A BSON library for the examples

    The wire format of the BSON specification, for the documents that the
    examples store: arrays and maps whose values are Texts.  A document
    is its length in four little-endian bytes, its elements and a zero
    byte; a string element is what [Text.MarshalBson] writes: the type
    byte [2], the key and a zero byte, the length of the string with its
    closing zero byte, the string and a zero byte; the keys of an array
    are the decimal indexes.  The decoder returns a string element as a
    Go [string].  Any other document is refused. *)

Definition nul : ascii := byteOf 0.

Definition le32 (n : Z) : string :=
  String (byteOf n)
 (String (byteOf (n / 2 ^ 8))
 (String (byteOf (n / 2 ^ 16))
 (String (byteOf (n / 2 ^ 24)) ""))).

Definition readLe32 (s : string) : option (Z * string) :=
  match s with
  | String a (String b (String c (String d r))) =>
      Some (byteVal a + 2 ^ 8 * byteVal b + 2 ^ 16 * byteVal c + 2 ^ 24 * byteVal d, r)
  | _ => None
  end.

Fixpoint readCString (s : string) : option (string * string) :=
  match s with
  | EmptyString => None
  | String c r =>
      if bool_decide (c = nul) then Some ("", r)
      else '(k, rest) ← readCString r; Some (String c k, rest)
  end.

Fixpoint splitAt (n : nat) (s : string) : option (string * string) :=
  match n, s with
  | O, _ => Some ("", s)
  | S _, EmptyString => None
  | S k, String c r => '(a, b) ← splitAt k r; Some (String c a, b)
  end.

Definition bsonStringElement (key s : string) : string :=
  String (byteOf 2) (key +:+ String nul (le32 (strLen s + 1) +:+ s +:+ String nul "")).

Definition bsonDocument (body : string) : string :=
  le32 (strLen body + 5) +:+ body +:+ String nul "".

Fixpoint bsonTextElements (entries : list (string * Value)) : option string :=
  match entries with
  | [] => Some ""
  | (k, VText s) :: r => rest ← bsonTextElements r; Some (bsonStringElement k s +:+ rest)
  | _ => None
  end.

Definition bsonTextMap (entries : list (string * Value)) : option string :=
  bsonDocument <$> bsonTextElements entries.

Definition bsonTextArray (l : list Value) : option string :=
  bsonTextMap (imap (fun i v => (formatUint (Z.of_nat i), v)) l).

Fixpoint readElements (fuel : nat) (s : string) : option (list (string * GoValue)) :=
  match fuel, s with
  | S f, String t r =>
      if bool_decide (t = nul) then Some []
      else if bool_decide (t = byteOf 2) then
        '(key, r1) ← readCString r;
        '(n, r2) ← readLe32 r1;
        '(str, r3) ← splitAt (Z.to_nat (n - 1)) r2;
        match r3 with
        | String z r4 =>
            if bool_decide (z = nul)
            then rest ← readElements f r4; Some ((key, GString str) :: rest)
            else None
        | EmptyString => None
        end
      else None
  | _, _ => None
  end.

Definition readDocument (s : string) : option (list (string * GoValue)) :=
  '(_, r) ← readLe32 s; readElements (String.length r) r.

Definition bsonLibs : ExternalLibs := {|
  textTransform := strMap asciiLower;
  ParseFloat := fun _ => None;
  snappyEncode := fun s => s;
  snappyDecode := fun s => Some s;
  lzwDecode := fun _ => None;
  bsonMarshalArray := bsonTextArray;
  bsonMarshalMap := bsonTextMap;
  bsonMarshalRawMap := fun _ => None;
  bsonDecodeArray := fun b => (fun es : list (string * GoValue) => es.*2) <$> readDocument b;
  bsonDecodeMap := readDocument;
  fmtPrint := fun _ => "";
|}.

(** The set of [TestConvert], and a map of texts. *)
Definition fooBarBaz : list Value := [VText "foo"; VText "bar"; VText "baz"].
Definition fooBar : list (string * Value) := [("Foo", VText "Bar"); ("Bar", VText "Baz")].

(** * Further functions of the driver and of its packages *)

(** ** [whitespaceDedupe.Transform] ([schema/normalize.go])

    [Transform(dst, src, atEOF)] with a [dst] of [dstLen] bytes: the bytes
    written to [dst], the number [nSrc] of bytes read from [src], and
    whether it stopped with [transform.ErrShortDst].  [i] is the index
    into [src] and [prevWhite] tells whether [src[i-1]] is white; it is
    [false] at index [0]. *)
Fixpoint transformFrom (dstLen i : nat) (prevWhite : bool) (src : string)
    : string * nat * bool :=
  match src with
  | EmptyString => (EmptyString, i, false)
  | String b r =>
      if (dstLen <=? i)%nat then (EmptyString, i, true)
      else if isWhite b && prevWhite then transformFrom dstLen (S i) true r
      else
        let '(out, nSrc, short) := transformFrom dstLen (S i) (isWhite b) r in
        (String b out, nSrc, short)
  end.

Definition Transform (dstLen : nat) (src : string) : string * nat * bool :=
  transformFrom dstLen 0 false src.

(** ** Primary indexes ([driver/redis/primary.go]) *)

(** [Filters.One]: the filter of a map that holds exactly one. *)
Definition One (f : query.Filters) : option query.Filter :=
  match map_to_list f with
  | [(_, flt)] => Some flt
  | _ => None
  end.

(** The test both primary indexes start with: one filter, on the id. *)
Definition isIdQuery (filters : query.Filters) : bool :=
  match One filters with
  | Some flt => strEq (query.Property flt) IdKey
  | None => false
  end.

(** [randomPrimaryIndex.Matches] and [compoundPrimaryIndex.Matches]; the
    ordering is not looked at. *)
Definition randomMatches (filters : query.Filters) : bool * score :=
  if isIdQuery filters then (true, (1%nat, 1%nat)) else (false, scoreZero).

Definition compoundMatches (i : compoundPrimaryIndex) (filters : query.Filters)
    : bool * score :=
  if isIdQuery filters then (true, (1%nat, 1%nat))
  else if negb (size filters =? length (primaryProperties i))%nat then (false, scoreZero)
  else if forallb (fun kv => contains (primaryProperties i) kv.1) (map_to_list filters)
       then (true, (1%nat, 1%nat))
       else (false, scoreZero).

Section FiltersToIds.
Context `{ExternalLibs}.

(** [formatValue(prepareValue(val))]. *)
Definition formatPrepared (enc : Encoder) (v : Value) : result string :=
  pv ← prepareValue enc v; Ok (formatValue pv).

(** The loop of [compoundPrimaryIndex.filtersToIds]: [n] is its counter
    [i], [idBuffers] the partial ids so far. *)
Fixpoint filtersToIdsLoop (enc : Encoder) (props : list string)
    (filters : query.Filters) (n : nat) (idBuffers : list string)
    : result (list string) :=
  match props with
  | [] => Ok idBuffers
  | p :: ps =>
      match filters !! p with
      | None => Err ("Filter for " +:+ p +:+ " not found in query")
      | Some flt =>
          bufs ← match n with
                 | O =>
                     news ← mapMR (formatPrepared enc) (query.Values flt);
                     Ok (idBuffers ++ news)
                 | S _ =>
                     tmpBuffs ← mapMR
                       (fun buf =>
                          mapMR (fun v => s ← formatPrepared enc v; Ok (buf +:+ s))
                                (query.Values flt))
                       idBuffers;
                     Ok (concat tmpBuffs)
                 end;
          filtersToIdsLoop enc ps filters (S n) bufs
      end
  end.

(** [compoundPrimaryIndex.filtersToIds]: the ids of all the combinations
    of the filters' values, as [schema.Key]s. *)
Definition filtersToIds (enc : Encoder) (i : compoundPrimaryIndex)
    (filters : query.Filters) : result (list Value) :=
  mapR (fun bufs : list string => (fun b => VKey (processId i b)) <$> bufs)
       (filtersToIdsLoop enc (primaryProperties i) filters 0 []).

End FiltersToIds.

(** ** Loading entities ([table.load], [table.readEntity]) *)

(** [HGETALL key]: the fields of the hash, each followed by its value; the
    empty array for a key that does not exist.  The order of the fields
    is the server's; here it is the order of [map_to_list]. *)
Definition hgetall (d : Redis.db) (k : string) : Redis.reply :=
  match Redis.asHash d k with
  | None => Redis.wrongType
  | Some h =>
      Redis.RArray
        (concat ((fun fv : string * string => [Redis.RBulk fv.1; Redis.RBulk fv.2])
                   <$> map_to_list h))
  end.

Section Load.
Context `{ExternalLibs}.

(** The loop of [readEntity] over the names and values of a row.  The
    type assertion on a name or value that is no byte slice panics, and so
    does reading the value after a last name.  The property [id] is
    passed over, a missing value too, and so is a value that does not
    decode. *)
Fixpoint readPairs (vals : list Redis.reply) (acc : gmap string Value)
    : result (gmap string Value) :=
  match vals with
  | [] => Ok acc
  | name :: rest1 =>
      match name with
      | Redis.RBulk propName =>
          match rest1 with
          | [] => if strEq propName IdKey then Ok acc else Panic
          | value :: rest =>
              if strEq propName IdKey then readPairs rest acc
              else
                match value with
                | Redis.RNull => readPairs rest acc
                | Redis.RBulk data =>
                    match Decode data with
                    | Ok v => readPairs rest (<[propName := v]> acc)
                    | Err _ => readPairs rest acc
                    | Panic => Panic
                    end
                | _ => Panic
                end
          end
      | _ => Panic
      end
  end.

(** [table.readEntity]. *)
Definition readEntity (id : string) (vals : list Redis.reply) : result Entity :=
  mapR (fun props => {| Id := id; Properties := props; TTL := 0 |}) (readPairs vals ∅).

(** The reply [load] gets for one id: of [HGETALL] without a list of
    properties, of [HMGET] with one. *)
Definition loadReply (t : table) (d : Redis.db) (properties : list string) (id : string)
    : Redis.reply :=
  match properties with
  | [] => hgetall d (idKey t id)
  | _ => (Redis.exec d "HMGET" (idKey t id :: properties)).2
  end.

(** What [load] makes of the reply for one id: nothing unless there are
    at least two values; the values of an [HMGET] are first zipped with
    the names asked for. *)
Definition loadOne (properties : list string) (id : string) (r : Redis.reply)
    : result (option Entity) :=
  let vals := default [] (replyValues r) in
  let vals :=
    if (0 <? length properties)%nat && (length properties =? length vals)%nat
    then concat (zip_with (fun p v => [Redis.RBulk p; v]) properties vals)
    else vals in
  if (1 <? length vals)%nat then mapR Some (readEntity id vals) else Ok None.

(** [table.load]: the entities stored at the ids, the ids without one
    left out. *)
Definition load (t : table) (d : Redis.db) (ids : list string) (properties : list string)
    : result (list Entity) :=
  let rets := loadReply t d properties <$> ids in
  if existsb Redis.isError rets then Err "Redis error"
  else
    mapR (omap (fun e : option Entity => e))
         (mapMR (fun ir : string * Redis.reply => loadOne properties ir.1 ir.2)
                (zip ids rets)).

End Load.

(** * Vocabulary of the properties and example data *)

(** The bytes after a leading run of digits. *)
Fixpoint afterDigits (s : string) : string :=
  match s with
  | EmptyString => EmptyString
  | String c r => if isDigit c then afterDigits r else s
  end.

(** Fixed-point text: an optional [-], one or more digits, a point, six
    digits. *)
Definition isFixed6 (s : string) : bool :=
  let body :=
    match s with
    | String c r => if bool_decide (c = "-"%char) then r else s
    | EmptyString => s
    end in
  match body with
  | String c _ => isDigit c
  | EmptyString => false
  end &&
  match afterDigits body with
  | String c fp =>
      bool_decide (c = "."%char) && (String.length fp =? 6)%nat && strAll isDigit fp
  | EmptyString => false
  end.

(** The finite case of [formatFloat], its parts named. *)
Definition floatMicros (b : Z) : Z := roundHalfEven (floatMag b * 1000000) pow2_1074.

(** No two elements are equal as keys of a Go map. *)
Fixpoint distinctKeys (l : list Value) : bool :=
  match l with
  | [] => true
  | v :: r => negb (existsb (keyEq v) r) && distinctKeys r
  end.

(** The Go values are, one for one, values that [InternalType] maps to
    the elements. *)
Definition decodesTo (gs : list GoValue) (l : list Value) : Prop :=
  Forall2 (fun g v => InternalType g = Ok v) gs l.

Definition entriesDecodeTo (gm : list (string * GoValue)) (m : list (string * Value))
    : Prop :=
  Forall2 (fun ge e => ge.1 = e.1 /\ InternalType ge.2 = Ok e.2) gm m.

(** The values the round trip is stated for.  Numbers are in the range of
    their Go type, a float is finite, a timestamp is not the zero time.
    A text at or above the compression threshold is one that Snappy
    decodes from what it encoded.  A container is one that BSON marshals
    and whose bytes BSON decodes into Go values that [InternalType] maps
    to its elements; the elements of a set are hashable and distinct as
    keys, the keys of a map distinct. *)
Definition storable `{ExternalLibs} (c : Encoder) (v : Value) : Prop :=
  match v with
  | VNil | VBool _ | VBinary _ => True
  | VInt i => - 2 ^ 63 <= i < 2 ^ 63
  | VUint u => 0 <= u < 2 ^ 64
  | VFloat f => floatIsNaN f = false /\ floatIsInf f = false
  | VText s =>
      (0 <? TextCompressThreshold c) && (TextCompressThreshold c <=? strLen s) = false
      \/ snappyDecode (snappyEncode s) = Some s
  | VTimestamp sec nsec =>
      - 2 ^ 63 <= sec < 2 ^ 63 /\ ~ (sec = zeroTimeUnix /\ nsec = 0)
  | VSet l =>
      forallb hashable l = true /\ distinctKeys l = true
      /\ exists b gs, bsonMarshalArray l = Some b /\ bsonDecodeArray b = Some gs
                      /\ decodesTo gs l
  | VList l =>
      exists b gs, bsonMarshalArray l = Some b /\ bsonDecodeArray b = Some gs
                   /\ decodesTo gs l
  | VMap m =>
      NoDup m.*1
      /\ exists b gm, bsonMarshalMap m = Some b /\ bsonDecodeMap b = Some gm
                      /\ entriesDecodeTo gm m
  | VRawMap _ | VKey _ | VDuration _ => False
  end.

(** What such a value reads back as. *)
Definition readBack `{ExternalLibs} (v : Value) : result Value :=
  match v with
  | VUint u => Ok (if u <? 2 ^ 63 then VInt u else VUint u)
  | VFloat f =>
      match ParseFloat (formatFloat f) with
      | Some g => Ok (VFloat g)
      | None => Err "Invalid number format"
      end
  | VTimestamp sec _ => Ok (VTimestamp sec 0)
  | _ => Ok v
  end.

(** The first byte of a number's text: a digit or a sign, or the [N] of
    [NaN]; never one of the tags [i], [u], [f]. *)
Definition startsNumber (s : string) : bool :=
  match s with
  | String b _ =>
      isDigit b || bool_decide (b = "-"%char) || bool_decide (b = "+"%char)
      || bool_decide (b = "N"%char)
  | EmptyString => false
  end.

Definition startsInteger (s : string) : bool :=
  match s with
  | String b _ => isDigit b || bool_decide (b = "-"%char)
  | EmptyString => false
  end.

(** IEEE [<] on two floats given as bit patterns: false when either is
    NaN. *)
Definition floatLess (a b : Z) : Prop :=
  floatIsNaN a = false /\ floatIsNaN b = false /\ floatLt a b.

(** The filter columns are the first [n] columns of the index, [n >= 1]. *)
Definition isPrefixOf (filters : query.Filters) (props : list string) : Prop :=
  exists n : nat, (0 < n <= length props)%nat
                  /\ dom filters = (list_to_set (take n props) : gset string).

(** The classification of one diff, in the words of the design: the
    entries to remove and the entries to add. *)
Definition removedEntries (i : CompoundIndex) (d : entityDiff) : list string :=
  let old := diffEntry i d false in
  let new := diffEntry i d true in
  if isDelete (diffChangeType d) then (if strEq old "" then [] else [old])
  else if strEq old new then []
  else if strEq old "" then [] else [old].

Definition addedEntries (i : CompoundIndex) (d : entityDiff) : list string :=
  let old := diffEntry i d false in
  let new := diffEntry i d true in
  if isDelete (diffChangeType d) then []
  else if strEq old new then []
  else if strEq new "" then [] else [new].

(** The bulk commands: one [ZREM] of all removed entries, one [ZADD] of
    all added entries with score [0], each left out when it is empty. *)
Definition bulkRemove (key : string) (entries : list string) : list redisCommand :=
  match entries with
  | [] => []
  | _ => [newRedisCommand "ZREM" (key :: entries)]
  end.

Definition bulkAdd (key : string) (entries : list string) : list redisCommand :=
  match entries with
  | [] => []
  | _ => [newRedisCommand "ZADD" (key :: concat ((fun e => ["0"; e]) <$> entries))]
  end.

(** The cache after a sequence of calls, for any tables and changes. *)
Fixpoint callAll (calls : list (table * entityChange)) (cache : indexableCache)
    : indexableCache :=
  match calls with
  | [] => cache
  | (t, rc) :: rest => callAll rest (indexableProperties t rc cache).2
  end.

(** The members of the index between the two bounds of a query. *)
Definition inRange (d : Redis.db) (i : CompoundIndex) (rangeStart rangeEnd : string)
    : option (list string) :=
  match Redis.parseLex rangeStart, Redis.parseLex rangeEnd, Redis.asZSet d (RedisKey i) with
  | Some min, Some max, Some z => Some (List.filter (Redis.inLexRange min max) z)
  | _, _, _ => None
  end.

Definition exampleEncoder : Encoder := {| TextCompressThreshold := 0 |}.

(** [query.Equals] and [query.NewFilters]. *)
Definition Equals (property : string) (value : Value) : query.Filter :=
  {| query.Property := property; query.Operator := query.Eq; query.Values := [value] |}.

Definition NewFilters (l : list query.Filter) : query.Filters :=
  fold_left (fun m f => <[query.Property f := f]> m) l ∅.

Definition abcIndex : CompoundIndex :=
  {| indexName := "abc"; properties := ["A"; "B"; "C"]; indexTable := "test.Items" |}.

Definition nameIndex : CompoundIndex :=
  {| indexName := "name"; properties := ["name"]; indexTable := "test.Users" |}.

(** A table with a random primary and a secondary index on [name]. *)
Definition usersTable : table :=
  {| tableName := "test.Users"; indexes := [nameIndex]; primary := randomPrimary |}.

Definition fullName : compoundPrimaryIndex :=
  {| primaryProperties := ["name"; "surname"]; hashed := false |}.

(** A table with a compound primary on [name, surname] and a secondary
    index on [email]. *)
Definition peopleTable : table :=
  {| tableName := "test.People";
     indexes := [{| indexName := "email"; properties := ["email"];
                    indexTable := "test.People" |}];
     primary := compoundPrimary fullName |}.

Definition user (id name : string) : Entity :=
  {| Id := id; Properties := {[ "name" := VText name ]}; TTL := 0 |}.

Definition johnDoe : Entity :=
  {| Id := "";
     Properties := <["name" := VText "john"]> (<["surname" := VText "doe"]>
                     (<["email" := VText "john@doe.org"]> ∅));
     TTL := 0 |}.

Definition janeNoSurname : Entity :=
  {| Id := ""; Properties := {[ "name" := VText "jane" ]}; TTL := 0 |}.

Definition emptyWorld : World :=
  {| store := Redis.empty; propCache := ∅;
     randomIds := fun n => "r" +:+ formatUint (Z.of_nat n); randomPos := 0 |}.

(** The world after three users named sam were put, with the ids [u1],
    [u2] and [u3] given by the client. *)
Definition threeSams : World :=
  (@Put asciiLibs exampleEncoder usersTable
     [user "u1" "sam"; user "u2" "sam"; user "u3" "sam"] emptyWorld).1.

(** The world after john doe was put. *)
Definition onePerson : World :=
  (@Put asciiLibs exampleEncoder peopleTable [johnDoe] emptyWorld).1.

Definition namedSam : query.Filters := NewFilters [Equals "name" (VText "sam")].

Definition byNameDescending : query.Ordering :=
  {| query.By := "name"; query.Ascending := false |}.

(** Two changes of the same property in two tables: the second is given
    the indexable properties of the first. *)
Definition renameUser : entityChange :=
  newEntityChange usersTable "u1" changeUpdate [query.Set_ "name" (VText "samuel")].

Definition renamePerson : entityChange :=
  newEntityChange peopleTable "john|doe|" changeInsert [query.Set_ "name" (VText "jon")].

(** * Vocabulary of the further properties *)

(** A lower-case hexadecimal digit. *)
Definition isLowerHex (c : ascii) : bool :=
  isDigit c || ((97 <=? byteVal c) && (byteVal c <=? 102)).

(** No two adjacent white bytes. *)
Fixpoint noWhiteRun (s : string) : bool :=
  match s with
  | String a r =>
      match r with
      | String b _ => negb (isWhite a && isWhite b) && noWhiteRun r
      | EmptyString => true
      end
  | EmptyString => true
  end.

(** The bytes that are not white, in their order. *)
Fixpoint nonWhite (s : string) : string :=
  match s with
  | String a r => if isWhite a then nonWhite r else String a (nonWhite r)
  | EmptyString => EmptyString
  end.

(** The first [n] bytes. *)
Fixpoint strTake (n : nat) (s : string) : string :=
  match n, s with
  | S k, String a r => String a (strTake k r)
  | _, _ => EmptyString
  end.

(** Two colons side by side somewhere in the string. *)
Fixpoint hasSep (s : string) : bool :=
  match s with
  | String c r =>
      match r with
      | String c' _ =>
          (bool_decide (c = ":"%char) && bool_decide (c' = ":"%char)) || hasSep r
      | EmptyString => false
      end
  | EmptyString => false
  end.

(** The number of combinations of one value per column. *)
Definition combinations (filters : query.Filters) (props : list string) : nat :=
  fold_right
    (fun p acc =>
       (match filters !! p with
        | Some flt => length (query.Values flt)
        | None => 0
        end * acc)%nat)
    1%nat props.

(** A change set with one change, of one operation the driver does not
    carry out. *)
Definition unsupportedChange : entityChange :=
  newEntityChange usersTable "u1" changeUpdate
    [{| query.ChangeProperty := "tags"; query.ChangeValue := VText "x";
        query.Op := query.OpSetAdd |}].

(** [pre] is the beginning of [s]. *)
Fixpoint startsWith (pre s : string) : bool :=
  match pre, s with
  | EmptyString, _ => true
  | String a p, String b r => bool_decide (a = b) && startsWith p r
  | String _ _, EmptyString => false
  end.

(** What is left of a string after its first [n] bytes. *)
Fixpoint strDrop (n : nat) (s : string) : string :=
  match n, s with
  | S k, String _ r => strDrop k r
  | _, _ => s
  end.

(** The string starts with the byte [0xff]. *)
Definition headIs255 (s : string) : bool :=
  match s with
  | String c _ => byteVal c =? 255
  | EmptyString => false
  end.

(** The member starts with [pre], and what follows does not start with
    the byte [0xff]. *)
Definition inPrefixRange (pre m : string) : bool :=
  startsWith pre m && negb (headIs255 (strDrop (String.length pre) m)).

Section QueryVocabulary.
Context `{ExternalLibs}.

(** The text of the values of the equality filters on the leading
    columns of an index, each followed by the separator. *)
Fixpoint filterPrefix (enc : Encoder) (filters : query.Filters) (props : list string)
    : string :=
  match props with
  | [] => ""
  | p :: ps =>
      match filters !! p with
      | None => ""
      | Some f =>
          match query.Values f with
          | [] => ""
          | v :: _ =>
              match prepareValue enc v with
              | Ok pv => sprintV pv +:+ "|" +:+ filterPrefix enc filters ps
              | _ => ""
              end
          end
      end
  end.

(** The filter is an equality with a value that can be prepared. *)
Definition isEquality (enc : Encoder) (f : query.Filter) : Prop :=
  query.Operator f = query.Eq
  /\ exists v rest pv, query.Values f = v :: rest /\ prepareValue enc v = Ok pv.

(** The filter is an equality with a value other than [nil], the value
    that [vals] has for the column. *)
Definition equalsColumn (enc : Encoder) (vals : gmap string PValue) (p : string)
    (f : query.Filter) : Prop :=
  query.Operator f = query.Eq
  /\ exists v rest pv, query.Values f = v :: rest /\ prepareValue enc v = Ok pv
                       /\ pv <> PNil /\ vals !! p = Some pv.

End QueryVocabulary.

Section LoadVocabulary.
Context `{ExternalLibs}.

(** The value the stored bytes decode to, if they do. *)
Definition decoded (data : string) : option Value :=
  match Decode data with
  | Ok v => Some v
  | _ => None
  end.

(** The entity of the row stored at an id: its decodable fields, but for
    the field [id]. *)
Definition rowEntity (t : table) (d : Redis.db) (id : string) : option Entity :=
  match Redis.keys d !! idKey t id with
  | Some (Redis.RHash h) =>
      if bool_decide (h = ∅) then None
      else Some {| Id := id; Properties := omap decoded (delete IdKey h); TTL := 0 |}
  | _ => None
  end.

End LoadVocabulary.

(** A store with one row, of one field. *)
Definition oneRow : Redis.db :=
  Redis.putHash Redis.empty "test.Users:u1" {[ "age" := "33" ]}.

Section RowVocabulary.
Context `{ExternalLibs}.

(** The bytes a value is stored as, if it can be encoded. *)
Definition encoded (enc : Encoder) (v : Value) : option string :=
  match Encode enc v with
  | Ok s => Some s
  | _ => None
  end.

(** What a value reads back as, if it does. *)
Definition readsBack (enc : Encoder) (v : Value) : option Value :=
  match decodeEncoded enc v with
  | Ok v' => Some v'
  | _ => None
  end.

(** The pair [Put] stores for a property, or the failure to encode it. *)
Definition storedPair (enc : Encoder) (kv : string * Value) : result (string * string) :=
  match Encode enc kv.2 with
  | Ok s => Ok (kv.1, s)
  | Err _ => Err "Could not encode changeset"
  | Panic => Panic
  end.

End RowVocabulary.

(** The keys of the indexes of a table. *)
Definition indexKeys (t : table) : list string :=
  primaryRedisKey t :: (RedisKey <$> indexes t).

(** A command on a sorted set, at one of the keys. *)
Definition isIndexCommand (ks : list string) (c : redisCommand) : Prop :=
  (command c = "ZADD" \/ command c = "ZREM")
  /\ exists k rest, args c = k :: rest /\ k ∈ ks.


(** A store whose one row has a field [name] that does not decode. *)
Definition brokenRow : World :=
  {| store := Redis.putHash Redis.empty "test.Users:u1" {[ "name" := "garbage" ]};
     propCache := ∅; randomIds := randomIds emptyWorld; randomPos := 0 |}.

(** * Properties *)

Lemma bindR_ok {A B : Type} (a : A) (k : A -> result B) : (x ← Ok a; k x) = k a.
Proof. reflexivity. Qed.

(** ** The model on the values of the repository's tests *)

(** The table of [TestNumberConvert]: numbers are written untagged. *)
Example number_tests (L : ExternalLibs) (c : Encoder) :
  Encode c (VInt 100) = Ok "100"
  /\ Encode c (VInt 0) = Ok "0"
  /\ Encode c (VInt (-100)) = Ok "-100"
  /\ Encode c (VUint 9223372036854775808) = Ok "9223372036854775808"
  /\ Encode c (VFloat 0x3F847AE147AE147B) = Ok "0.010000"
  /\ Encode c (VFloat 0xBF50624DD2F1A9FC) = Ok "-0.001000"
  /\ decodeEncoded c (VInt (-100)) = Ok (VInt (-100))
  /\ decodeEncoded c (VUint 9223372036854775808) = Ok (VUint 9223372036854775808).
Proof. repeat split; vm_compute; reflexivity. Qed.

(** The ids of [TestPrimary], plain and hashed. *)
Example primary_test_ids :
  let ent n s :=
    {| Id := ""; Properties := <["name" := VText n]> (<["surname" := VText s]> ∅);
       TTL := 0 |} in
  let p h := {| primaryProperties := ["name"; "surname"]; hashed := h |} in
  let id h n s := @GenerateId asciiLibs exampleEncoder (p h) (ent n s) in
  id false "john" "doe" = Ok "john|doe|"
  /\ id false "jack" "black" = Ok "jack|black|"
  /\ id true "john" "doe" = Ok "8686e4d649bdf8b8"
  /\ id true "jack" "black" = Ok "3e0e8cd37d0e5813".
Proof. repeat split; vm_compute; reflexivity. Qed.

Example integer_index_key : hexEncode (bigEndian 8 258) = "0000000000000102".
Proof. vm_compute. reflexivity. Qed.

Example integer_text :
  ParseInt "-100" = Some (-100) /\ ParseInt "9223372036854775808" = None
  /\ ParseUint "9223372036854775808" = Some 9223372036854775808.
Proof. repeat split; vm_compute; reflexivity. Qed.

(** ** Bytes and decimal text *)

Lemma byteVal_byteOf (z : Z) : 0 <= z < 256 -> byteVal (byteOf z) = z.
Proof.
  intros Hz. unfold byteVal, byteOf.
  rewrite Z.mod_small by lia.
  rewrite N_ascii_embedding.
  - apply Z2N.id. lia.
  - change 256%N with (Z.to_N 256). apply Z2N.inj_lt; lia.
Qed.

Lemma byteVal_range (c : ascii) : 0 <= byteVal c < 256.
Proof.
  unfold byteVal. pose proof (N_ascii_bounded c) as Hb. lia.
Qed.

Lemma byteVal_inj (a b : ascii) : byteVal a = byteVal b -> a = b.
Proof.
  unfold byteVal. intros Heq. apply N2Z.inj in Heq.
  rewrite <- (ascii_N_embedding a), <- (ascii_N_embedding b). now rewrite Heq.
Qed.

Lemma digitChar_val (d : Z) : 0 <= d < 10 -> byteVal (digitChar d) = 48 + d.
Proof. intros Hd. unfold digitChar. apply byteVal_byteOf. lia. Qed.

Lemma isDigit_digitChar (d : Z) : 0 <= d < 10 -> isDigit (digitChar d) = true.
Proof.
  intros Hd. unfold isDigit. rewrite digitChar_val by lia.
  apply andb_true_iff. split; apply Z.leb_le; lia.
Qed.

Lemma append_nil (s : string) : "" +:+ s = s.
Proof. reflexivity. Qed.

Lemma append_cons (c : ascii) (a b : string) : String c a +:+ b = String c (a +:+ b).
Proof. reflexivity. Qed.

Lemma strAll_app (p : ascii -> bool) (a b : string) :
  strAll p (a +:+ b) = strAll p a && strAll p b.
Proof.
  induction a as [|c a IH]; simpl; [reflexivity|].
  rewrite IH. now rewrite andb_assoc.
Qed.

Lemma parseDigits_app (a b : string) (acc : Z) :
  parseDigits (a +:+ b) acc =
  match parseDigits a acc with
  | Some n => parseDigits b n
  | None => None
  end.
Proof.
  revert acc. induction a as [|c a IH]; intros acc; simpl; [reflexivity|].
  destruct (isDigit c); [apply IH | reflexivity].
Qed.

(** The digits [decimalAcc] puts in front of [acc] read back as [n]. *)
Lemma decimalAcc_parse (fuel : nat) :
  forall n rest, fuel <> O -> 0 <= n < 2 ^ Z.of_nat fuel ->
  exists k : Z, 0 < k /\
    forall a, parseDigits (decimalAcc fuel n rest) a = parseDigits rest (a * 10 ^ k + n).
Proof.
  induction fuel as [|f IH]; intros n rest Hf Hn; [congruence|].
  cbn [decimalAcc]. destruct (Z.ltb_spec n 10) as [Hlt|Hge].
  - exists 1. split; [lia|]. intros a. cbn [parseDigits].
    rewrite Z.mod_small by lia.
    rewrite isDigit_digitChar, digitChar_val by lia.
    f_equal. lia.
  - assert (Hq : 1 <= n / 10) by (apply Z.div_le_lower_bound; lia).
    assert (Hq2 : n / 10 < 2 ^ Z.of_nat f).
    { rewrite Nat2Z.inj_succ, Z.pow_succ_r in Hn by lia.
      apply Z.div_lt_upper_bound; lia. }
    assert (Hf0 : f <> O).
    { intros ->. simpl in Hq2. lia. }
    destruct (IH (n / 10) (String (digitChar (n mod 10)) rest) Hf0 ltac:(lia))
      as (k & Hk & Hparse).
    exists (k + 1). split; [lia|]. intros a. rewrite Hparse. cbn [parseDigits].
    pose proof (Z.mod_pos_bound n 10 ltac:(lia)) as Hm.
    rewrite isDigit_digitChar, digitChar_val by lia.
    f_equal. rewrite Z.pow_add_r by lia.
    pose proof (Z.div_mod n 10 ltac:(lia)) as Hdm. lia.
Qed.

Lemma decimalAcc_digits (fuel : nat) :
  forall n rest, 0 <= n -> strAll isDigit rest = true ->
  strAll isDigit (decimalAcc fuel n rest) = true.
Proof.
  induction fuel as [|f IH]; intros n rest Hn Hrest; [exact Hrest|].
  cbn [decimalAcc].
  pose proof (Z.mod_pos_bound n 10 ltac:(lia)) as Hm.
  destruct (n <? 10).
  - cbn [strAll]. now rewrite isDigit_digitChar, Hrest by lia.
  - apply IH.
    + apply Z.div_pos; lia.
    + cbn [strAll]. now rewrite isDigit_digitChar, Hrest by lia.
Qed.

(** The first digit is not a zero, unless the number is. *)
Lemma decimalAcc_head (fuel : nat) :
  forall n rest, fuel <> O -> 0 <= n < 2 ^ Z.of_nat fuel ->
  exists d r, decimalAcc fuel n rest = String (digitChar d) r /\
              0 <= d < 10 /\ (0 < n -> 0 < d).
Proof.
  induction fuel as [|f IH]; intros n rest Hf Hn; [congruence|].
  cbn [decimalAcc]. destruct (Z.ltb_spec n 10) as [Hlt|Hge].
  - exists n, rest. rewrite Z.mod_small by lia. repeat split; lia.
  - assert (Hq : 1 <= n / 10) by (apply Z.div_le_lower_bound; lia).
    assert (Hq2 : n / 10 < 2 ^ Z.of_nat f).
    { rewrite Nat2Z.inj_succ, Z.pow_succ_r in Hn by lia.
      apply Z.div_lt_upper_bound; lia. }
    assert (Hf0 : f <> O).
    { intros ->. simpl in Hq2. lia. }
    destruct (IH (n / 10) (String (digitChar (n mod 10)) rest) Hf0 ltac:(lia))
      as (d & r & Heq & Hd & Hpos).
    exists d, r. split; [exact Heq|]. split; [lia|]. intros _. apply Hpos. lia.
Qed.

Lemma formatUint_fuel (n : Z) :
  0 <= n -> n < 2 ^ Z.of_nat (S (Z.to_nat (Z.log2 n))).
Proof.
  intros Hn. rewrite Nat2Z.inj_succ, Z2Nat.id by apply Z.log2_nonneg.
  destruct (Z.eq_dec n 0) as [->|Hne]; [reflexivity|].
  apply Z.log2_spec. lia.
Qed.

Lemma formatUint_parse (n : Z) : 0 <= n -> parseDigits (formatUint n) 0 = Some n.
Proof.
  intros Hn. unfold formatUint.
  destruct (decimalAcc_parse (S (Z.to_nat (Z.log2 n))) n "" ltac:(congruence))
    as (k & _ & Hparse).
  - split; [lia | now apply formatUint_fuel].
  - rewrite Hparse. reflexivity.
Qed.

Lemma formatUint_digits (n : Z) : 0 <= n -> strAll isDigit (formatUint n) = true.
Proof. intros Hn. now apply decimalAcc_digits. Qed.

Lemma formatUint_head (n : Z) :
  0 <= n ->
  exists d r, formatUint n = String (digitChar d) r /\ 0 <= d < 10 /\ (0 < n -> 0 < d).
Proof.
  intros Hn. apply decimalAcc_head; [congruence|].
  split; [lia | now apply formatUint_fuel].
Qed.

Lemma digitChar_not_sign (d : Z) :
  0 <= d < 10 -> digitChar d <> "-"%char /\ digitChar d <> "+"%char.
Proof.
  intros Hd. split; intros Heq; apply (f_equal byteVal) in Heq;
    rewrite digitChar_val in Heq by lia.
  - change (byteVal "-") with 45 in Heq. lia.
  - change (byteVal "+") with 43 in Heq. lia.
Qed.

Lemma ParseUint_formatUint (n : Z) :
  0 <= n < 2 ^ 64 -> ParseUint (formatUint n) = Some n.
Proof.
  intros Hn. destruct (formatUint_head n ltac:(lia)) as (d & r & Heq & _ & _).
  unfold ParseUint. rewrite Heq, <- Heq, formatUint_parse by lia.
  destruct (Z.ltb_spec n (2 ^ 64)); [reflexivity | lia].
Qed.

Lemma ParseUint_formatUint_big (n : Z) :
  2 ^ 64 <= n -> ParseUint (formatUint n) = None.
Proof.
  intros Hn. destruct (formatUint_head n ltac:(lia)) as (d & r & Heq & _ & _).
  unfold ParseUint. rewrite Heq, <- Heq, formatUint_parse by lia.
  destruct (Z.ltb_spec n (2 ^ 64)); [lia | reflexivity].
Qed.

Lemma ParseInt_formatUint (n : Z) :
  0 <= n ->
  ParseInt (formatUint n) = if n <? 2 ^ 63 then Some n else None.
Proof.
  intros Hn. destruct (formatUint_head n ltac:(lia)) as (d & r & Heq & Hd & _).
  destruct (digitChar_not_sign d Hd) as [Hm Hp].
  unfold ParseInt. rewrite Heq.
  rewrite (bool_decide_eq_false_2 _ Hm), (bool_decide_eq_false_2 _ Hp).
  cbn [orb]. rewrite <- Heq.
  destruct (Z.ltb_spec n (2 ^ 64)) as [Hlt|Hge].
  - rewrite ParseUint_formatUint by lia. reflexivity.
  - rewrite ParseUint_formatUint_big by lia.
    destruct (Z.ltb_spec n (2 ^ 63)); [lia | reflexivity].
Qed.

Lemma ParseInt_minus (r : string) :
  ParseInt (String "-" r) =
  match ParseUint r with
  | None => None
  | Some un => if un <=? 2 ^ 63 then Some (- un) else None
  end.
Proof. reflexivity. Qed.

Lemma ParseInt_formatInt (i : Z) :
  - 2 ^ 63 <= i < 2 ^ 63 -> ParseInt (formatInt i) = Some i.
Proof.
  intros Hi. unfold formatInt. destruct (Z.ltb_spec i 0) as [Hneg|Hpos].
  - rewrite ParseInt_minus, ParseUint_formatUint by lia.
    destruct (Z.leb_spec (- i) (2 ^ 63)); [f_equal; lia | lia].
  - rewrite ParseInt_formatUint by lia.
    destruct (Z.ltb_spec i (2 ^ 63)); [reflexivity | lia].
Qed.

Lemma parseDigits_digits (s : string) :
  forall acc, strAll isDigit s = true -> exists n, parseDigits s acc = Some n.
Proof.
  induction s as [|c s IH]; intros acc Hs; cbn [parseDigits].
  - now exists acc.
  - cbn [strAll] in Hs. apply andb_true_iff in Hs as [Hc Hs].
    rewrite Hc. now apply IH.
Qed.

Lemma ParseUint_None (s : string) : parseDigits s 0 = None -> ParseUint s = None.
Proof. intros Hp. unfold ParseUint. rewrite Hp. now destruct s. Qed.

(** Digits followed by a byte that is not a digit do not parse. *)
Lemma parseDigits_stop (a : string) (c : ascii) (b : string) (acc : Z) :
  strAll isDigit a = true -> isDigit c = false ->
  parseDigits (a +:+ String c b) acc = None.
Proof.
  intros Ha Hc. rewrite parseDigits_app.
  destruct (parseDigits_digits a acc Ha) as [n ->].
  cbn [parseDigits]. now rewrite Hc.
Qed.

(** ** The text of a float *)

Lemma pow2_1074_pos : 0 < pow2_1074.
Proof. reflexivity. Qed.

Lemma floatMag_nonneg (b : Z) : 0 <= floatMag b.
Proof.
  unfold floatMag, floatFrac, floatExp.
  pose proof (Z.mod_pos_bound b (2 ^ 52) ltac:(lia)) as Hf.
  destruct (_ =? 0); [lia|].
  apply Z.mul_nonneg_nonneg; [lia|]. apply Z.pow_nonneg. lia.
Qed.

Lemma roundHalfEven_nonneg (num den : Z) :
  0 <= num -> 0 < den -> 0 <= roundHalfEven num den.
Proof.
  intros Hn Hd. unfold roundHalfEven.
  assert (0 <= num / den) by (apply Z.div_pos; lia).
  repeat match goal with |- context [if ?c then _ else _] => destruct c end; lia.
Qed.

Lemma pad6_digits (n : Z) : strAll isDigit (pad6 n) = true /\ String.length (pad6 n) = 6%nat.
Proof.
  split; [|reflexivity]. unfold pad6. cbn [strAll].
  repeat match goal with
         | |- context [isDigit (digitChar (?x mod 10))] =>
             rewrite (isDigit_digitChar (x mod 10))
               by (apply Z.mod_pos_bound; lia)
         end.
  reflexivity.
Qed.

Lemma afterDigits_stop (a : string) (c : ascii) (b : string) :
  strAll isDigit a = true -> isDigit c = false ->
  afterDigits (a +:+ String c b) = String c b.
Proof.
  intros Ha Hc. induction a as [|x a IH].
  - rewrite append_nil. cbn [afterDigits]. now rewrite Hc.
  - cbn [strAll] in Ha. apply andb_true_iff in Ha as [Hx Ha].
    rewrite append_cons. cbn [afterDigits]. rewrite Hx. now apply IH.
Qed.

Lemma floatMicros_nonneg (b : Z) : 0 <= floatMicros b.
Proof.
  apply roundHalfEven_nonneg; [|exact pow2_1074_pos].
  pose proof (floatMag_nonneg b). lia.
Qed.

Lemma formatFloat_finite (b : Z) :
  floatIsNaN b = false -> floatIsInf b = false ->
  formatFloat b =
  (if floatSign b then "-" else "")
    +:+ formatUint (floatMicros b / 1000000) +:+ "." +:+ pad6 (floatMicros b mod 1000000).
Proof. intros Hn Hi. unfold formatFloat. now rewrite Hn, Hi. Qed.

Lemma formatFloat_cases (b : Z) :
  (floatIsNaN b = true /\ formatFloat b = "NaN") \/
  (floatIsNaN b = false /\ floatIsInf b = true /\
   formatFloat b = if floatSign b then "-Inf" else "+Inf") \/
  (floatIsNaN b = false /\ floatIsInf b = false /\
   exists d r, 0 <= d < 10 /\
     formatUint (floatMicros b / 1000000) = String (digitChar d) r /\
     strAll isDigit (String (digitChar d) r) = true /\
     formatFloat b =
       (if floatSign b then "-" else "")
         +:+ String (digitChar d) r +:+ "." +:+ pad6 (floatMicros b mod 1000000)).
Proof.
  destruct (floatIsNaN b) eqn:Hn.
  { left. split; [reflexivity|]. unfold formatFloat. now rewrite Hn. }
  destruct (floatIsInf b) eqn:Hi.
  { right. left. repeat split. unfold formatFloat. now rewrite Hn, Hi. }
  right. right. repeat split.
  assert (Hq : 0 <= floatMicros b / 1000000).
  { apply Z.div_pos; [apply floatMicros_nonneg | lia]. }
  destruct (formatUint_head _ Hq) as (d & r & Heq & Hd & _).
  exists d, r. split; [exact Hd|]. split; [exact Heq|]. split.
  - rewrite <- Heq. now apply formatUint_digits.
  - rewrite <- Heq. now apply formatFloat_finite.
Qed.

Lemma isDigit_point : isDigit "." = false.
Proof. reflexivity. Qed.

Lemma isDigit_not_minus (c : ascii) : isDigit c = true -> c <> "-"%char.
Proof. intros Hc ->. discriminate Hc. Qed.

(** The text of a float is never the text of an integer. *)
Lemma formatFloat_not_integer (b : Z) :
  ParseInt (formatFloat b) = None /\ ParseUint (formatFloat b) = None.
Proof.
  destruct (formatFloat_cases b) as [[_ ->] | [(_ & _ & ->) | (_ & _ & d & r & Hd & _ & Hdig & ->)]].
  - split; reflexivity.
  - destruct (floatSign b); split; reflexivity.
  - assert (Hbody : forall acc,
              parseDigits (String (digitChar d) r +:+ "." +:+ pad6 (floatMicros b mod 1000000)) acc
              = None).
    { intros acc. apply parseDigits_stop; [exact Hdig | reflexivity]. }
    destruct (floatSign b).
    + split.
      * rewrite append_cons, append_nil, ParseInt_minus.
        now rewrite ParseUint_None by apply Hbody.
      * reflexivity.
    + rewrite append_nil. split.
      * destruct (digitChar_not_sign d Hd) as [Hm Hp].
        unfold ParseInt. rewrite append_cons.
        rewrite (bool_decide_eq_false_2 _ Hm), (bool_decide_eq_false_2 _ Hp).
        cbn [orb]. rewrite <- append_cons.
        now rewrite ParseUint_None by apply Hbody.
      * apply ParseUint_None, Hbody.
Qed.

Lemma formatFloat_fixed (b : Z) :
  isFixed6 (formatFloat b) = negb (floatIsNaN b || floatIsInf b).
Proof.
  destruct (formatFloat_cases b)
    as [[Hn ->] | [(Hn & Hi & ->) | (Hn & Hi & d & r & Hd & _ & Hdig & ->)]];
    rewrite Hn, ?Hi.
  - reflexivity.
  - now destruct (floatSign b).
  - cbn [orb negb].
    pose proof (isDigit_digitChar d Hd) as Hc.
    destruct (pad6_digits (floatMicros b mod 1000000)) as [Hp6 Hl6].
    assert (Hbody : isFixed6 (String (digitChar d) r +:+ "." +:+ pad6 (floatMicros b mod 1000000))
                    = true).
    { unfold isFixed6. rewrite append_cons.
      rewrite (bool_decide_eq_false_2 _ (isDigit_not_minus _ Hc)).
      rewrite Hc. cbn [andb]. rewrite <- append_cons.
      change ("." +:+ ?x) with (String "." x).
      rewrite afterDigits_stop by (exact Hdig || reflexivity).
      rewrite bool_decide_eq_true_2 by reflexivity.
      rewrite Hl6, Hp6. reflexivity. }
    destruct (floatSign b).
    + rewrite append_cons, append_nil.
      unfold isFixed6 at 1. rewrite bool_decide_eq_true_2 by reflexivity.
      unfold isFixed6 in Hbody. rewrite append_cons in Hbody |- *.
      rewrite (bool_decide_eq_false_2 _ (isDigit_not_minus _ Hc)) in Hbody.
      exact Hbody.
    + rewrite append_nil. exact Hbody.
Qed.

(** ** The codec *)

Section CodecProperties.
Context `{ExternalLibs}.

(** A leading digit or minus sign sends [Decode] to [decodeNumber]. *)
Lemma Decode_number (c : ascii) (r : string) :
  isDigit c || bool_decide (c = "-"%char) = true ->
  Decode (String c r) = decodeNumber (String c r).
Proof.
  intros Hc. unfold Decode.
  repeat match goal with
         | |- context [bool_decide (c = ?p)] =>
             rewrite (bool_decide_eq_false_2 (c = p))
               by (intros Hp; rewrite Hp in Hc; vm_compute in Hc; discriminate Hc)
         end.
  now rewrite Hc.
Qed.

Lemma Decode_formatUint (n : Z) :
  0 <= n -> Decode (formatUint n) = decodeNumber (formatUint n).
Proof.
  intros Hn. destruct (formatUint_head n Hn) as (d & r & -> & Hd & _).
  apply Decode_number. now rewrite isDigit_digitChar.
Qed.

Lemma Decode_formatInt (i : Z) : Decode (formatInt i) = decodeNumber (formatInt i).
Proof.
  unfold formatInt. destruct (Z.ltb_spec i 0).
  - apply Decode_number. reflexivity.
  - now apply Decode_formatUint.
Qed.

Lemma decodeEncoded_Int (c : Encoder) (i : Z) :
  - 2 ^ 63 <= i < 2 ^ 63 -> decodeEncoded c (VInt i) = Ok (VInt i).
Proof.
  intros Hi. unfold decodeEncoded. cbn. unfold encodeInt.
  rewrite Decode_formatInt. unfold decodeNumber.
  now rewrite ParseInt_formatInt.
Qed.

(** An unsigned number is written like a signed one, so it reads back
    signed whenever it fits. *)
Lemma decodeEncoded_Uint (c : Encoder) (u : Z) :
  0 <= u < 2 ^ 64 ->
  decodeEncoded c (VUint u) = Ok (if u <? 2 ^ 63 then VInt u else VUint u).
Proof.
  intros Hu. unfold decodeEncoded. cbn. unfold encodeUint, formatInt.
  destruct (Z.ltb_spec u 0); [lia|].
  rewrite Decode_formatUint by lia. unfold decodeNumber.
  rewrite ParseInt_formatUint by lia.
  destruct (u <? 2 ^ 63); [reflexivity|].
  now rewrite ParseUint_formatUint.
Qed.

Lemma decodeEncoded_Bool (c : Encoder) (b : bool) :
  decodeEncoded c (VBool b) = Ok (VBool b).
Proof. now destruct b. Qed.

Lemma decodeEncoded_Binary (c : Encoder) (b : string) :
  decodeEncoded c (VBinary b) = Ok (VBinary b).
Proof. reflexivity. Qed.

Lemma decodeEncoded_Text (c : Encoder) (s : string) :
  (0 <? TextCompressThreshold c) && (TextCompressThreshold c <=? strLen s) = false
  \/ snappyDecode (snappyEncode s) = Some s ->
  decodeEncoded c (VText s) = Ok (VText s).
Proof.
  intros Hs. unfold decodeEncoded. cbn. unfold encodeText.
  destruct ((0 <? TextCompressThreshold c) && (TextCompressThreshold c <=? strLen s)).
  - destruct Hs as [Hs|Hs]; [discriminate|].
    unfold encodeCompressedText.
    change (Decode (String CompressedTextPrefixSnappy (snappyEncode s)))
      with (decodeCompressedText (snappyEncode s)).
    unfold decodeCompressedText. now rewrite Hs.
  - reflexivity.
Qed.

Lemma decodeEncoded_Timestamp (c : Encoder) (sec nsec : Z) :
  - 2 ^ 63 <= sec < 2 ^ 63 -> ~ (sec = zeroTimeUnix /\ nsec = 0) ->
  decodeEncoded c (VTimestamp sec nsec) = Ok (VTimestamp sec 0).
Proof.
  intros Hs Hz. unfold decodeEncoded. cbn. unfold encodeTimestamp.
  destruct ((sec =? zeroTimeUnix) && (nsec =? 0)) eqn:Hzero.
  - apply andb_true_iff in Hzero as [H1 H2].
    apply Z.eqb_eq in H1, H2. tauto.
  - change (Decode (String TimestampPrefix (formatInt sec)))
      with (decodeTimestamp (formatInt sec)).
    unfold decodeTimestamp. now rewrite ParseInt_formatInt.
Qed.

(** A finite float is read back from its fixed-point text. *)
Lemma decodeEncoded_Float (c : Encoder) (f : Z) :
  floatIsNaN f = false -> floatIsInf f = false ->
  decodeEncoded c (VFloat f) =
  match ParseFloat (formatFloat f) with
  | Some g => Ok (VFloat g)
  | None => Err "Invalid number format"
  end.
Proof.
  intros Hn Hi. unfold decodeEncoded. cbn. unfold encodeFloat.
  destruct (formatFloat_not_integer f) as [HI HU].
  assert (Hd : Decode (formatFloat f) = decodeNumber (formatFloat f)).
  { destruct (formatFloat_cases f)
      as [[Hn' _] | [(_ & Hi' & _) | (_ & _ & d & r & Hd & _ & _ & ->)]];
      [congruence | congruence |].
    destruct (floatSign f).
    - rewrite append_cons, append_nil. apply Decode_number. reflexivity.
    - rewrite append_nil, append_cons. apply Decode_number.
      now rewrite isDigit_digitChar. }
  rewrite Hd. unfold decodeNumber. now rewrite HI, HU.
Qed.

(** What the repository adds to the BSON decoder: [NewList], [NewSet]
    and [Map.Set] give back the elements that [InternalType] makes of the
    decoded Go values. *)
Lemma InternalType_slice (l : list GoValue) :
  InternalType (GSlice l) = Ok (VList (NewList l)).
Proof.
  reflexivity.
Qed.

Lemma NewList_decodesTo (gs : list GoValue) (l : list Value) :
  decodesTo gs l -> NewList gs = l.
Proof.
  induction 1 as [|g v gs l Hg _ IH]; [reflexivity|].
  unfold NewList in *. cbn [fmap list_fmap]. rewrite Hg. f_equal. exact IH.
Qed.

Lemma setAdd_new (s : list Value) (v : Value) :
  (forall k, k ∈ s -> keyEq k v = false) -> setAdd s v = s ++ [v].
Proof.
  induction s as [|k s IH]; intros Hnew; [reflexivity|].
  cbn [setAdd app]. rewrite (Hnew k) by apply list_elem_of_here.
  f_equal. apply IH. intros k' Hk'. apply Hnew. now apply list_elem_of_further.
Qed.

Lemma NewSet_from (gs : list GoValue) (l : list Value) :
  decodesTo gs l -> forallb hashable l = true -> distinctKeys l = true ->
  forall s,
    (forall k v, k ∈ s -> v ∈ l -> keyEq k v = false) ->
    fold_left
      (fun acc e =>
         s ← acc;
         match InternalType e with
         | Ok v => if hashable v then Ok (setAdd s v) else Panic
         | _ => Ok s
         end)
      gs (Ok s)
    = Ok (s ++ l).
Proof.
  induction 1 as [|g v gs l Hg _ IH]; intros Hhash Hdist s Hnew.
  - cbn. now rewrite app_nil_r.
  - cbn [forallb distinctKeys] in Hhash, Hdist.
    apply andb_true_iff in Hhash as [Hv Hhash].
    apply andb_true_iff in Hdist as [Hfresh Hdist].
    apply negb_true_iff in Hfresh.
    cbn [fold_left]. rewrite bindR_ok, Hg, Hv.
    rewrite setAdd_new
      by (intros k Hk; apply (Hnew k v Hk); apply list_elem_of_here).
    rewrite (IH Hhash Hdist).
    + now rewrite <- app_assoc.
    + intros k w Hk Hw. apply elem_of_app in Hk as [Hk|Hk].
      * apply (Hnew k w Hk). now apply list_elem_of_further.
      * apply list_elem_of_singleton in Hk as ->.
        destruct (keyEq v w) eqn:Hvw; [|reflexivity].
        rewrite <- Hfresh. symmetry. apply existsb_exists.
        exists w. split; [now apply list_elem_of_In | exact Hvw].
Qed.

Lemma NewSet_decodesTo (gs : list GoValue) (l : list Value) :
  decodesTo gs l -> forallb hashable l = true -> distinctKeys l = true ->
  NewSet gs = Ok l.
Proof.
  intros Hgs Hhash Hdist. unfold NewSet.
  rewrite (NewSet_from gs l Hgs Hhash Hdist []); [reflexivity|].
  intros k v Hk. now apply elem_of_nil in Hk.
Qed.

Lemma mapAssign_new (m : list (string * Value)) (k : string) (v : Value) :
  k ∉ m.*1 -> mapAssign m k v = m ++ [(k, v)].
Proof.
  induction m as [|[k' v'] m IH]; intros Hk; [reflexivity|].
  cbn [mapAssign app]. cbn [fmap list_fmap fst] in Hk.
  apply not_elem_of_cons in Hk as [Hne Hk].
  unfold strEq. rewrite bool_decide_eq_false_2 by congruence.
  f_equal. now apply IH.
Qed.

Lemma mapSet_from (gm : list (string * GoValue)) (m : list (string * Value)) :
  entriesDecodeTo gm m -> NoDup m.*1 ->
  forall acc,
    (forall k, k ∈ acc.*1 -> k ∉ m.*1) ->
    fold_left (fun m kv => mapSet m kv.1 kv.2) gm acc = acc ++ m.
Proof.
  induction 1 as [|[k g] [k' v] gm m [Hk Hg] _ IH]; intros Hnd acc Hnew.
  - cbn. now rewrite app_nil_r.
  - cbn [fst snd] in Hk, Hg. subst k'.
    cbn [fmap list_fmap fst] in Hnd, Hnew. apply NoDup_cons in Hnd as [Hfresh Hnd].
    cbn [fold_left fst snd]. unfold mapSet at 2. rewrite Hg.
    rewrite mapAssign_new.
    + rewrite (IH Hnd); [now rewrite <- app_assoc|].
      intros q Hq. rewrite fmap_app in Hq. apply elem_of_app in Hq as [Hq|Hq].
      * intros Hin. apply (Hnew q Hq). now apply list_elem_of_further.
      * cbn in Hq. apply list_elem_of_singleton in Hq as ->. exact Hfresh.
    + intros Hin. apply (Hnew k Hin). apply list_elem_of_here.
Qed.

Lemma decodeEncoded_Set (c : Encoder) (l : list Value) (b : string) (gs : list GoValue) :
  forallb hashable l = true -> distinctKeys l = true ->
  bsonMarshalArray l = Some b -> bsonDecodeArray b = Some gs -> decodesTo gs l ->
  decodeEncoded c (VSet l) = Ok (VSet l).
Proof.
  intros Hhash Hdist Hm Hd Hgs. unfold decodeEncoded. cbn [Encode]. unfold encodeSet.
  rewrite Hm. unfold mbind, result_bind, bindR.
  change (Decode (String SetPrefix b)) with (decodeSet b).
  unfold decodeSet. rewrite Hd, (NewSet_decodesTo gs l Hgs Hhash Hdist). reflexivity.
Qed.

Lemma decodeEncoded_List (c : Encoder) (l : list Value) (b : string) (gs : list GoValue) :
  bsonMarshalArray l = Some b -> bsonDecodeArray b = Some gs -> decodesTo gs l ->
  decodeEncoded c (VList l) = Ok (VList l).
Proof.
  intros Hm Hd Hgs. unfold decodeEncoded. cbn [Encode]. unfold encodeList. rewrite Hm.
  unfold mbind, result_bind, bindR.
  change (Decode (String ListPrefix b)) with (decodeList b).
  unfold decodeList. now rewrite Hd, (NewList_decodesTo gs l Hgs).
Qed.

Lemma decodeEncoded_Map (c : Encoder) (m : list (string * Value)) (b : string)
    (gm : list (string * GoValue)) :
  NoDup m.*1 ->
  bsonMarshalMap m = Some b -> bsonDecodeMap b = Some gm -> entriesDecodeTo gm m ->
  decodeEncoded c (VMap m) = Ok (VMap m).
Proof.
  intros Hnd Hm Hd Hgm. unfold decodeEncoded. cbn [Encode]. unfold encodeMap. rewrite Hm.
  unfold mbind, result_bind, bindR.
  change (Decode (String MapPrefix b)) with (decodeMap b).
  unfold decodeMap. rewrite Hd, (mapSet_from gm m Hgm Hnd []); [reflexivity|].
  intros k Hk. now apply elem_of_nil in Hk.
Qed.

End CodecProperties.




(** The set of [TestConvert] is stored in 39 bytes and read back. *)
Example convert_test_set :
  mapR String.length (@Encode bsonLibs exampleEncoder (VSet fooBarBaz)) = Ok 39%nat
  /\ @decodeEncoded bsonLibs exampleEncoder (VSet fooBarBaz) = Ok (VSet fooBarBaz).
Proof. split; vm_compute; reflexivity. Qed.


Lemma formatInt_starts (i : Z) : startsInteger (formatInt i) = true.
Proof.
  unfold formatInt. destruct (Z.ltb_spec i 0); [reflexivity|].
  destruct (formatUint_head i ltac:(lia)) as (d & r & -> & Hd & _).
  cbn [startsInteger]. now rewrite isDigit_digitChar.
Qed.

Lemma formatFloat_starts (f : Z) : startsNumber (formatFloat f) = true.
Proof.
  destruct (formatFloat_cases f)
    as [[_ ->] | [(_ & _ & ->) | (_ & _ & d & r & Hd & _ & _ & ->)]].
  - reflexivity.
  - now destruct (floatSign f).
  - destruct (floatSign f).
    + reflexivity.
    + rewrite append_nil, append_cons. cbn [startsNumber].
      now rewrite isDigit_digitChar.
Qed.

Lemma formatFloat_not_finite (f : Z) :
  (floatIsNaN f = true -> formatFloat f = "NaN")
  /\ (floatIsInf f = true -> formatFloat f = if floatSign f then "-Inf" else "+Inf").
Proof.
  unfold formatFloat. split; intros Hf.
  - now rewrite Hf.
  - rewrite Hf. unfold floatIsNaN, floatIsInf in *.
    apply andb_true_iff in Hf as [-> ->]. reflexivity.
Qed.



(** ** Order-preserving index keys *)

Lemma hexChar_val (d : Z) :
  0 <= d < 16 -> byteVal (hexChar d) = if d <? 10 then 48 + d else 87 + d.
Proof.
  intros Hd. rewrite <- (Z2Nat.id d) by lia.
  assert (Hn : (Z.to_nat d < 16)%nat) by lia.
  generalize dependent (Z.to_nat d). intros n Hn.
  do 16 (destruct n as [|n]; [reflexivity|]). lia.
Qed.

Lemma hexChar_lt (x y : Z) :
  0 <= x -> x < y -> y < 16 -> byteVal (hexChar x) < byteVal (hexChar y).
Proof.
  intros Hx Hxy Hy. rewrite !hexChar_val by lia.
  destruct (Z.ltb_spec x 10), (Z.ltb_spec y 10); lia.
Qed.

Lemma strLt_cons (x y : ascii) (s t : string) :
  strLt (String x s) (String y t) =
  (byteVal x <? byteVal y) || ((byteVal x =? byteVal y) && strLt s t).
Proof. reflexivity. Qed.

(** Two bytes in hexadecimal compare as the bytes do. *)
Lemma hexEncode_cons_lt (a b : Z) (r s : list Z) :
  0 <= a < 256 -> 0 <= b < 256 ->
  a < b \/ (a = b /\ strLt (hexEncode r) (hexEncode s) = true) ->
  strLt (hexEncode (a :: r)) (hexEncode (b :: s)) = true.
Proof.
  intros Ha Hb Hcmp. cbn [hexEncode].
  rewrite !Z.shiftr_div_pow2 by lia.
  change 15 with (Z.ones 4). rewrite !Z.land_ones by lia.
  change (2 ^ 4) with 16.
  pose proof (Z.div_mod a 16 ltac:(lia)) as Hda.
  pose proof (Z.div_mod b 16 ltac:(lia)) as Hdb.
  pose proof (Z.mod_pos_bound a 16 ltac:(lia)) as Hma.
  pose proof (Z.mod_pos_bound b 16 ltac:(lia)) as Hmb.
  assert (Hqa : 0 <= a / 16 < 16) by (split; [apply Z.div_pos | apply Z.div_lt_upper_bound]; lia).
  assert (Hqb : 0 <= b / 16 < 16) by (split; [apply Z.div_pos | apply Z.div_lt_upper_bound]; lia).
  rewrite !strLt_cons.
  destruct Hcmp as [Hlt | [-> Hrest]].
  - destruct (Z.lt_ge_cases (a / 16) (b / 16)) as [Hq|Hq].
    + apply orb_true_iff. left. apply Z.ltb_lt. apply hexChar_lt; lia.
    + assert (Heq : a / 16 = b / 16) by lia.
      rewrite Heq, Z.ltb_irrefl, Z.eqb_refl. cbn [orb andb].
      apply orb_true_iff. left. apply Z.ltb_lt. apply hexChar_lt; lia.
  - rewrite !Z.ltb_irrefl, !Z.eqb_refl. cbn [orb andb]. exact Hrest.
Qed.

Lemma pow256_pos (k : nat) : 0 < 256 ^ Z.of_nat k.
Proof. apply Z.pow_pos_nonneg; lia. Qed.

(** Big-endian hexadecimal text of equal width compares as the numbers. *)
Lemma hexEncode_bigEndian_lt (n : nat) :
  forall u v, u mod 256 ^ Z.of_nat n < v mod 256 ^ Z.of_nat n ->
  strLt (hexEncode (bigEndian n u)) (hexEncode (bigEndian n v)) = true.
Proof.
  induction n as [|k IH]; intros u v Huv.
  - rewrite !Z.mod_1_r in Huv. lia.
  - cbn [bigEndian].
    pose proof (pow256_pos k) as Hp.
    assert (Hshift : forall w, Z.shiftr w (8 * Z.of_nat k) = w / 256 ^ Z.of_nat k).
    { intros w. rewrite Z.shiftr_div_pow2 by lia.
      change 256 with (2 ^ 8). now rewrite <- Z.pow_mul_r by lia. }
    rewrite !Hshift.
    assert (Hsplit : forall w, w mod 256 ^ Z.of_nat (S k) =
                               w mod 256 ^ Z.of_nat k
                               + 256 ^ Z.of_nat k * ((w / 256 ^ Z.of_nat k) mod 256)).
    { intros w. rewrite Nat2Z.inj_succ, Z.pow_succ_r by lia.
      rewrite (Z.mul_comm 256). apply Z.rem_mul_r; lia. }
    rewrite (Hsplit u), (Hsplit v) in Huv.
    pose proof (Z.mod_pos_bound u (256 ^ Z.of_nat k) Hp) as Hu.
    pose proof (Z.mod_pos_bound v (256 ^ Z.of_nat k) Hp) as Hv.
    pose proof (Z.mod_pos_bound (u / 256 ^ Z.of_nat k) 256 ltac:(lia)) as Hau.
    pose proof (Z.mod_pos_bound (v / 256 ^ Z.of_nat k) 256 ltac:(lia)) as Hav.
    apply hexEncode_cons_lt; [lia | lia |].
    destruct (Z.lt_trichotomy ((u / 256 ^ Z.of_nat k) mod 256)
                              ((v / 256 ^ Z.of_nat k) mod 256)) as [Hlt | [Heq | Hgt]].
    + now left.
    + right. split; [exact Heq|]. apply IH. rewrite Heq in Huv. lia.
    + exfalso. nia.
Qed.

Lemma prepareUint_lt (u v : Z) :
  0 <= u -> u < v -> v < 2 ^ 64 -> strLt (prepareUint u) (prepareUint v) = true.
Proof.
  intros Hu Huv Hv. unfold prepareUint. apply hexEncode_bigEndian_lt.
  change (256 ^ Z.of_nat 8) with (2 ^ 64).
  rewrite !Z.mod_small by lia. exact Huv.
Qed.

(** The sign bit of a 64-bit pattern. *)
Lemma sign_bit (b : Z) :
  0 <= b < 2 ^ 64 -> Z.testbit b 63 = (2 ^ 63 <=? b).
Proof.
  intros Hb. destruct (Z.leb_spec (2 ^ 63) b) as [Hge|Hlt].
  - apply Z.testbit_true; [lia|].
    assert (Hq : b / 2 ^ 63 = 1).
    { symmetry. apply Z.div_unique with (r := b - 2 ^ 63); lia. }
    now rewrite Hq.
  - apply Z.testbit_false; [lia|].
    now rewrite Z.div_small by lia.
Qed.

Lemma land_sign_bit (b : Z) :
  0 <= b < 2 ^ 64 ->
  (Z.land b 0x8000000000000000 =? 0) = negb (Z.testbit b 63).
Proof.
  intros Hb. change 0x8000000000000000 with (2 ^ 63).
  destruct (Z.testbit b 63) eqn:Hbit; cbn [negb].
  - apply Z.eqb_neq. intros Hz.
    apply (f_equal (fun x => Z.testbit x 63)) in Hz.
    rewrite Z.land_spec, Hbit, Z.pow2_bits_true, Z.bits_0 in Hz by lia.
    discriminate.
  - apply Z.eqb_eq. apply Z.bits_inj'. intros n Hn.
    rewrite Z.land_spec, Z.bits_0, Z.pow2_bits_eqb by lia.
    destruct (Z.eqb_spec 63 n) as [<-|]; [now rewrite Hbit | apply andb_false_r].
Qed.

Section FloatKeys.
Context `{ExternalLibs}.

(** The image of a float: all bits inverted when the sign bit is set, the
    sign bit set when it is clear. *)
Lemma floatOrdered_spec (b : Z) :
  0 <= b < 2 ^ 64 ->
  floatOrdered b = if floatSign b then 2 ^ 64 - 1 - b else b + 2 ^ 63.
Proof.
  intros Hb. unfold floatOrdered, floatSign.
  rewrite land_sign_bit, negb_involutive by exact Hb.
  pose proof (sign_bit b Hb) as Hs. destruct (Z.testbit b 63) eqn:Hbit.
  - change 0xFFFFFFFFFFFFFFFF with (Z.ones 64).
    rewrite Z.land_ones by lia. unfold Z.lnot.
    symmetry. apply Z.mod_unique with (q := -1); lia.
  - symmetry in Hs. apply Z.leb_gt in Hs.
    change 0x8000000000000000 with (2 ^ 63).
    assert (Hdisj : Z.land b (2 ^ 63) = 0).
    { pose proof (land_sign_bit b Hb) as Hl. rewrite Hbit in Hl.
      now apply Z.eqb_eq in Hl. }
    rewrite <- Z.lxor_lor by exact Hdisj.
    symmetry. now apply Z.add_nocarry_lxor.
Qed.

End FloatKeys.

(** The exponent and fraction fields are the low 63 bits. *)
Lemma float_fields (b : Z) :
  b mod 2 ^ 63 = floatExp b * 2 ^ 52 + floatFrac b
  /\ 0 <= floatExp b < 2 ^ 11 /\ 0 <= floatFrac b < 2 ^ 52.
Proof.
  unfold floatExp, floatFrac. split.
  - change (2 ^ 63) with (2 ^ 52 * 2 ^ 11).
    rewrite Z.rem_mul_r by lia. lia.
  - split; apply Z.mod_pos_bound; lia.
Qed.

(** The magnitude grows with the low 63 bits. *)
Lemma floatMag_mono (a b : Z) :
  a mod 2 ^ 63 <= b mod 2 ^ 63 -> floatMag a <= floatMag b.
Proof.
  destruct (float_fields a) as (-> & Hea & Hfa).
  destruct (float_fields b) as (-> & Heb & Hfb).
  intros Hle. unfold floatMag.
  set (ea := floatExp a) in *. set (eb := floatExp b) in *.
  set (fa := floatFrac a) in *. set (fb := floatFrac b) in *.
  assert (Hcases : ea < eb \/ (ea = eb /\ fa <= fb)) by nia.
  destruct Hcases as [Hlt | [-> Hf]].
  - assert (Hpb : 1 <= 2 ^ (eb - 1)).
    { change 1 with (2 ^ 0). apply Z.pow_le_mono_r; lia. }
    destruct (Z.eqb_spec ea 0) as [Hz|Hnz]; destruct (Z.eqb_spec eb 0) as [Hz'|Hnz'];
      try lia.
    assert (Hpa : 0 < 2 ^ (ea - 1)) by (apply Z.pow_pos_nonneg; lia).
    assert (Hstep : 2 * 2 ^ (ea - 1) <= 2 ^ (eb - 1)).
    { rewrite <- Z.pow_succ_r by lia. apply Z.pow_le_mono_r; lia. }
    transitivity (2 ^ 52 * (2 * 2 ^ (ea - 1))).
    + replace (2 ^ 52 * (2 * 2 ^ (ea - 1))) with ((2 ^ 52 + 2 ^ 52) * 2 ^ (ea - 1)) by ring.
      apply Z.mul_le_mono_nonneg_r; lia.
    + transitivity (2 ^ 52 * 2 ^ (eb - 1)).
      * apply Z.mul_le_mono_nonneg_l; lia.
      * apply Z.mul_le_mono_nonneg_r; lia.
  - destruct (Z.eqb_spec eb 0); [lia|].
    assert (Hp : 0 <= 2 ^ (eb - 1)) by (apply Z.pow_nonneg; lia).
    apply Z.mul_le_mono_nonneg_r; lia.
Qed.

Lemma floatMag_lt_bits (a b : Z) :
  floatMag a < floatMag b -> a mod 2 ^ 63 < b mod 2 ^ 63.
Proof.
  intros Hlt. destruct (Z.lt_ge_cases (a mod 2 ^ 63) (b mod 2 ^ 63)) as [Hok|Hge];
    [exact Hok|].
  apply floatMag_mono in Hge. lia.
Qed.

Lemma low63 (b : Z) :
  0 <= b < 2 ^ 64 ->
  b mod 2 ^ 63 = if floatSign b then b - 2 ^ 63 else b.
Proof.
  intros Hb. unfold floatSign. rewrite sign_bit by exact Hb.
  destruct (Z.leb_spec (2 ^ 63) b).
  - symmetry. apply Z.mod_unique with (q := 1); lia.
  - apply Z.mod_small. lia.
Qed.

Section FloatOrder.
Context `{ExternalLibs}.

Lemma floatOrdered_lt (a b : Z) :
  0 <= a < 2 ^ 64 -> 0 <= b < 2 ^ 64 -> floatLt a b ->
  floatOrdered a < floatOrdered b.
Proof.
  intros Ha Hb Hlt. unfold floatLt, floatScaled in Hlt.
  rewrite !floatOrdered_spec by assumption.
  pose proof (low63 a Ha) as La. pose proof (low63 b Hb) as Lb.
  pose proof (floatMag_nonneg a) as Ma. pose proof (floatMag_nonneg b) as Mb.
  pose proof (sign_bit a Ha) as Sa. pose proof (sign_bit b Hb) as Sb.
  unfold floatSign in *.
  destruct (Z.testbit a 63), (Z.testbit b 63).
  - assert (Hm : floatMag b < floatMag a) by lia.
    apply floatMag_lt_bits in Hm. lia.
  - symmetry in Sa, Sb. apply Z.leb_le in Sa. apply Z.leb_gt in Sb. lia.
  - lia.
  - apply floatMag_lt_bits in Hlt. lia.
Qed.

Lemma floatOrdered_range (b : Z) :
  0 <= b < 2 ^ 64 -> 0 <= floatOrdered b < 2 ^ 64.
Proof.
  intros Hb. rewrite floatOrdered_spec by exact Hb.
  pose proof (sign_bit b Hb) as Hs. unfold floatSign.
  destruct (Z.testbit b 63); [lia|].
  symmetry in Hs. apply Z.leb_gt in Hs. lia.
Qed.

(** C2: the float index encoding is strictly order-preserving.  A float is
    prepared as the sixteen hexadecimal digits of its bit pattern with all
    bits inverted when the sign bit is set and only the sign bit inverted
    otherwise; and whenever [a < b] numerically (neither being NaN), the
    text of [a] is strictly below the text of [b] byte by byte. *)
Theorem float_index_order (enc : Encoder) (a b : Z) :
  0 <= a < 2 ^ 64 -> 0 <= b < 2 ^ 64 -> floatLess a b ->
  prepareValue enc (VFloat a)
    = Ok (PStr (hexEncode (bigEndian 8 (if floatSign a then 2 ^ 64 - 1 - a else a + 2 ^ 63))))
  /\ prepareValue enc (VFloat b)
    = Ok (PStr (hexEncode (bigEndian 8 (if floatSign b then 2 ^ 64 - 1 - b else b + 2 ^ 63))))
  /\ strLt (hexEncode (bigEndian 8 (if floatSign a then 2 ^ 64 - 1 - a else a + 2 ^ 63)))
           (hexEncode (bigEndian 8 (if floatSign b then 2 ^ 64 - 1 - b else b + 2 ^ 63)))
     = true.
Proof.
  intros Ha Hb (_ & _ & Hlt).
  pose proof (floatOrdered_lt a b Ha Hb Hlt) as Hord.
  cbn [prepareValue]. unfold prepareUint.
  rewrite <- !floatOrdered_spec by assumption.
  repeat split.
  apply prepareUint_lt; [| exact Hord |].
  - now apply floatOrdered_range.
  - now apply floatOrdered_range.
Qed.

End FloatOrder.

(** [-0.3 < 0.00005], as bit patterns. *)
Lemma float_index_order_witness :
  strLt (hexEncode (bigEndian 8 (2 ^ 64 - 1 - 0xBFD3333333333333)))
        (hexEncode (bigEndian 8 (0x3F0A36E2EB1C432D + 2 ^ 63))) = true.
Proof.
  apply (@float_index_order asciiLibs {| TextCompressThreshold := 0 |}
           0xBFD3333333333333 0x3F0A36E2EB1C432D); try lia.
  repeat split; vm_compute; reflexivity.
Defined.

(** ** Compound primary ids *)

Section PrimaryIdProperties.
Context `{ExternalLibs}.

Lemma Encode_no_panic (enc : Encoder) (v : Value) : Encode enc v <> Panic.
Proof.
  destruct v; cbn; try discriminate.
  - unfold encodeSet. now destruct (bsonMarshalArray elems).
  - unfold encodeList. now destruct (bsonMarshalArray elems).
  - unfold encodeMap. now destruct (bsonMarshalMap entries).
  - unfold encodeRawMap. now destruct (bsonMarshalRawMap raw).
Qed.

Lemma prepareValue_no_panic (enc : Encoder) (v : Value) : prepareValue enc v <> Panic.
Proof.
  destruct v; cbn [prepareValue]; try discriminate;
    destruct (Encode enc _) eqn:He; cbn; try discriminate;
    exfalso; eapply Encode_no_panic; exact He.
Qed.

Lemma generateKey_no_panic (enc : Encoder) (ent : Entity) (props : list string) :
  forall key, generateKey enc props ent key <> Panic.
Proof.
  induction props as [|p ps IH]; intros key; cbn [generateKey]; [discriminate|].
  destruct (Properties ent !! p) as [v|]; [|discriminate].
  pose proof (prepareValue_no_panic enc v) as Hv.
  destruct v; try discriminate;
    destruct (prepareValue enc _); cbn; try congruence; apply IH.
Qed.

(** The id depends on the values of the primary columns and on nothing
    else. *)
Lemma generateKey_columns (enc : Encoder) (ent ent' : Entity) (props : list string) :
  (forall p, p ∈ props -> Properties ent' !! p = Properties ent !! p) ->
  forall key, generateKey enc props ent' key = generateKey enc props ent key.
Proof.
  induction props as [|p ps IH]; intros Hsame key; cbn [generateKey]; [reflexivity|].
  rewrite (Hsame p) by apply list_elem_of_here.
  destruct (Properties ent !! p) as [v|]; [|reflexivity].
  assert (Hrest : forall k, generateKey enc ps ent' k = generateKey enc ps ent k).
  { apply IH. intros q Hq. apply Hsame. now apply list_elem_of_further. }
  destruct v; try reflexivity;
    destruct (prepareValue enc _); cbn; try reflexivity; apply Hrest.
Qed.

Lemma GenerateId_columns (enc : Encoder) (i : compoundPrimaryIndex) (ent ent' : Entity) :
  (forall p, p ∈ primaryProperties i -> Properties ent' !! p = Properties ent !! p) ->
  GenerateId enc i ent' = GenerateId enc i ent.
Proof.
  intros Hsame. unfold GenerateId. now rewrite (generateKey_columns enc ent ent').
Qed.


(** A primary column without a value stops the id. *)
Lemma generateKey_missing (enc : Encoder) (ent : Entity) (p : string) (props : list string) :
  p ∈ props ->
  Properties ent !! p = None \/ Properties ent !! p = Some VNil ->
  forall key, exists msg, generateKey enc props ent key = Err msg.
Proof.
  intros Hin Hmiss. induction props as [|q ps IH]; intros key.
  - now apply elem_of_nil in Hin.
  - cbn [generateKey]. apply elem_of_cons in Hin as [<-|Hin].
    + destruct Hmiss as [-> | ->]; eauto.
    + specialize (IH Hin).
      destruct (Properties ent !! q) as [v|]; [|eauto].
      pose proof (prepareValue_no_panic enc v) as Hv.
      destruct v; eauto;
        destruct (prepareValue enc _); cbn; eauto; congruence.
Qed.

Lemma GenerateId_missing (enc : Encoder) (i : compoundPrimaryIndex) (ent : Entity) (p : string) :
  p ∈ primaryProperties i ->
  Properties ent !! p = None \/ Properties ent !! p = Some VNil ->
  exists msg, GenerateId enc i ent = Err msg.
Proof.
  intros Hin Hmiss. unfold GenerateId.
  destruct (generateKey_missing enc ent p _ Hin Hmiss "") as [msg ->].
  now exists msg.
Qed.

Lemma GenerateId_no_panic (enc : Encoder) (i : compoundPrimaryIndex) (ent : Entity) :
  GenerateId enc i ent <> Panic.
Proof.
  unfold GenerateId. pose proof (generateKey_no_panic enc ent (primaryProperties i) "").
  destruct (generateKey _ _ _ _); cbn; congruence.
Qed.

(** ** [Put] on a compound primary *)

Lemma putLoop_missing (enc : Encoder) (t : table) (i : compoundPrimaryIndex)
    (entities : list Entity) :
  primary t = compoundPrimary i ->
  (exists ent p, ent ∈ entities /\ p ∈ primaryProperties i
                 /\ (Properties ent !! p = None \/ Properties ent !! p = Some VNil)) ->
  forall w ret cs, exists msg, putLoop enc t entities w ret cs = (w, Err msg).
Proof.
  intros Hprim. induction entities as [|e es IH]; intros (ent & p & Hin & Hp & Hmiss) w ret cs.
  - now apply elem_of_nil in Hin.
  - cbn [putLoop]. unfold generateId. rewrite Hprim.
    pose proof (GenerateId_no_panic enc i e) as Hnp.
    destruct (GenerateId enc i e) as [id|msg|] eqn:Hid; [|eauto|congruence].
    apply elem_of_cons in Hin as [->|Hin].
    + destruct (GenerateId_missing enc i e p Hp Hmiss) as [msg Hmsg]. congruence.
    + apply IH. eauto.
Qed.

(** C9: on a table whose primary index is compound, [Put] of entities one
    of which has no value (no property, or [nil]) for a declared primary
    column returns an error and leaves the row store, the indexes and the
    rest of the process state as they were. *)
Theorem Put_missing_primary_value (enc : Encoder) (t : table) (i : compoundPrimaryIndex)
    (entities : list Entity) (w : World) :
  primary t = compoundPrimary i ->
  (exists ent p, ent ∈ entities /\ p ∈ primaryProperties i
                 /\ (Properties ent !! p = None \/ Properties ent !! p = Some VNil)) ->
  exists msg, Put enc t entities w = (w, Err msg).
Proof.
  intros Hprim Hbad. unfold Put.
  destruct (putLoop_missing enc t i entities Hprim Hbad w [] []) as [msg ->].
  now exists msg.
Qed.

End PrimaryIdProperties.

(** ** Matching a compound index *)

(** Without an ordering, the loop succeeds exactly when the next
    [expectedMatches - matches] properties of the index are all filtered
    on. *)
Lemma matchLoop_no_order (filters : query.Filters) (order : query.Ordering)
    (expectedMatches : nat) (props : list string) :
  query.IsNil order = true ->
  forall matches,
    (matches < expectedMatches)%nat ->
    (expectedMatches - matches <= length props)%nat ->
    (matchLoop filters order props matches expectedMatches = Some expectedMatches
     /\ Forall (fun p => is_Some (filters !! p)) (take (expectedMatches - matches) props))
    \/ (matchLoop filters order props matches expectedMatches = None
        /\ ~ Forall (fun p => is_Some (filters !! p)) (take (expectedMatches - matches) props)).
Proof.
  intros Hnil. induction props as [|p ps IH]; intros matches Hlt Hlen.
  - cbn [length] in Hlen. lia.
  - cbn [matchLoop]. rewrite Hnil. cbn [negb andb].
    replace (expectedMatches - matches)%nat with (S (expectedMatches - S matches)) by lia.
    cbn [take].
    destruct (filters !! p) as [f|] eqn:Hp.
    + destruct (Nat.eqb_spec (S matches) expectedMatches) as [Heq|Hne].
      * left. split; [now rewrite Heq|].
        replace (expectedMatches - S matches)%nat with 0%nat by lia.
        rewrite take_0. constructor; [now rewrite Hp | constructor].
      * cbn [length] in Hlen.
        destruct (IH (S matches) ltac:(lia) ltac:(lia)) as [[Hs Hall] | [Hn Hall]].
        -- left. split; [exact Hs|]. constructor; [now rewrite Hp | exact Hall].
        -- right. split; [exact Hn|]. intros Hall'. apply Hall.
           now apply Forall_cons_1 in Hall'.
    + right. split; [reflexivity|]. intros Hall.
      apply Forall_cons_1 in Hall as [Hsome _]. rewrite Hp in Hsome.
      now destruct Hsome.
Qed.

Lemma NoDup_take {A : Type} (n : nat) (l : list A) : NoDup l -> NoDup (take n l).
Proof.
  intros Hnd. rewrite <- (take_drop n l) in Hnd.
  now apply NoDup_app in Hnd as [Hnd _].
Qed.

Lemma prefix_size (filters : query.Filters) (props : list string) (n : nat) :
  NoDup props -> (n <= length props)%nat ->
  dom filters = (list_to_set (take n props) : gset string) ->
  size filters = n.
Proof.
  intros Hnd Hn Hdom. rewrite <- size_dom, Hdom.
  rewrite size_list_to_set by (apply NoDup_take; exact Hnd).
  rewrite length_take. lia.
Qed.

(** C4: a compound secondary index (with distinct columns, at least one)
    matches a query without ordering clause if and only if the query's
    filter columns are a non-empty prefix of the index's columns.  So an
    index on [A, B, C] matches the filter sets [{A}], [{A, B}] and
    [{A, B, C}], and matches neither [{B}] nor [{A, C}], nor the empty set,
    nor a set with a column outside the index. *)
Theorem Matches_prefix (i : CompoundIndex) (filters : query.Filters) :
  NoDup (properties i) -> properties i <> [] ->
  exists b s, Matches i filters query.NoOrder = Ok (b, s)
              /\ (b = true <-> isPrefixOf filters (properties i)).
Proof.
  intros Hnd Hne. unfold Matches.
  change (query.IsNil query.NoOrder) with true. cbn iota.
  unfold matchWith.
  destruct (Nat.ltb_spec (length (properties i)) (size filters)) as [Hlong|Hfit].
  - exists false, scoreZero. split; [reflexivity|]. split; [discriminate|].
    intros (n & Hn & Hdom).
    pose proof (prefix_size filters (properties i) n Hnd ltac:(lia) Hdom). lia.
  - destruct (size filters) as [|e] eqn:Hsize.
    + (* no filter at all: the first column is already missing *)
      apply map_size_empty_iff in Hsize. subst filters.
      destruct (properties i) as [|p ps] eqn:Hprops; [congruence|].
      cbn [matchLoop]. rewrite lookup_empty. cbn.
      exists false, scoreZero. split; [reflexivity|]. split; [discriminate|].
      intros (n & Hn & Hdom). rewrite dom_empty_L in Hdom.
      destruct n as [|n]; [lia|]. cbn [take] in Hdom.
      assert (Hin : p ∈ (∅ : gset string)).
      { rewrite Hdom. apply elem_of_list_to_set, list_elem_of_here. }
      now apply not_elem_of_empty in Hin.
    + destruct (matchLoop_no_order filters query.NoOrder (S e) (properties i)
                  eq_refl 0%nat ltac:(lia) ltac:(lia)) as [[-> Hall] | [-> Hall]];
        rewrite Nat.sub_0_r in Hall.
      * exists true, (S e, length (properties i)). split; [reflexivity|].
        split; [intros _ | reflexivity].
        exists (S e). split; [lia|].
        symmetry. apply set_subseteq_size_eq.
        -- intros p Hp. apply elem_of_list_to_set in Hp.
           rewrite Forall_forall in Hall. apply elem_of_dom. now apply Hall.
        -- rewrite size_dom, Hsize.
           rewrite size_list_to_set by (apply NoDup_take; exact Hnd).
           rewrite length_take. lia.
      * exists false, scoreZero. split; [reflexivity|]. split; [discriminate|].
        intros (n & Hn & Hdom). exfalso. apply Hall.
        pose proof (prefix_size filters (properties i) n Hnd ltac:(lia) Hdom) as Hn'.
        rewrite Hsize in Hn'. subst n.
        apply Forall_forall. intros p Hp. apply elem_of_dom.
        rewrite Hdom. now apply elem_of_list_to_set.
Qed.

(** ** The indexing pipeline of a compound index *)

Lemma add_nil (c : redisCommand) : add c [] = c.
Proof. destruct c. unfold add. cbn. now rewrite app_nil_r. Qed.

Lemma add_add (c : redisCommand) (a b : list string) : add (add c a) b = add c (a ++ b).
Proof. unfold add. cbn. now rewrite app_assoc. Qed.

Lemma strLen_pos (s : string) : (0 <? strLen s) = negb (strEq s "").
Proof. now destruct s. Qed.

Lemma strEq_sym (a b : string) : strEq a b = strEq b a.
Proof.
  unfold strEq. destruct (decide (a = b)) as [->|Hne].
  - reflexivity.
  - rewrite !bool_decide_eq_false_2; congruence.
Qed.

(** One iteration adds what the classification says. *)
Lemma pipelineStep_spec (i : CompoundIndex) (addCmd delCmd : redisCommand)
    (d : entityDiff) :
  pipelineStep i (addCmd, delCmd) d =
  (add addCmd (concat ((fun e => ["0"; e]) <$> addedEntries i d)),
   add delCmd (removedEntries i d)).
Proof.
  unfold pipelineStep, addedEntries, removedEntries, indexAddEntry, unindexAddEntry.
  rewrite !strLen_pos. change (formatInt 0) with "0".
  rewrite (strEq_sym (diffEntry i d true) (diffEntry i d false)).
  destruct (isDelete (diffChangeType d)); cbn [negb].
  - destruct (strEq (diffEntry i d false) ""); cbn [negb]; now rewrite ?add_nil.
  - destruct (strEq (diffEntry i d false) (diffEntry i d true)); cbn [negb].
    + now rewrite !add_nil.
    + destruct (strEq (diffEntry i d true) ""), (strEq (diffEntry i d false) "");
        cbn [negb fmap list_fmap concat app]; now rewrite ?add_nil.
Qed.

Lemma pipelineLoop_spec (i : CompoundIndex) (ds : list entityDiff) :
  forall addCmd delCmd,
    pipelineLoop i (addCmd, delCmd) (Some <$> ds) =
    (add addCmd (concat ((fun e => ["0"; e]) <$> concat (addedEntries i <$> ds))),
     add delCmd (concat (removedEntries i <$> ds))).
Proof.
  induction ds as [|d ds IH]; intros addCmd delCmd.
  - cbn. now rewrite !add_nil.
  - cbn [fmap list_fmap pipelineLoop]. rewrite pipelineStep_spec.
    change (list_fmap _ _ Some ds) with (Some <$> ds). rewrite IH, !add_add.
    cbn [concat]. now rewrite fmap_app, concat_app.
Qed.

Lemma sendBoth_spec (key : string) (tx : list redisCommand) (adds dels : list string) :
  sendBoth tx (add (newIndexCommand key) (concat ((fun e => ["0"; e]) <$> adds)),
               add (newUnindexCommand key) dels)
  = tx ++ bulkRemove key dels ++ bulkAdd key adds.
Proof.
  unfold sendBoth, bulkRemove, bulkAdd, valid, add, newIndexCommand, newUnindexCommand,
    newRedisCommand. cbn [args command app].
  destruct dels as [|r rs], adds as [|a as_]; cbn; rewrite ?app_nil_r.
  - reflexivity.
  - reflexivity.
  - reflexivity.
  - now rewrite <- app_assoc.
Qed.

(** C5: fed the diffs of a change set, the pipeline of a compound index
    enqueues the removal of the old entry of every DELETE diff that has
    one; for every other diff (INSERT, UPDATE, REINDEX) whose old and new
    entries differ, the removal of the old entry and the addition of the
    new one, each only when it is not empty; and nothing for a diff whose
    two entries are the same.  All removals go into one [ZREM] and all
    additions into one [ZADD], in this order. *)
Theorem Pipeline_classifies (i : CompoundIndex) (tx : list redisCommand)
    (ds : list entityDiff) :
  Pipeline i tx (Some <$> ds) =
  tx ++ bulkRemove (RedisKey i) (concat (removedEntries i <$> ds))
     ++ bulkAdd (RedisKey i) (concat (addedEntries i <$> ds)).
Proof.
  unfold Pipeline. rewrite pipelineLoop_spec. apply sendBoth_spec.
Qed.

(** ** The cache of indexable properties *)

Lemma indexableProperties_keeps (t : table) (rc : entityChange) (cache : indexableCache)
    (h : Z) (p : list string) :
  cache !! h = Some p -> (indexableProperties t rc cache).2 !! h = Some p.
Proof.
  intros Hh. unfold indexableProperties.
  destruct (cache !! hash (changedProperties rc)) eqn:Hc; cbn; [exact Hh|].
  rewrite lookup_insert_ne; [exact Hh | congruence].
Qed.

Lemma callAll_keeps (calls : list (table * entityChange)) :
  forall cache h p, cache !! h = Some p -> callAll calls cache !! h = Some p.
Proof.
  induction calls as [|[t rc] rest IH]; intros cache h p Hh; cbn [callAll]; [exact Hh|].
  apply IH. now apply indexableProperties_keeps.
Qed.

Lemma indexableProperties_stores (t : table) (rc : entityChange) (cache : indexableCache) :
  (indexableProperties t rc cache).2 !! hash (changedProperties rc)
  = Some (indexableProperties t rc cache).1.
Proof.
  unfold indexableProperties.
  destruct (cache !! hash (changedProperties rc)) eqn:Hc; cbn; [exact Hc|].
  apply lookup_insert_eq.
Qed.

(** C10: the indexable properties are memoized in one cache keyed by the
    hash of the sorted changed-property list alone.  Once a change has
    been through [indexableProperties], every later change whose list
    hashes to the same value gets the list returned then, whatever its
    table and its kind, and whatever other calls came in between; and
    that list is the one computed for the first change when the cache
    had no entry for the hash. *)
Theorem indexable_cache_by_hash_only (t1 t2 : table) (rc1 rc2 : entityChange)
    (between : list (table * entityChange)) (cache : indexableCache) :
  hash (changedProperties rc1) = hash (changedProperties rc2) ->
  (indexableProperties t2 rc2
     (callAll between (indexableProperties t1 rc1 cache).2)).1
  = (indexableProperties t1 rc1 cache).1
  /\ (cache !! hash (changedProperties rc1) = None ->
      (indexableProperties t1 rc1 cache).1 = computeIndexable t1 rc1).
Proof.
  intros Hhash. split.
  - pose proof (indexableProperties_stores t1 rc1 cache) as Hst.
    apply (callAll_keeps between) in Hst. rewrite Hhash in Hst.
    unfold indexableProperties at 1. now rewrite Hst.
  - intros Hnone. unfold indexableProperties. now rewrite Hnone.
Qed.

(** ** Totals and paging *)

Lemma exec_ZRANGEBYLEX (d : Redis.db) (k smin smax : string) (opt : list string) :
  Redis.exec d "ZRANGEBYLEX" (k :: smin :: smax :: opt)
  = (d, Redis.lexRange d k smin smax opt false).
Proof. reflexivity. Qed.

Lemma exec_ZREVRANGEBYLEX (d : Redis.db) (k smin smax : string) (opt : list string) :
  Redis.exec d "ZREVRANGEBYLEX" (k :: smax :: smin :: opt)
  = (d, Redis.lexRange d k smin smax opt true).
Proof. reflexivity. Qed.

Lemma exec_ZLEXCOUNT (d : Redis.db) (k smin smax : string) :
  Redis.exec d "ZLEXCOUNT" [k; smin; smax]
  = (d, match Redis.parseLex smin, Redis.parseLex smax with
        | Some min, Some max =>
            match Redis.asZSet d k with
            | None => Redis.wrongType
            | Some z =>
                Redis.RInt (Z.of_nat (length (List.filter (Redis.inLexRange min max) z)))
            end
        | _, _ => Redis.RError "ERR min or max not valid string range item"
        end).
Proof.
  change (Redis.exec d "ZLEXCOUNT" [k; smin; smax])
    with (match Redis.parseLex smin, Redis.parseLex smax with
          | Some min, Some max =>
              match Redis.asZSet d k with
              | None => (d, Redis.wrongType)
              | Some z =>
                  (d, Redis.RInt (Z.of_nat (length (List.filter (Redis.inLexRange min max) z))))
              end
          | _, _ => (d, Redis.RError "ERR min or max not valid string range item")
          end).
  destruct (Redis.parseLex smin), (Redis.parseLex smax); try reflexivity.
  now destruct (Redis.asZSet d k).
Qed.

Lemma exec_EXISTS (d : Redis.db) (k : string) :
  Redis.exec d "EXISTS" [k] = (d, Redis.RInt (if Redis.hasKey d k then 1 else 0)).
Proof. reflexivity. Qed.

Lemma exec_ZCARD (d : Redis.db) (k : string) :
  Redis.exec d "ZCARD" [k]
  = (d, match Redis.asZSet d k with
        | None => Redis.wrongType
        | Some z => Redis.RInt (Z.of_nat (length z))
        end).
Proof.
  change (Redis.exec d "ZCARD" [k])
    with (match Redis.asZSet d k with
          | None => (d, Redis.wrongType)
          | Some z => (d, Redis.RInt (Z.of_nat (length z)))
          end).
  now destruct (Redis.asZSet d k).
Qed.

Lemma replyStrings_bulks (l : list string) :
  replyStrings (Redis.RArray (Redis.RBulk <$> l)) = l.
Proof.
  unfold replyStrings.
  assert (Hall : forallb (fun x => match x with
                                   | Redis.RBulk _ | Redis.RNull => true
                                   | _ => false
                                   end) (Redis.RBulk <$> l) = true).
  { induction l as [|x l IH]; [reflexivity | exact IH]. }
  rewrite Hall. induction l as [|x l IH]; [reflexivity|].
  cbn [fmap list_fmap] in *. now rewrite IH.
Qed.

Section FindProperties.
Context `{ExternalLibs}.

(** An ascending [Find] that succeeds leaves the store alone and returns
    as total the number of members in range. *)
Lemma Find_ascending (enc : Encoder) (i : CompoundIndex) (d d' : Redis.db)
    (filters : query.Filters) (offset limit : Z) (order : query.Ordering)
    (ids : list string) (total : Z) :
  query.IsNil order || query.Ascending order = true ->
  Find enc i d filters offset limit order = (d', Ok (ids, total)) ->
  d' = d /\
  exists rangeStart rangeEnd hits,
    rangeKeys enc i filters order = Ok (rangeStart, rangeEnd)
    /\ inRange d i rangeStart rangeEnd = Some hits
    /\ total = Z.of_nat (length hits).
Proof.
  intros Hasc. unfold Find.
  destruct (rangeKeys enc i filters order) as [[rs re]| |]; [|discriminate..].
  assert (Hcmd : findCommand i rs re order = newRedisCommand "ZRANGEBYLEX" [RedisKey i; rs; re]).
  { unfold findCommand. destruct (query.IsNil order), (query.Ascending order);
      try reflexivity; discriminate. }
  rewrite Hcmd. clear Hcmd.
  set (cmd := if 0 <? limit then _ else _).
  assert (Hargs : exists opt, cmd = newRedisCommand "ZRANGEBYLEX" (RedisKey i :: rs :: re :: opt)).
  { subst cmd. destruct (0 <? limit); eexists; reflexivity. }
  destruct Hargs as [opt ->].
  unfold batchExecute. cbn [runAll command args newRedisCommand take].
  rewrite exec_ZRANGEBYLEX, exec_ZLEXCOUNT.
  unfold inRange.
  destruct (Redis.parseLex rs) as [min|] eqn:Hmin;
    [|cbn [existsb Redis.isError orb]; rewrite orb_true_r; discriminate].
  destruct (Redis.parseLex re) as [max|] eqn:Hmax;
    [|cbn [existsb Redis.isError orb]; rewrite orb_true_r; discriminate].
  destruct (Redis.asZSet d (RedisKey i)) as [z|] eqn:Hz.
  - cbn [existsb Redis.isError orb].
    destruct (Redis.isError (Redis.lexRange d (RedisKey i) rs re opt false));
      cbn [orb]; [discriminate|].
    intros Heq. inversion Heq; subst. split; [reflexivity|].
    exists rs, re, (List.filter (Redis.inLexRange min max) z).
    rewrite Hmin, Hmax. auto.
  - cbn [existsb Redis.isError orb Redis.wrongType]. rewrite orb_true_r. discriminate.
Qed.

(** The same [Find] without a limit returns every member in range. *)
Lemma Find_unlimited (enc : Encoder) (i : CompoundIndex) (d : Redis.db)
    (filters : query.Filters) (order : query.Ordering)
    (rangeStart rangeEnd : string) (hits : list string) :
  query.IsNil order || query.Ascending order = true ->
  rangeKeys enc i filters order = Ok (rangeStart, rangeEnd) ->
  inRange d i rangeStart rangeEnd = Some hits ->
  Find enc i d filters 0 (-1) order
  = (d, Ok (extractId <$> hits, Z.of_nat (length hits))).
Proof.
  intros Hasc Hrk Hin. unfold Find. rewrite Hrk.
  assert (Hcmd : findCommand i rangeStart rangeEnd order
                 = newRedisCommand "ZRANGEBYLEX" [RedisKey i; rangeStart; rangeEnd]).
  { unfold findCommand. destruct (query.IsNil order), (query.Ascending order);
      try reflexivity; discriminate. }
  rewrite Hcmd. change (0 <? -1) with false. cbn iota.
  unfold batchExecute. cbn [runAll command args newRedisCommand take].
  rewrite exec_ZRANGEBYLEX, exec_ZLEXCOUNT.
  unfold inRange in Hin. unfold Redis.lexRange.
  destruct (Redis.parseLex rangeStart) as [min|]; [|discriminate].
  destruct (Redis.parseLex rangeEnd) as [max|]; [|discriminate].
  destruct (Redis.asZSet d (RedisKey i)) as [z|]; [|discriminate].
  inversion Hin; subst. cbn [Redis.parseLimit Redis.applyLimit].
  cbn [existsb Redis.isError orb]. now rewrite replyStrings_bulks.
Qed.

End FindProperties.

(** [find] on ids that are all keys: one [EXISTS] per id. *)
Lemma exists_commands (t : table) (ids : list Value) :
  Forall (fun id => is_Some (asKey id)) ids ->
  omap (fun id => (fun k => newRedisCommand "EXISTS" [idKey t k]) <$> asKey id) ids
  = (fun k => newRedisCommand "EXISTS" [idKey t k])
      <$> ((fun id => default "" (asKey id)) <$> ids).
Proof.
  induction 1 as [|id ids [k Hk] _ IH]; [reflexivity|].
  cbn [omap list_omap fmap list_fmap]. rewrite Hk. cbn.
  f_equal. exact IH.
Qed.

Lemma runAll_exists (t : table) (d : Redis.db) (ks : list string) (rest : list redisCommand) :
  runAll d (((fun k => newRedisCommand "EXISTS" [idKey t k]) <$> ks) ++ rest)
  = ((runAll d rest).1,
     ((fun k => Redis.RInt (if Redis.hasKey d (idKey t k) then 1 else 0)) <$> ks)
       ++ (runAll d rest).2).
Proof.
  induction ks as [|k ks IH].
  - cbn. now destruct (runAll d rest).
  - cbn [fmap list_fmap app runAll command args newRedisCommand].
    rewrite exec_EXISTS.
    change (list_fmap _ _ ?f ks) with (f <$> ks). rewrite IH. reflexivity.
Qed.

Lemma findLoop_exists (t : table) (d : Redis.db) (n : Z) (ks : list string) :
  forall pre ret repairs total,
    findLoop (pre ++ ks)
      (((fun k => Redis.RInt (if Redis.hasKey d (idKey t k) then 1 else 0)) <$> ks)
         ++ [Redis.RInt n])
      (length pre) ret repairs total
    = (ret ++ List.filter (fun k => Redis.hasKey d (idKey t k)) ks,
       repairs ++ List.filter (fun k => negb (Redis.hasKey d (idKey t k))) ks,
       n).
Proof.
  induction ks as [|k ks IH]; intros pre ret repairs total.
  - cbn [fmap list_fmap app findLoop List.filter].
    rewrite app_nil_r, !app_nil_r.
    rewrite lookup_ge_None_2 by lia. reflexivity.
  - cbn [fmap list_fmap app findLoop List.filter].
    rewrite lookup_app_r by lia. rewrite Nat.sub_diag. cbn [lookup list_lookup].
    change (list_fmap _ _ ?f ks) with (f <$> ks).
    replace (pre ++ k :: ks) with ((pre ++ [k]) ++ ks) by now rewrite <- app_assoc.
    replace (S (length pre)) with (length (pre ++ [k]))
      by (rewrite length_app; cbn; lia).
    destruct (Redis.hasKey d (idKey t k)); cbn [replyBool negb Z.eqb].
    + rewrite IH. now rewrite <- app_assoc.
    + rewrite IH. now rewrite <- app_assoc.
Qed.

Lemma no_error_in_exists (t : table) (d : Redis.db) (n : Z) (ks : list string) :
  existsb Redis.isError
    (((fun k => Redis.RInt (if Redis.hasKey d (idKey t k) then 1 else 0)) <$> ks)
       ++ [Redis.RInt n]) = false.
Proof. induction ks as [|k ks IH]; [reflexivity | exact IH]. Qed.

(** [find] returns the ids that have a row, and as total the cardinality
    of the whole primary set. *)
Lemma find_total (t : table) (d : Redis.db) (ids : list Value) (z : list string) :
  Forall (fun id => is_Some (asKey id)) ids ->
  Redis.asZSet d (primaryRedisKey t) = Some z ->
  exists d',
    find t d ids
    = (d', Ok (List.filter (fun k => Redis.hasKey d (idKey t k))
                 ((fun id => default "" (asKey id)) <$> ids),
               Z.of_nat (length z))).
Proof.
  intros Hids Hz. unfold find. rewrite (exists_commands t ids Hids).
  set (keys := (fun id => default "" (asKey id)) <$> ids).
  unfold batchExecute. rewrite runAll_exists.
  cbn [runAll command args newRedisCommand fst snd].
  rewrite exec_ZCARD, Hz. cbn [fst snd].
  rewrite no_error_in_exists.
  pose proof (findLoop_exists t d (Z.of_nat (length z)) keys [] [] [] 0) as Hloop.
  cbn [app length] in Hloop. rewrite Hloop. cbn [app].
  destruct (List.filter (fun k => negb (Redis.hasKey d (idKey t k))) keys);
    eexists; reflexivity.
Qed.

(** An id that is not a key sends no [EXISTS] and still takes a place in
    [keys]: the replies are then too few to reach past [keys], the reply
    of [ZCARD] is read as the answer for a key and the total is left at
    [0]. *)
Lemma exists_commands_keys (t : table) (ids : list Value) :
  omap (fun id => (fun k => newRedisCommand "EXISTS" [idKey t k]) <$> asKey id) ids
  = (fun k => newRedisCommand "EXISTS" [idKey t k]) <$> omap asKey ids.
Proof.
  induction ids as [|id ids IH]; [reflexivity|].
  cbn [omap list_omap] in *.
  destruct (asKey id); cbn [fmap option_fmap option_map list_fmap]; [f_equal|]; exact IH.
Qed.

Lemma keys_of_ids (ids : list Value) :
  (length (omap asKey ids) <= length ids)%nat
  /\ (Exists (fun id => asKey id = None) ids ->
      (length (omap asKey ids) < length ids)%nat).
Proof.
  induction ids as [|id ids [IHle IHlt]]; [split; [reflexivity | intros Hex; inversion Hex]|].
  cbn [omap list_omap length] in *.
  destruct (asKey id) eqn:Hid; cbn [length]; split; try lia.
  intros Hex. inversion Hex as [? ? Hnone | ? ? Hrest]; subst; [congruence|].
  specialize (IHlt Hrest). lia.
Qed.

Lemma findLoop_short (keys : list string) (rets : list Redis.reply) :
  forall i ret repairs total,
    (i + length rets <= length keys)%nat ->
    (findLoop keys rets i ret repairs total).2 = total.
Proof.
  induction rets as [|p ps IH]; intros i ret repairs total Hlen; [reflexivity|].
  cbn [findLoop length] in *.
  destruct (lookup_lt_is_Some_2 keys i ltac:(lia)) as [k Hk]. rewrite Hk.
  destruct (replyBool p); apply IH; lia.
Qed.

Lemma find_total_zero (t : table) (d : Redis.db) (ids : list Value) (z : list string) :
  Exists (fun id => asKey id = None) ids ->
  Redis.asZSet d (primaryRedisKey t) = Some z ->
  exists d' found, find t d ids = (d', Ok (found, 0)).
Proof.
  intros Hex Hz. unfold find. rewrite exists_commands_keys.
  set (keys := (fun id => default "" (asKey id)) <$> ids).
  unfold batchExecute. rewrite runAll_exists.
  cbn [runAll command args newRedisCommand fst snd].
  rewrite exec_ZCARD, Hz. cbn [fst snd].
  rewrite no_error_in_exists.
  set (rets := _ ++ [Redis.RInt (Z.of_nat (length z))]).
  assert (Hshort : (0 + length rets <= length keys)%nat).
  { subst rets keys. rewrite length_app, !length_fmap. cbn [length].
    pose proof (proj2 (keys_of_ids ids) Hex). lia. }
  pose proof (findLoop_short keys rets 0 [] [] 0 Hshort) as Htotal.
  destruct (findLoop keys rets 0 [] [] 0) as [[ret repairs] total].
  cbn [snd] in Htotal. subst total.
  destruct repairs; do 2 eexists; reflexivity.
Qed.

(** Redis reads the numbers the driver writes. *)
Lemma string2ll_formatUint (n : Z) :
  0 <= n < 2 ^ 63 -> Redis.string2ll (formatUint n) = Some n.
Proof.
  intros Hn.
  destruct (formatUint_head n ltac:(lia)) as (d & r & Heq & Hd & Hpos).
  pose proof (formatUint_parse n ltac:(lia)) as Hparse.
  destruct (digitChar_not_sign d Hd) as [Hm _].
  unfold Redis.string2ll. rewrite Heq.
  rewrite (bool_decide_eq_false_2 _ Hm).
  destruct (Z.eq_dec n 0) as [->|Hnz].
  - change (formatUint 0) with "0" in Heq. inversion Heq; subst. reflexivity.
  - assert (Hz : digitChar d <> "0"%char).
    { intros Hc. apply (f_equal byteVal) in Hc. rewrite digitChar_val in Hc by lia.
      change (byteVal "0") with 48 in Hc. lia. }
    rewrite (bool_decide_eq_false_2 _ Hz), <- Heq, Hparse.
    destruct (Z.ltb_spec n (2 ^ 63)); [reflexivity | lia].
Qed.

Lemma wrapInt_small (z : Z) : - 2 ^ 63 <= z < 2 ^ 63 -> wrapInt z = z.
Proof. intros Hz. unfold wrapInt. rewrite Z.mod_small by lia. lia. Qed.

Section Paging.
Context `{ExternalLibs}.

(** What an ascending [Find] with a limit returns: from position [offset]
    on, [offset + limit] ids at most. *)
Lemma Find_page (enc : Encoder) (i : CompoundIndex) (d : Redis.db)
    (filters : query.Filters) (offset limit : Z) (order : query.Ordering)
    (rangeStart rangeEnd : string) (hits : list string) :
  query.IsNil order || query.Ascending order = true ->
  0 <= offset -> 0 < limit -> offset + limit < 2 ^ 63 ->
  rangeKeys enc i filters order = Ok (rangeStart, rangeEnd) ->
  inRange d i rangeStart rangeEnd = Some hits ->
  Find enc i d filters offset limit order
  = (d, Ok (extractId <$> take (Z.to_nat (offset + limit)) (drop (Z.to_nat offset) hits),
            Z.of_nat (length hits))).
Proof.
  intros Hasc Hoff Hlim Hsum Hrk Hin. unfold Find. rewrite Hrk.
  assert (Hcmd : findCommand i rangeStart rangeEnd order
                 = newRedisCommand "ZRANGEBYLEX" [RedisKey i; rangeStart; rangeEnd]).
  { unfold findCommand. destruct (query.IsNil order), (query.Ascending order);
      try reflexivity; discriminate. }
  rewrite Hcmd. destruct (Z.ltb_spec 0 limit); [|lia].
  unfold batchExecute. cbn [runAll command args newRedisCommand take add app].
  rewrite exec_ZRANGEBYLEX, exec_ZLEXCOUNT.
  unfold inRange in Hin. unfold Redis.lexRange.
  destruct (Redis.parseLex rangeStart) as [min|]; [|discriminate].
  destruct (Redis.parseLex rangeEnd) as [max|]; [|discriminate].
  destruct (Redis.asZSet d (RedisKey i)) as [z|]; [|discriminate].
  inversion Hin; subst. clear Hin.
  rewrite wrapInt_small by lia.
  unfold formatInt. destruct (Z.ltb_spec offset 0); [lia|].
  destruct (Z.ltb_spec (offset + limit) 0); [lia|].
  unfold Redis.parseLimit. change (strEq (strMap asciiLower "LIMIT") "limit") with true.
  cbn iota. rewrite !string2ll_formatUint by lia.
  cbn [Redis.applyLimit]. unfold Redis.limitSlice.
  destruct (Z.ltb_spec offset 0); [lia|].
  destruct (Z.ltb_spec (offset + limit) 0); [lia|].
  cbn [existsb Redis.isError orb]. now rewrite replyStrings_bulks.
Qed.

End Paging.

(** ** Examples *)

Example put_writes_row_and_indexes :
  (@Put asciiLibs exampleEncoder peopleTable [johnDoe] emptyWorld).2 = Ok ["john|doe|"]
  /\ Redis.asHash (store onePerson) "test.People:john|doe|"
     = Some (<["name" := "xjohn"]> (<["surname" := "xdoe"]>
               (<["email" := "xjohn@doe.org"]> ∅)))
  /\ Redis.asZSet (store onePerson) "test.People::PRIMARY" = Some ["john|doe|"]
  /\ Redis.asZSet (store onePerson) "k:test.People/email"
     = Some ["john@doe.org|::john|doe|"].
Proof. repeat split; vm_compute; reflexivity. Qed.

Example three_sams_index :
  Redis.asZSet (store threeSams) (RedisKey nameIndex)
  = Some ["sam|::u1"; "sam|::u2"; "sam|::u3"].
Proof. vm_compute. reflexivity. Qed.

Example abc_matches :
  let matches l := mapR fst (Matches abcIndex (NewFilters ((fun p => Equals p (VInt 1)) <$> l))
                                     query.NoOrder) in
  matches ["A"] = Ok true /\ matches ["A"; "B"] = Ok true
  /\ matches ["A"; "B"; "C"] = Ok true
  /\ matches ["B"] = Ok false /\ matches ["A"; "C"] = Ok false
  /\ matches [] = Ok false /\ matches ["A"; "D"] = Ok false.
Proof. repeat split; vm_compute; reflexivity. Qed.

(** ** Totals and pages at concrete inputs *)




(** A lookup of the Text [foo] in the table of three entities: no
    [EXISTS] is sent for it, the reply of [ZCARD] is read as the answer
    for the empty key in its place, and the total is [0]. *)
Example lookup_of_a_text_id :
  (find usersTable (store threeSams) [VText "foo"]).2 = Ok ([""], 0).
Proof. vm_compute. reflexivity. Qed.

(** C7 (the code departs from it): with offset 1 and limit 1 over the
    three entries of the range, [Find] returns the two ids at positions 1
    and 2, more than the limit, where the claim has the single id at
    position 1; the total is 3 either way. *)
Theorem Find_returns_more_than_limit :
  (@Find asciiLibs exampleEncoder nameIndex (store threeSams) namedSam 1 1 query.NoOrder).2
  = Ok (["u2"; "u3"], 3)
  /\ (@Find asciiLibs exampleEncoder nameIndex (store threeSams) namedSam 0 (-1)
             query.NoOrder).2
     = Ok (["u1"; "u2"; "u3"], 3).
Proof. split; vm_compute; reflexivity. Qed.

(** ** The theorems at concrete inputs *)


Lemma Put_missing_primary_value_witness :
  exists msg,
    @Put asciiLibs exampleEncoder peopleTable [johnDoe; janeNoSurname] onePerson
    = (onePerson, Err msg).
Proof.
  apply (@Put_missing_primary_value asciiLibs exampleEncoder peopleTable fullName
           [johnDoe; janeNoSurname] onePerson).
  - reflexivity.
  - exists janeNoSurname, "surname". split; [|split].
    + apply list_elem_of_further, list_elem_of_here.
    + apply list_elem_of_further, list_elem_of_here.
    + left. vm_compute. reflexivity.
Defined.

Lemma Matches_prefix_witness :
  exists b s,
    Matches abcIndex (NewFilters [Equals "A" (VInt 1); Equals "B" (VInt 2)]) query.NoOrder
    = Ok (b, s)
    /\ (b = true <->
        isPrefixOf (NewFilters [Equals "A" (VInt 1); Equals "B" (VInt 2)])
                   (properties abcIndex)).
Proof.
  apply (Matches_prefix abcIndex (NewFilters [Equals "A" (VInt 1); Equals "B" (VInt 2)])).
  - apply (bool_decide_unpack (NoDup ["A"; "B"; "C"])). vm_compute. exact I.
  - discriminate.
Defined.

Lemma indexable_cache_by_hash_only_witness :
  (indexableProperties peopleTable renamePerson
     (callAll [] (indexableProperties usersTable renameUser ∅).2)).1
  = (indexableProperties usersTable renameUser ∅).1
  /\ ((∅ : indexableCache) !! hash (changedProperties renameUser) = None ->
      (indexableProperties usersTable renameUser ∅).1
      = computeIndexable usersTable renameUser).
Proof.
  apply (indexable_cache_by_hash_only usersTable peopleTable renameUser renamePerson [] ∅).
  reflexivity.
Defined.

Example cached_properties_of_another_table :
  (indexableProperties peopleTable renamePerson
     (indexableProperties usersTable renameUser ∅).2).1 = ["id"; "name"]
  /\ computeIndexable peopleTable renamePerson = ["name"; "surname"].
Proof. split; vm_compute; reflexivity. Qed.

(** * Further properties *)

(** ** The byte order of strings *)

Lemma strLt_irrefl (s : string) : strLt s s = false.
Proof.
  induction s as [|c s IH]; [reflexivity|].
  rewrite strLt_cons, Z.ltb_irrefl, Z.eqb_refl. exact IH.
Qed.

Lemma strLt_trans (a b c : string) :
  strLt a b = true -> strLt b c = true -> strLt a c = true.
Proof.
  revert b c. induction a as [|x a IH]; intros [|y b] [|z c]; try discriminate; try reflexivity.
  rewrite !strLt_cons. intros Hab Hbc.
  apply orb_true_iff in Hab as [Hab|Hab]; apply orb_true_iff in Hbc as [Hbc|Hbc].
  - apply orb_true_iff. left. apply Z.ltb_lt in Hab, Hbc. apply Z.ltb_lt. lia.
  - apply andb_true_iff in Hbc as [Hyz _]. apply Z.eqb_eq in Hyz.
    apply orb_true_iff. left. now rewrite <- Hyz.
  - apply andb_true_iff in Hab as [Hxy _]. apply Z.eqb_eq in Hxy.
    apply orb_true_iff. left. now rewrite Hxy.
  - apply andb_true_iff in Hab as [Hxy Hab]. apply andb_true_iff in Hbc as [Hyz Hbc].
    apply Z.eqb_eq in Hxy, Hyz. apply orb_true_iff. right.
    apply andb_true_iff. split; [apply Z.eqb_eq; lia|]. now apply IH with b.
Qed.

Lemma strLt_asym (a b : string) : strLt a b = true -> strLt b a = false.
Proof.
  intros Hab. destruct (strLt b a) eqn:Hba; [|reflexivity].
  pose proof (strLt_trans a b a Hab Hba) as Haa.
  now rewrite strLt_irrefl in Haa.
Qed.

Lemma strLt_total (a b : string) : a <> b -> strLt a b = true \/ strLt b a = true.
Proof.
  revert b. induction a as [|x a IH]; intros [|y b] Hne.
  - congruence.
  - now left.
  - now right.
  - rewrite !strLt_cons.
    destruct (Z.lt_trichotomy (byteVal x) (byteVal y)) as [Hlt|[Heq|Hgt]].
    + left. apply orb_true_iff. left. now apply Z.ltb_lt.
    + apply byteVal_inj in Heq. subst y.
      rewrite Z.ltb_irrefl, Z.eqb_refl. cbn [orb andb].
      apply IH. congruence.
    + right. apply orb_true_iff. left. now apply Z.ltb_lt.
Qed.

(** ** Numeric index keys *)

Lemma hexChar_lower (d : Z) : 0 <= d < 16 -> isLowerHex (hexChar d) = true.
Proof.
  intros Hd. unfold isLowerHex, isDigit. rewrite hexChar_val by exact Hd.
  destruct (Z.ltb_spec d 10); apply orb_true_iff; [left|right];
    apply andb_true_iff; split; apply Z.leb_le; lia.
Qed.

Lemma hexEncode_shape (l : list Z) :
  Forall (fun b => 0 <= b < 256) l ->
  String.length (hexEncode l) = (2 * length l)%nat
  /\ strAll isLowerHex (hexEncode l) = true.
Proof.
  induction 1 as [|b l Hb _ [IHlen IHall]]; [now split|].
  cbn [hexEncode String.length length strAll]. split; [lia|].
  rewrite !hexChar_lower, IHall; [reflexivity| |].
  - change 15 with (Z.ones 4). rewrite Z.land_ones by lia.
    apply Z.mod_pos_bound. lia.
  - rewrite Z.shiftr_div_pow2 by lia. change (2 ^ 4) with 16.
    split; [apply Z.div_pos; lia | apply Z.div_lt_upper_bound; lia].
Qed.

Lemma bigEndian_bytes (n : nat) (u : Z) :
  length (bigEndian n u) = n /\ Forall (fun b => 0 <= b < 256) (bigEndian n u).
Proof.
  induction n as [|k [IHlen IHall]]; [split; [reflexivity|constructor]|].
  cbn [bigEndian length]. split; [now rewrite IHlen|].
  constructor; [apply Z.mod_pos_bound; lia | exact IHall].
Qed.

Lemma prepareUint_shape (u : Z) :
  String.length (prepareUint u) = 16%nat /\ strAll isLowerHex (prepareUint u) = true.
Proof.
  unfold prepareUint. destruct (bigEndian_bytes 8 u) as [Hlen Hall].
  destruct (hexEncode_shape _ Hall) as [Hl Ha].
  split; [rewrite Hl, Hlen; reflexivity | exact Ha].
Qed.

Lemma prepareUint_order (u v : Z) :
  0 <= u < 2 ^ 64 -> 0 <= v < 2 ^ 64 ->
  (strLt (prepareUint u) (prepareUint v) = true <-> u < v)
  /\ (prepareUint u = prepareUint v <-> u = v).
Proof.
  intros Hu Hv.
  assert (Hlt : forall x y, 0 <= x < 2 ^ 64 -> 0 <= y < 2 ^ 64 -> x < y ->
                            strLt (prepareUint x) (prepareUint y) = true).
  { intros x y Hx Hy Hxy. apply prepareUint_lt; lia. }
  split; split.
  - intros Hs. destruct (Z.lt_trichotomy u v) as [H1|[H1|H1]]; [exact H1| |].
    + subst v. now rewrite strLt_irrefl in Hs.
    + apply (Hlt v u Hv Hu) in H1. apply strLt_asym in H1. congruence.
  - now apply Hlt.
  - intros He. destruct (Z.lt_trichotomy u v) as [H1|[H1|H1]]; [|exact H1|].
    + apply (Hlt u v Hu Hv) in H1. rewrite He, strLt_irrefl in H1. discriminate.
    + apply (Hlt v u Hv Hu) in H1. rewrite He, strLt_irrefl in H1. discriminate.
  - now intros ->.
Qed.

Section NumericKeys.
Context `{ExternalLibs}.

(** The index key of an Integer, an Unsigned or a Float is sixteen
    lower-case hexadecimal digits, whatever the number: no key holds the
    separator [|] of an entry or the [::] before its id. *)
Theorem numeric_key_shape (enc : Encoder) (n : Z) :
  let sixteenHexDigits r :=
    exists k, r = Ok (PStr k) /\ String.length k = 16%nat /\ strAll isLowerHex k = true in
  sixteenHexDigits (prepareValue enc (VInt n))
  /\ sixteenHexDigits (prepareValue enc (VUint n))
  /\ sixteenHexDigits (prepareValue enc (VFloat n)).
Proof.
  cbn zeta. repeat split; cbn [prepareValue]; eexists; (split; [reflexivity|]);
    apply prepareUint_shape.
Qed.

(** The keys of Unsigned values are in the order of the numbers, and two
    Unsigned values have the same key only when they are equal. *)
Theorem unsigned_key_order (enc : Encoder) (u v : Z) :
  0 <= u < 2 ^ 64 -> 0 <= v < 2 ^ 64 ->
  exists ku kv,
    prepareValue enc (VUint u) = Ok (PStr ku)
    /\ prepareValue enc (VUint v) = Ok (PStr kv)
    /\ (strLt ku kv = true <-> u < v)
    /\ (ku = kv <-> u = v).
Proof.
  intros Hu Hv. exists (prepareUint u), (prepareUint v).
  split; [reflexivity|]. split; [reflexivity|]. now apply prepareUint_order.
Qed.

(** The key of an Integer is the key of its two's complement, so keys
    follow the numbers only among Integers of one sign: the key of every
    negative Integer is above the key of every non-negative one. *)
Theorem integer_key_order (enc : Encoder) (a b : Z) :
  - 2 ^ 63 <= a < 2 ^ 63 -> - 2 ^ 63 <= b < 2 ^ 63 ->
  exists ka kb,
    prepareValue enc (VInt a) = Ok (PStr ka)
    /\ prepareValue enc (VInt b) = Ok (PStr kb)
    /\ (strLt ka kb = true <->
        (a < b /\ (a < 0 <-> b < 0)) \/ (0 <= a /\ b < 0)).
Proof.
  intros Ha Hb. exists (prepareUint (a mod 2 ^ 64)), (prepareUint (b mod 2 ^ 64)).
  split; [reflexivity|]. split; [reflexivity|].
  assert (Hmod : forall x, - 2 ^ 63 <= x < 2 ^ 63 ->
                           x mod 2 ^ 64 = if x <? 0 then x + 2 ^ 64 else x).
  { intros x Hx. destruct (Z.ltb_spec x 0).
    - symmetry. apply Z.mod_unique with (q := -1); lia.
    - apply Z.mod_small. lia. }
  pose proof (Z.mod_pos_bound a (2 ^ 64) ltac:(lia)) as Hma.
  pose proof (Z.mod_pos_bound b (2 ^ 64) ltac:(lia)) as Hmb.
  rewrite (proj1 (prepareUint_order _ _ Hma Hmb)).
  rewrite (Hmod a Ha), (Hmod b Hb).
  destruct (Z.ltb_spec a 0), (Z.ltb_spec b 0); lia.
Qed.

End NumericKeys.

Lemma unsigned_key_order_witness :
  exists ku kv,
    @prepareValue asciiLibs exampleEncoder (VUint 9) = Ok (PStr ku)
    /\ @prepareValue asciiLibs exampleEncoder (VUint 10) = Ok (PStr kv)
    /\ (strLt ku kv = true <-> 9 < 10)
    /\ (ku = kv <-> 9 = 10).
Proof.
  apply (@unsigned_key_order asciiLibs exampleEncoder 9 10); lia.
Defined.

Lemma integer_key_order_witness :
  exists ka kb,
    @prepareValue asciiLibs exampleEncoder (VInt (-1)) = Ok (PStr ka)
    /\ @prepareValue asciiLibs exampleEncoder (VInt 1) = Ok (PStr kb)
    /\ (strLt ka kb = true <->
        (-1 < 1 /\ (-1 < 0 <-> 1 < 0)) \/ (0 <= -1 /\ 1 < 0)).
Proof.
  apply (@integer_key_order asciiLibs exampleEncoder (-1) 1); lia.
Defined.

(** ** Deduplicating white space *)

Lemma transformFrom_fits (dstLen : nat) (src : string) :
  forall i prevWhite,
    (i + String.length src <= dstLen)%nat ->
    transformFrom dstLen i prevWhite src
    = (whitespaceDedupe prevWhite src, (i + String.length src)%nat, false).
Proof.
  induction src as [|b r IH]; intros i pw Hfit.
  - cbn. now rewrite Nat.add_0_r.
  - cbn [transformFrom whitespaceDedupe String.length] in *.
    destruct (Nat.leb_spec dstLen i); [lia|].
    destruct (isWhite b && pw).
    + rewrite IH by lia. f_equal. f_equal. lia.
    + rewrite IH by lia. f_equal. f_equal. lia.
Qed.

Lemma transformFrom_short (dstLen : nat) (src : string) :
  forall i prevWhite,
    (i <= dstLen)%nat -> (dstLen < i + String.length src)%nat ->
    transformFrom dstLen i prevWhite src
    = (whitespaceDedupe prevWhite (strTake (dstLen - i) src), dstLen, true).
Proof.
  induction src as [|b r IH]; intros i pw Hi Hshort.
  - cbn in Hshort. lia.
  - cbn [transformFrom String.length] in *.
    destruct (Nat.leb_spec dstLen i) as [Hle|Hgt].
    + replace (dstLen - i)%nat with 0%nat by lia. cbn. f_equal. f_equal. lia.
    + replace (dstLen - i)%nat with (S (dstLen - S i)) by lia.
      cbn [strTake whitespaceDedupe].
      destruct (isWhite b && pw); now rewrite IH by lia.
Qed.

(** What comes out of the deduplication has no run of white bytes, and
    does not start with one after a white byte. *)
Lemma whitespaceDedupe_noWhiteRun (s : string) :
  forall prevWhite,
    noWhiteRun (whitespaceDedupe prevWhite s) = true
    /\ (prevWhite = true ->
        match whitespaceDedupe prevWhite s with
        | String a _ => isWhite a = false
        | EmptyString => True
        end).
Proof.
  induction s as [|b r IH]; intros pw; [now split|].
  cbn [whitespaceDedupe].
  destruct (isWhite b) eqn:Hb; destruct pw; cbn [andb].
  - apply IH.
  - destruct (IH true) as [Hrun Hhead]. split; [|discriminate].
    cbn [noWhiteRun]. specialize (Hhead eq_refl).
    destruct (whitespaceDedupe true r) as [|a r']; [reflexivity|].
    now rewrite Hb, Hhead, Hrun.
  - destruct (IH false) as [Hrun _]. split; [|now intros _].
    cbn [noWhiteRun]. destruct (whitespaceDedupe false r) as [|a r']; [reflexivity|].
    now rewrite Hb, Hrun.
  - destruct (IH false) as [Hrun _]. split; [|discriminate].
    cbn [noWhiteRun]. destruct (whitespaceDedupe false r) as [|a r']; [reflexivity|].
    now rewrite Hb, Hrun.
Qed.

Lemma whitespaceDedupe_nonWhite (s : string) :
  forall prevWhite, nonWhite (whitespaceDedupe prevWhite s) = nonWhite s.
Proof.
  induction s as [|b r IH]; intros pw; [reflexivity|].
  cbn [whitespaceDedupe nonWhite].
  destruct (isWhite b) eqn:Hb; destruct pw; cbn [andb nonWhite]; rewrite ?Hb;
    now rewrite IH.
Qed.

Lemma whitespaceDedupe_fixes (s : string) :
  forall prevWhite,
    noWhiteRun s = true ->
    (prevWhite = true -> match s with String a _ => isWhite a = false | EmptyString => True end) ->
    whitespaceDedupe prevWhite s = s.
Proof.
  induction s as [|b r IH]; intros pw Hrun Hhead; [reflexivity|].
  cbn [whitespaceDedupe].
  assert (Hskip : isWhite b && pw = false).
  { destruct pw; [|apply andb_false_r]. now rewrite (Hhead eq_refl). }
  rewrite Hskip. f_equal. cbn [noWhiteRun] in Hrun.
  destruct r as [|a r']; [reflexivity|].
  apply andb_true_iff in Hrun as [Hpair Hrun].
  apply IH; [exact Hrun|].
  intros Hw. rewrite Hw in Hpair. cbn in Hpair. now destruct (isWhite a).
Qed.

Lemma whitespaceDedupe_length (s : string) :
  forall prevWhite, (String.length (whitespaceDedupe prevWhite s) <= String.length s)%nat.
Proof.
  induction s as [|b r IH]; intros pw; [reflexivity|].
  cbn [whitespaceDedupe]. destruct (isWhite b && pw); cbn [String.length].
  - specialize (IH true). lia.
  - specialize (IH (isWhite b)). lia.
Qed.

(** [Transform] into a buffer that is long enough reads all of [src]
    without error.  What it writes has no two white bytes side by side,
    keeps every other byte in its order, is [src] itself when [src] has
    no such pair, and is left as it is by a second [Transform]. *)
Theorem Transform_dedupes (dstLen : nat) (src : string) :
  (String.length src <= dstLen)%nat ->
  exists out,
    Transform dstLen src = (out, String.length src, false)
    /\ noWhiteRun out = true
    /\ nonWhite out = nonWhite src
    /\ (noWhiteRun src = true -> out = src)
    /\ Transform dstLen out = (out, String.length out, false).
Proof.
  intros Hfit. exists (whitespaceDedupe false src).
  destruct (whitespaceDedupe_noWhiteRun src false) as [Hrun _].
  pose proof (whitespaceDedupe_length src false) as Hlen.
  unfold Transform. rewrite !transformFrom_fits by (cbn; lia). cbn [Nat.add].
  repeat split.
  - exact Hrun.
  - apply whitespaceDedupe_nonWhite.
  - intros Hsrc. apply whitespaceDedupe_fixes; [exact Hsrc | discriminate].
  - f_equal. f_equal. apply whitespaceDedupe_fixes; [exact Hrun | discriminate].
Qed.

Lemma Transform_dedupes_witness :
  exists out,
    Transform 16 "a  b c" = (out, String.length "a  b c", false)
    /\ noWhiteRun out = true
    /\ nonWhite out = nonWhite "a  b c"
    /\ (noWhiteRun "a  b c" = true -> out = "a  b c")
    /\ Transform 16 out = (out, String.length out, false).
Proof. apply (Transform_dedupes 16 "a  b c"). cbn. lia. Defined.

(** [Transform] into a buffer shorter than [src] stops with
    [ErrShortDst] after reading as many bytes of [src] as the buffer is
    long, whatever it dropped on the way, and has written the
    deduplication of these bytes. *)
Theorem Transform_short_dst (dstLen : nat) (src : string) :
  (dstLen < String.length src)%nat ->
  Transform dstLen src = (whitespaceDedupe false (strTake dstLen src), dstLen, true).
Proof.
  intros Hshort. unfold Transform.
  rewrite transformFrom_short by lia. now rewrite Nat.sub_0_r.
Qed.

Lemma Transform_short_dst_witness :
  Transform 3 "a  b c" = (whitespaceDedupe false (strTake 3 "a  b c"), 3%nat, true).
Proof. apply (Transform_short_dst 3 "a  b c"). cbn. lia. Defined.

(** ** The entries of a compound index *)

Lemma append_assoc (a b c : string) : (a +:+ b) +:+ c = a +:+ (b +:+ c).
Proof.
  induction a as [|x a IH]; [reflexivity|].
  rewrite !append_cons. now rewrite IH.
Qed.

Lemma hasSep_bar (a b : string) :
  hasSep (a +:+ String "|" b) = hasSep a || hasSep b.
Proof.
  induction a as [|c a IH].
  - rewrite append_nil. cbn [hasSep]. destruct b; reflexivity.
  - rewrite append_cons. destruct a as [|c' a'].
    + rewrite append_nil in *. cbn [hasSep] in *.
      rewrite IH. cbn. now rewrite andb_false_r.
    + rewrite append_cons in *.
      change (hasSep (String c (String c' (a' +:+ String "|" b))))
        with ((bool_decide (c = ":"%char) && bool_decide (c' = ":"%char))
              || hasSep (String c' (a' +:+ String "|" b))).
      rewrite IH.
      change (hasSep (String c (String c' a')))
        with ((bool_decide (c = ":"%char) && bool_decide (c' = ":"%char))
              || hasSep (String c' a')).
      now rewrite orb_assoc.
Qed.

Lemma splitOn2_noSep (s : string) : hasSep s = false -> splitOn2 s = [s].
Proof.
  induction s as [|c r IH]; [reflexivity|].
  destruct r as [|c' r']; [reflexivity|].
  intros Hs.
  change (hasSep (String c (String c' r')))
    with ((bool_decide (c = ":"%char) && bool_decide (c' = ":"%char))
          || hasSep (String c' r')) in Hs.
  apply orb_false_iff in Hs as [Hpair Hrest].
  change (splitOn2 (String c (String c' r')))
    with (if bool_decide (c = ":"%char) && bool_decide (c' = ":"%char)
          then "" :: splitOn2 r'
          else match splitOn2 (String c' r') with
               | [] => [String c ""]
               | h :: t => String c h :: t
               end).
  now rewrite Hpair, (IH Hrest).
Qed.

(** The values before the separator and the id after it are what
    [strings.Split] finds around the one [::]. *)
Lemma splitOn2_entry (sv id : string) :
  hasSep sv = false -> hasSep id = false ->
  splitOn2 (sv +:+ String "|" (String ":" (String ":" id))) = [sv +:+ "|"; id].
Proof.
  intros Hsv Hid. induction sv as [|c r IH].
  - rewrite !append_nil.
    change (splitOn2 (String "|" (String ":" (String ":" id))))
      with (match splitOn2 (String ":" (String ":" id)) with
            | [] => [String "|" ""]
            | h :: t => String "|" h :: t
            end).
    change (splitOn2 (String ":" (String ":" id))) with ("" :: splitOn2 id).
    now rewrite (splitOn2_noSep id Hid).
  - rewrite !append_cons. destruct r as [|c' r'].
    + rewrite !append_nil in *.
      change (splitOn2 (String c (String "|" (String ":" (String ":" id)))))
        with (if bool_decide (c = ":"%char) && bool_decide ("|"%char = ":"%char)
              then "" :: splitOn2 (String ":" (String ":" id))
              else match splitOn2 (String "|" (String ":" (String ":" id))) with
                   | [] => [String c ""]
                   | h :: t => String c h :: t
                   end).
      rewrite (bool_decide_eq_false_2 ("|"%char = ":"%char)) by discriminate.
      rewrite andb_false_r. now rewrite (IH eq_refl).
    + change (hasSep (String c (String c' r')))
        with ((bool_decide (c = ":"%char) && bool_decide (c' = ":"%char))
              || hasSep (String c' r')) in Hsv.
      apply orb_false_iff in Hsv as [Hpair Hrest].
      rewrite append_cons in *.
      change (splitOn2 (String c (String c' (r' +:+ String "|" (String ":" (String ":" id))))))
        with (if bool_decide (c = ":"%char) && bool_decide (c' = ":"%char)
              then "" :: splitOn2 (r' +:+ String "|" (String ":" (String ":" id)))
              else match splitOn2 (String c' (r' +:+ String "|" (String ":" (String ":" id)))) with
                   | [] => [String c ""]
                   | h :: t => String c h :: t
                   end).
      now rewrite Hpair, (IH Hrest).
Qed.

(** What the loop of [entry] returns: nothing when a column has no entry
    in the map, else whether some column has a value other than [nil]. *)
Lemma entryLoop_result (vals : gmap string PValue) (props : list string) :
  forall first validEntry stringVals,
    (Forall (fun p => is_Some (vals !! p)) props ->
     exists sv, entryLoop props vals first validEntry stringVals
                = Some (validEntry
                        || existsb (fun p => match vals !! p with
                                             | Some PNil | None => false
                                             | Some _ => true
                                             end) props, sv))
    /\ (~ Forall (fun p => is_Some (vals !! p)) props ->
        entryLoop props vals first validEntry stringVals = None).
Proof.
  induction props as [|p ps IH]; intros first ve acc.
  - split.
    + intros _. exists acc. cbn. now rewrite orb_false_r.
    + intros Hn. exfalso. apply Hn. constructor.
  - cbn [entryLoop existsb]. destruct (vals !! p) as [v|] eqn:Hp.
    + split.
      * intros Hall. apply Forall_cons_1 in Hall as [_ Hall].
        destruct v.
        -- destruct (proj1 (IH false ve (if first then acc else acc +:+ "|")) Hall) as [sv Hsv].
           exists sv. exact Hsv.
        -- destruct (proj1 (IH false true ((if first then acc else acc +:+ "|") +:+ sprintV (PStr s))) Hall)
             as [sv Hsv].
           exists sv. rewrite Hsv. cbn [orb]. now rewrite orb_true_r.
        -- destruct (proj1 (IH false true ((if first then acc else acc +:+ "|") +:+ sprintV (PBytes b))) Hall)
             as [sv Hsv].
           exists sv. rewrite Hsv. cbn [orb]. now rewrite orb_true_r.
      * intros Hn.
        assert (Hn' : ~ Forall (fun p => is_Some (vals !! p)) ps).
        { intros Hall. apply Hn. constructor; [now rewrite Hp | exact Hall]. }
        destruct v; now apply IH.
    + split; [|reflexivity].
      intros Hall. apply Forall_cons_1 in Hall as [Hsome _].
      rewrite Hp in Hsome. now destruct Hsome.
Qed.

(** The text before the separator holds [::] only if a value does. *)
Lemma entryLoop_noSep (vals : gmap string PValue) (props : list string) :
  (forall p v, p ∈ props -> vals !! p = Some v -> hasSep (sprintV v) = false) ->
  forall first validEntry stringVals b sv,
    (first = true -> stringVals = "") ->
    hasSep stringVals = false ->
    entryLoop props vals first validEntry stringVals = Some (b, sv) ->
    hasSep sv = false.
Proof.
  induction props as [|p ps IH]; intros Hvals first ve acc b sv Hfirst Hacc Hloop.
  - cbn in Hloop. congruence.
  - cbn [entryLoop] in Hloop. destruct (vals !! p) as [v|] eqn:Hp; [|discriminate].
    assert (Hps : forall q w, q ∈ ps -> vals !! q = Some w -> hasSep (sprintV w) = false).
    { intros q w Hq. apply Hvals. now apply list_elem_of_further. }
    pose proof (Hvals p v (list_elem_of_here _ _) Hp) as Hv.
    assert (Hnext : forall t, hasSep t = false ->
                              hasSep ((if first then acc else acc +:+ "|") +:+ t) = false).
    { intros t Ht. destruct first.
      - rewrite (Hfirst eq_refl), append_nil. exact Ht.
      - rewrite append_assoc. change ("|" +:+ t) with (String "|" t).
        rewrite hasSep_bar, Hacc, Ht. reflexivity. }
    destruct v.
    + apply (IH Hps false ve (if first then acc else acc +:+ "|") b sv);
        [discriminate | | exact Hloop].
      specialize (Hnext "" eq_refl).
      destruct first; [now rewrite (Hfirst eq_refl)|].
      rewrite append_assoc in Hnext. exact Hnext.
    + apply (IH Hps false true ((if first then acc else acc +:+ "|") +:+ sprintV (PStr s)) b sv);
        [discriminate | | exact Hloop].
      now apply Hnext.
    + apply (IH Hps false true ((if first then acc else acc +:+ "|") +:+ sprintV (PBytes b0)) b sv);
        [discriminate | | exact Hloop].
      now apply Hnext.
Qed.

(** An entity has an entry in a compound index exactly when the map of
    its prepared values has every column of the index and at least one of
    them is not [nil]; a column that is [nil] beside others leaves an
    empty segment in the entry. *)
Theorem entry_nonempty_iff (i : CompoundIndex) (id : string) (vals : gmap string PValue) :
  entry i id vals <> ""
  <-> (forall p, p ∈ properties i -> is_Some (vals !! p))
      /\ (exists p v, p ∈ properties i /\ vals !! p = Some v /\ v <> PNil).
Proof.
  unfold entry.
  destruct (entryLoop_result vals (properties i) true false "") as [Hyes Hno].
  destruct (decide (Forall (fun p => is_Some (vals !! p)) (properties i))) as [Hall|Hnall].
  - destruct (Hyes Hall) as [sv ->]. cbn [orb].
    destruct (existsb _ (properties i)) eqn:Hex.
    + split.
      * intros _. split; [now apply Forall_forall|].
        apply existsb_exists in Hex as (p & Hin & Hp).
        destruct (vals !! p) as [v|] eqn:Hv; [|discriminate].
        exists p, v. split; [now apply list_elem_of_In|]. split; [exact Hv|].
        intros ->. discriminate.
      * intros _ Hempty. destruct sv; discriminate.
    + split; [congruence|].
      intros (_ & p & v & Hin & Hv & Hnil). exfalso.
      assert (Hex' : existsb (fun p => match vals !! p with
                                       | Some PNil | None => false
                                       | Some _ => true
                                       end) (properties i) = true).
      { apply existsb_exists. exists p. split; [now apply list_elem_of_In|].
        rewrite Hv. now destruct v. }
      congruence.
  - rewrite (Hno Hnall). split; [congruence|].
    intros (Hall & _). exfalso. apply Hnall. now apply Forall_forall.
Qed.

(** The id read from an entry is the id the entry was made for, as long
    as neither the id nor the text of a value holds two colons side by
    side. *)
Theorem extractId_entry (i : CompoundIndex) (id : string) (vals : gmap string PValue) :
  (forall p v, p ∈ properties i -> vals !! p = Some v -> hasSep (sprintV v) = false) ->
  hasSep id = false ->
  entry i id vals <> "" ->
  extractId (entry i id vals) = id.
Proof.
  intros Hvals Hid Hentry. unfold entry in *.
  destruct (entryLoop (properties i) vals true false "") as [[[] sv]|] eqn:Hloop;
    try congruence.
  pose proof (entryLoop_noSep vals (properties i) Hvals true false "" true sv
                (fun _ => eq_refl) eq_refl Hloop) as Hsv.
  change ("|::" +:+ id) with (String "|" (String ":" (String ":" id))).
  unfold extractId. now rewrite splitOn2_entry.
Qed.

Lemma extractId_entry_witness :
  extractId (entry abcIndex "u1"
               (<["A" := PStr "x"]> (<["B" := PNil]> (<["C" := PStr "z"]> ∅)))) = "u1".
Proof.
  apply (extractId_entry abcIndex "u1"
           (<["A" := PStr "x"]> (<["B" := PNil]> (<["C" := PStr "z"]> ∅)))).
  - intros p v Hp Hv. cbn in Hp.
    apply elem_of_cons in Hp as [->|Hp];
      [|apply elem_of_cons in Hp as [->|Hp];
        [|apply elem_of_cons in Hp as [->|Hp]; [|now apply elem_of_nil in Hp]]];
      vm_compute in Hv; injection Hv as <-; reflexivity.
  - reflexivity.
  - vm_compute. discriminate.
Defined.

(** An id with two colons side by side is not read back. *)
Example extractId_of_id_with_separator :
  entry nameIndex "a::b" {[ "name" := PStr "sam" ]} = "sam|::a::b"
  /\ extractId "sam|::a::b" = "".
Proof. split; vm_compute; reflexivity. Qed.

(** ** Matching a compound index under an ordering *)

Lemma found_at_most (filters : query.Filters) (l : list string) :
  NoDup l -> Forall (fun p => is_Some (filters !! p)) l ->
  (length l <= size filters)%nat.
Proof.
  intros Hnd Hall.
  rewrite <- (size_list_to_set (C := gset string) l) by exact Hnd.
  rewrite <- size_dom. apply subseteq_size.
  intros p Hp. apply elem_of_list_to_set in Hp.
  rewrite Forall_forall in Hall. apply elem_of_dom. now apply Hall.
Qed.

(** When the filters include the ordering column, the ordering plays no
    part in the loop. *)
Lemma matchLoop_order_filtered (filters : query.Filters) (order : query.Ordering)
    (props : list string) :
  is_Some (filters !! query.By order) ->
  forall matches expectedMatches,
    matchLoop filters order props matches expectedMatches
    = matchLoop filters query.NoOrder props matches expectedMatches.
Proof.
  intros Hby. induction props as [|p ps IH]; intros m e; [reflexivity|].
  cbn [matchLoop]. destruct (filters !! p) as [f|] eqn:Hp.
  - now rewrite IH.
  - change (query.IsNil query.NoOrder) with true. cbn [negb andb].
    case_bool_decide as Heq; [|now rewrite andb_false_r].
    subst p. rewrite Hp in Hby. now destruct Hby.
Qed.

(** When they do not, every column before the ordering column has to be
    filtered on, and the ordering column counts as matched. *)
Lemma matchLoop_order_unfiltered (filters : query.Filters) (order : query.Ordering)
    (ps : list string) :
  query.IsNil order = false ->
  filters !! query.By order = None ->
  forall done,
    NoDup (done ++ ps ++ [query.By order]) ->
    Forall (fun p => is_Some (filters !! p)) done ->
    matchLoop filters order (ps ++ [query.By order]) (length done) (S (size filters))
    = if bool_decide (Forall (fun p => is_Some (filters !! p)) ps)
      then Some (S (length done + length ps))
      else None.
Proof.
  intros Hnil Hby. induction ps as [|p ps IH]; intros done Hnd Hdone.
  - cbn [app matchLoop]. rewrite Hby, Hnil.
    rewrite bool_decide_eq_true_2 by reflexivity. cbn [negb andb length].
    rewrite bool_decide_eq_true_2 by constructor. now rewrite Nat.add_0_r.
  - cbn [app matchLoop]. destruct (filters !! p) as [f|] eqn:Hp.
    + assert (Hnd' : NoDup ((done ++ [p]) ++ ps ++ [query.By order])).
      { now rewrite <- app_assoc. }
      assert (Hdone' : Forall (fun q => is_Some (filters !! q)) (done ++ [p])).
      { apply Forall_app. split; [exact Hdone|]. constructor; [now rewrite Hp | constructor]. }
      assert (Hcount : (length (done ++ [p]) <= size filters)%nat).
      { apply found_at_most; [|exact Hdone'].
        apply NoDup_app in Hnd' as [Hnd' _]. exact Hnd'. }
      rewrite length_app in Hcount. cbn [length] in Hcount.
      destruct (Nat.eqb_spec (S (length done)) (S (size filters))) as [Heq|_]; [lia|].
      specialize (IH (done ++ [p]) Hnd' Hdone').
      rewrite length_app in IH. cbn [length] in IH.
      replace (length done + 1)%nat with (S (length done)) in IH by lia.
      rewrite IH. cbn [length].
      destruct (decide (Forall (fun q => is_Some (filters !! q)) ps)) as [Hall|Hnall].
      * rewrite !bool_decide_eq_true_2; [f_equal; lia | | exact Hall].
        constructor; [now rewrite Hp | exact Hall].
      * rewrite !bool_decide_eq_false_2; [reflexivity | | exact Hnall].
        intros Hall. apply Hnall. now apply Forall_cons_1 in Hall.
    + rewrite Hnil. cbn [negb andb].
      rewrite bool_decide_eq_false_2.
      * rewrite bool_decide_eq_false_2; [reflexivity|].
        intros Hall. apply Forall_cons_1 in Hall as [Hsome _].
        rewrite Hp in Hsome. now destruct Hsome.
      * intros ->. apply NoDup_app in Hnd as (_ & _ & Hnd).
        apply NoDup_cons in Hnd as [Hnotin _]. apply Hnotin.
        apply elem_of_app. right. apply list_elem_of_here.
Qed.

Lemma last_snoc_inv (props : list string) (b : string) :
  last props = Some b -> exists ps, props = ps ++ [b].
Proof.
  intros Hlast. destruct (decide (props = [])) as [->|Hne]; [discriminate|].
  destruct (exists_last Hne) as (ps & x & ->).
  rewrite last_snoc in Hlast. injection Hlast as ->. now exists ps.
Qed.

(** With an ordering clause, a compound index (with distinct columns)
    matches a query exactly when the ordering column is the last column
    of the index and the filters are on all the other columns, with or
    without one on the ordering column itself, and on no column outside
    the index. *)
Theorem Matches_ordered (i : CompoundIndex) (filters : query.Filters)
    (order : query.Ordering) :
  NoDup (properties i) -> properties i <> [] -> query.IsNil order = false ->
  exists b s,
    Matches i filters order = Ok (b, s)
    /\ (b = true <->
        last (properties i) = Some (query.By order)
        /\ dom filters ∪ {[query.By order]} = (list_to_set (properties i) : gset string)).
Proof.
  intros Hnd Hne Hnil. unfold Matches. rewrite Hnil.
  destruct (last (properties i)) as [lp|] eqn:Hlast.
  2:{ apply last_None in Hlast. congruence. }
  case_bool_decide as Hby.
  2:{ exists false, scoreZero. split; [reflexivity|]. split; [discriminate|].
      intros [Heq _]. congruence. }
  subst lp. destruct (last_snoc_inv _ _ Hlast) as [ps Hprops].
  assert (Hsetprops : (list_to_set (properties i) : gset string)
                      = list_to_set ps ∪ {[query.By order]}).
  { rewrite Hprops, list_to_set_app_L. cbn. now rewrite union_empty_r_L. }
  assert (Hbnot : query.By order ∉ ps).
  { rewrite Hprops in Hnd. apply NoDup_app in Hnd as (_ & Hnd & _).
    intros Hin. apply (Hnd _ Hin). apply list_elem_of_here. }
  assert (Hndps : NoDup ps).
  { rewrite Hprops in Hnd. now apply NoDup_app in Hnd as (Hnd & _). }
  assert (Hlen : length (properties i) = S (length ps)).
  { rewrite Hprops, length_app. cbn. lia. }
  unfold matchWith.
  destruct (filters !! query.By order) as [fby|] eqn:Hfby.
  - (* the ordering column is filtered on *)
    rewrite matchLoop_order_filtered by (now rewrite Hfby).
    assert (Hpos : (0 < size filters)%nat).
    { destruct (size filters) eqn:Hs; [|lia].
      apply map_size_empty_iff in Hs. subst filters. now rewrite lookup_empty in Hfby. }
    assert (Hin : query.By order ∈ dom filters) by (apply elem_of_dom; now rewrite Hfby).
    destruct (Nat.ltb_spec (length (properties i)) (size filters)) as [Hlong|Hfit].
    + exists false, scoreZero. split; [reflexivity|]. split; [discriminate|].
      intros [_ Hdom]. exfalso.
      assert (Heq : dom filters = (list_to_set (properties i) : gset string)).
      { rewrite <- Hdom. apply set_eq. intros x. rewrite elem_of_union, elem_of_singleton.
        split; [tauto|]. intros [Hx| ->]; [exact Hx | exact Hin]. }
      pose proof (f_equal size Heq) as Hsz.
      rewrite size_dom, size_list_to_set in Hsz by exact Hnd. lia.
    + destruct (matchLoop_no_order filters query.NoOrder (size filters) (properties i)
                  eq_refl 0%nat Hpos ltac:(lia)) as [[-> Hall] | [-> Hall]];
        rewrite Nat.sub_0_r in Hall.
      * exists true, (size filters, length (properties i)). split; [reflexivity|].
        split; [intros _ | reflexivity]. split; [reflexivity|].
        assert (Hdom : dom filters
                       = (list_to_set (take (size filters) (properties i)) : gset string)).
        { symmetry. apply set_subseteq_size_eq.
          - intros p Hp. apply elem_of_list_to_set in Hp.
            rewrite Forall_forall in Hall. apply elem_of_dom. now apply Hall.
          - rewrite size_dom.
            rewrite size_list_to_set by (apply NoDup_take; exact Hnd).
            rewrite length_take. lia. }
        assert (Hfull : size filters = length (properties i)).
        { destruct (Nat.eq_dec (size filters) (length (properties i))) as [He|Hn]; [exact He|].
          exfalso. rewrite Hdom in Hin. apply elem_of_list_to_set in Hin.
          rewrite Hprops, take_app_le in Hin by (rewrite Hlen in Hfit; lia).
          apply Hbnot. exact (subseteq_take _ _ _ Hin). }
        rewrite Hfull, firstn_all in Hdom. rewrite <- Hdom.
        apply set_eq. intros x. rewrite elem_of_union, elem_of_singleton.
        split; [|tauto]. intros [Hx| ->]; [exact Hx | exact Hin].
      * exists false, scoreZero. split; [reflexivity|]. split; [discriminate|].
        intros [_ Hdom]. exfalso. apply Hall.
        assert (Heq : dom filters = (list_to_set (properties i) : gset string)).
        { rewrite <- Hdom. apply set_eq. intros x. rewrite elem_of_union, elem_of_singleton.
          split; [tauto|]. intros [Hx| ->]; [exact Hx | exact Hin]. }
        apply Forall_forall. intros p Hp. apply (subseteq_take _ _) in Hp.
        apply elem_of_dom. rewrite Heq. now apply elem_of_list_to_set.
  - (* the ordering column is not filtered on *)
    assert (Hnotin : query.By order ∉ dom filters).
    { intros Hin. apply elem_of_dom in Hin. rewrite Hfby in Hin. now destruct Hin. }
    destruct (Nat.ltb_spec (length (properties i)) (S (size filters))) as [Hlong|Hfit].
    + exists false, scoreZero. split; [reflexivity|]. split; [discriminate|].
      intros [_ Hdom]. exfalso.
      pose proof (f_equal size Hdom) as Hsz.
      rewrite size_union, size_singleton, size_dom, size_list_to_set in Hsz
        by (try exact Hnd; set_solver).
      lia.
    + rewrite Hprops.
      assert (Hloop := matchLoop_order_unfiltered filters order ps Hnil Hfby []).
      cbn [app length Nat.add] in Hloop.
      rewrite Hloop; [| now rewrite <- Hprops | constructor]. clear Hloop.
      destruct (decide (Forall (fun p => is_Some (filters !! p)) ps)) as [Hall|Hnall].
      * rewrite bool_decide_eq_true_2 by exact Hall.
        eexists true, _. split; [reflexivity|].
        split; [intros _ | reflexivity]. split; [reflexivity|].
        rewrite <- Hprops, Hsetprops. f_equal.
        symmetry. apply set_subseteq_size_eq.
        -- intros p Hp. apply elem_of_list_to_set in Hp.
           rewrite Forall_forall in Hall. apply elem_of_dom. now apply Hall.
        -- rewrite size_dom, size_list_to_set by exact Hndps. lia.
      * rewrite bool_decide_eq_false_2 by exact Hnall.
        exists false, scoreZero. split; [reflexivity|]. split; [discriminate|].
        intros [_ Hdom]. exfalso. apply Hnall.
        apply Forall_forall. intros p Hp.
        assert (Hin : p ∈ dom filters ∪ {[query.By order]}).
        { rewrite Hdom, <- Hprops, Hsetprops. apply elem_of_union. left.
          now apply elem_of_list_to_set. }
        apply elem_of_union in Hin as [Hin|Hin]; [now apply elem_of_dom in Hin|].
        apply elem_of_singleton in Hin. subst p. contradiction.
Qed.

Lemma Matches_ordered_witness :
  exists b s,
    Matches abcIndex (NewFilters [Equals "A" (VInt 1); Equals "B" (VInt 2)])
            {| query.By := "C"; query.Ascending := false |} = Ok (b, s)
    /\ (b = true <->
        last (properties abcIndex) = Some "C"
        /\ dom (NewFilters [Equals "A" (VInt 1); Equals "B" (VInt 2)]) ∪ {["C"]}
           = (list_to_set (properties abcIndex) : gset string)).
Proof.
  apply (Matches_ordered abcIndex (NewFilters [Equals "A" (VInt 1); Equals "B" (VInt 2)])
           {| query.By := "C"; query.Ascending := false |}).
  - apply (bool_decide_unpack (NoDup ["A"; "B"; "C"])). vm_compute. exact I.
  - discriminate.
  - reflexivity.
Defined.

(** ** Primary indexes *)

(** [TestPrimary]: the ids of two filters with two values each. *)
Example primary_test_filters :
  @filtersToIds asciiLibs exampleEncoder fullName
    (NewFilters [{| query.Property := "name"; query.Operator := query.In;
                    query.Values := [VText "john"; VText "jane"] |};
                 {| query.Property := "surname"; query.Operator := query.In;
                    query.Values := [VText "doe"; VText "blow"] |}])
  = Ok [VKey "john|doe|"; VKey "john|blow|"; VKey "jane|doe|"; VKey "jane|blow|"].
Proof. vm_compute. reflexivity. Qed.

Lemma contains_elem (l : list string) (p : string) : contains l p = true <-> p ∈ l.
Proof.
  unfold contains. rewrite existsb_exists. split.
  - intros (x & Hin & Heq). apply bool_decide_eq_true in Heq. subst x.
    now apply list_elem_of_In.
  - intros Hin. exists p. split; [now apply list_elem_of_In|].
    now apply bool_decide_eq_true.
Qed.

(** A query that is not a lookup by id matches a compound primary index
    (with distinct columns) exactly when its filters are on the columns
    of the index, all of them and no other; the operators and the
    ordering play no part. *)
Theorem compoundMatches_iff (i : compoundPrimaryIndex) (filters : query.Filters) :
  NoDup (primaryProperties i) -> isIdQuery filters = false ->
  (compoundMatches i filters).1 = true
  <-> dom filters = (list_to_set (primaryProperties i) : gset string).
Proof.
  intros Hnd Hid. unfold compoundMatches. rewrite Hid.
  assert (Hkeys : forallb (fun kv => contains (primaryProperties i) kv.1) (map_to_list filters)
                  = true
                  <-> dom filters ⊆ (list_to_set (primaryProperties i) : gset string)).
  { rewrite forallb_forall. split.
    - intros Hall p Hp. apply elem_of_dom in Hp as [flt Hp].
      apply elem_of_list_to_set. apply contains_elem.
      apply (Hall (p, flt)). apply list_elem_of_In. now apply elem_of_map_to_list.
    - intros Hsub [p flt] Hin. apply list_elem_of_In, elem_of_map_to_list in Hin.
      apply contains_elem. cbn [fst].
      apply (elem_of_list_to_set (C := gset string)). apply Hsub.
      apply elem_of_dom. now exists flt. }
  destruct (Nat.eqb_spec (size filters) (length (primaryProperties i))) as [Hsize|Hsize];
    cbn [negb].
  - destruct (forallb _ (map_to_list filters)); cbn [fst].
    + split; [intros _ | reflexivity].
      apply set_subseteq_size_eq; [now apply Hkeys|].
      rewrite size_dom, size_list_to_set by exact Hnd. lia.
    + split; [discriminate|]. intros Hdom.
      apply Hkeys. now rewrite Hdom.
  - cbn [fst]. split; [discriminate|]. intros Hdom. exfalso. apply Hsize.
    rewrite <- size_dom, Hdom. now apply size_list_to_set.
Qed.

Lemma compoundMatches_iff_witness :
  (compoundMatches fullName
     (NewFilters [Equals "surname" (VText "doe"); Equals "name" (VText "john")])).1 = true
  <-> dom (NewFilters [Equals "surname" (VText "doe"); Equals "name" (VText "john")])
      = (list_to_set (primaryProperties fullName) : gset string).
Proof.
  apply (compoundMatches_iff fullName
           (NewFilters [Equals "surname" (VText "doe"); Equals "name" (VText "john")])).
  - apply (bool_decide_unpack (NoDup ["name"; "surname"])). vm_compute. exact I.
  - vm_compute. reflexivity.
Defined.

Section FiltersToIdsProperties.
Context `{ExternalLibs}.

Lemma generateKey_cons (enc : Encoder) (ent : Entity) (p : string) (ps : list string)
    (v : Value) (key k : string) :
  Properties ent !! p = Some v ->
  generateKey enc (p :: ps) ent key = Ok k ->
  exists pv, prepareValue enc v = Ok pv
             /\ generateKey enc ps ent (key +:+ formatValue pv) = Ok k.
Proof.
  intros Hv Hkey. cbn [generateKey] in Hkey. rewrite Hv in Hkey.
  destruct v; cbv beta iota in Hkey; try discriminate;
    (destruct (prepareValue enc _) as [pv| |]; [|discriminate..];
     rewrite bindR_ok in Hkey; now exists pv).
Qed.

Lemma formatPrepared_ok (enc : Encoder) (v : Value) (pv : PValue) :
  prepareValue enc v = Ok pv -> formatPrepared enc v = Ok (formatValue pv).
Proof. intros Hpv. unfold formatPrepared. now rewrite Hpv. Qed.

Lemma filtersToIdsLoop_single (enc : Encoder) (ent : Entity) (filters : query.Filters)
    (ps : list string) :
  (forall p, p ∈ ps ->
             exists flt v, filters !! p = Some flt /\ query.Values flt = [v]
                           /\ Properties ent !! p = Some v) ->
  forall n key k,
    generateKey enc ps ent key = Ok k ->
    filtersToIdsLoop enc ps filters (S n) [key] = Ok [k].
Proof.
  induction ps as [|p ps IH]; intros Hcols n key k Hkey.
  - cbn in *. congruence.
  - destruct (Hcols p (list_elem_of_here _ _)) as (flt & v & Hflt & Hvals & Hv).
    destruct (generateKey_cons enc ent p ps v key k Hv Hkey) as (pv & Hpv & Hrest).
    cbn [filtersToIdsLoop]. rewrite Hflt, Hvals. cbn [mapMR].
    rewrite (formatPrepared_ok enc v pv Hpv), !bindR_ok. cbn [concat app].
    apply IH; [|exact Hrest].
    intros q Hq. apply Hcols. now apply list_elem_of_further.
Qed.


Lemma mapMR_length {A B : Type} (f : A -> result B) (l : list A) (r : list B) :
  mapMR f l = Ok r -> length r = length l.
Proof.
  revert r. induction l as [|a l IH]; intros r Hr.
  - cbn in Hr. injection Hr as <-. reflexivity.
  - cbn in Hr. destruct (f a) as [b| |]; [|discriminate..]. cbn in Hr.
    destruct (mapMR f l) as [bs| |]; [|discriminate..]. cbn in Hr.
    injection Hr as <-. cbn. now rewrite (IH bs eq_refl).
Qed.

Lemma mapMR_nested_length {A B C : Type} (g : A -> B -> result C) (vals : list B)
    (bufs : list A) (tmp : list (list C)) :
  mapMR (fun buf => mapMR (g buf) vals) bufs = Ok tmp ->
  length (concat tmp) = (length bufs * length vals)%nat.
Proof.
  revert tmp. induction bufs as [|b bufs IH]; intros tmp Htmp.
  - cbn in Htmp. injection Htmp as <-. reflexivity.
  - cbn in Htmp. destruct (mapMR (g b) vals) as [row| |] eqn:Hrow; [|discriminate..].
    cbn in Htmp.
    destruct (mapMR (fun buf => mapMR (g buf) vals) bufs) as [rows| |]; [|discriminate..].
    cbn in Htmp. injection Htmp as <-. cbn [concat length].
    rewrite length_app, (IH rows eq_refl), (mapMR_length _ _ _ Hrow). lia.
Qed.

Lemma filtersToIdsLoop_count (enc : Encoder) (filters : query.Filters) (ps : list string) :
  forall n bufs r,
    filtersToIdsLoop enc ps filters (S n) bufs = Ok r ->
    length r = (length bufs * combinations filters ps)%nat.
Proof.
  induction ps as [|p ps IH]; intros n bufs r Hr.
  - cbn in *. injection Hr as <-. lia.
  - cbn [filtersToIdsLoop combinations fold_right] in *.
    destruct (filters !! p) as [flt|]; [|discriminate].
    destruct (mapMR _ bufs) as [tmp| |] eqn:Htmp; [|discriminate..].
    cbn in Hr. apply IH in Hr. rewrite Hr.
    rewrite (mapMR_nested_length
               (fun buf v => s ← formatPrepared enc v; Ok (buf +:+ s)) _ _ _ Htmp).
    fold (combinations filters ps). lia.
Qed.

(** When [filtersToIds] succeeds on an index with at least one column, it
    returns one id for every combination of one value from each column's
    filter. *)
Theorem filtersToIds_count (enc : Encoder) (i : compoundPrimaryIndex)
    (filters : query.Filters) (ids : list Value) :
  primaryProperties i <> [] ->
  filtersToIds enc i filters = Ok ids ->
  length ids = combinations filters (primaryProperties i).
Proof.
  intros Hne Hids. unfold filtersToIds in Hids.
  destruct (primaryProperties i) as [|p ps]; [congruence|].
  cbn [filtersToIdsLoop combinations fold_right] in *.
  destruct (filters !! p) as [flt|]; [|discriminate].
  destruct (mapMR (formatPrepared enc) (query.Values flt)) as [news| |] eqn:Hnews;
    [|discriminate..].
  cbn in Hids.
  destruct (filtersToIdsLoop enc ps filters 1 news) as [bufs| |] eqn:Hloop; [|discriminate..].
  cbn in Hids. injection Hids as <-.
  rewrite length_fmap, (filtersToIdsLoop_count enc filters ps 0 news bufs Hloop).
  rewrite (mapMR_length _ _ _ Hnews). fold (combinations filters ps). lia.
Qed.

End FiltersToIdsProperties.


Lemma filtersToIds_count_witness :
  length [VKey "john|doe|"; VKey "john|blow|"; VKey "jane|doe|"; VKey "jane|blow|"]
  = combinations
      (NewFilters [{| query.Property := "name"; query.Operator := query.In;
                      query.Values := [VText "john"; VText "jane"] |};
                   {| query.Property := "surname"; query.Operator := query.In;
                      query.Values := [VText "doe"; VText "blow"] |}])
      (primaryProperties fullName).
Proof.
  apply (@filtersToIds_count asciiLibs exampleEncoder fullName).
  - discriminate.
  - vm_compute. reflexivity.
Defined.

(** ** The pipeline of the primary index *)

Lemma primaryLoop_spec (ds : list entityDiff) :
  forall addCmd delCmd,
    primaryLoop (addCmd, delCmd) (Some <$> ds) =
    (add addCmd
       (concat ((fun e => ["0"; e])
                  <$> (diffId <$> List.filter (fun d => negb (isDelete (diffChangeType d))) ds))),
     add delCmd (diffId <$> List.filter (fun d => isDelete (diffChangeType d)) ds)).
Proof.
  induction ds as [|d ds IH]; intros addCmd delCmd.
  - cbn. now rewrite !add_nil.
  - cbn [fmap list_fmap primaryLoop List.filter]. unfold primaryStep.
    change (list_fmap _ _ Some ds) with (Some <$> ds).
    destruct (isDelete (diffChangeType d)); cbn [negb]; rewrite IH.
    + unfold unindexAddEntry. now rewrite add_add.
    + unfold indexAddEntry. change (formatInt 0) with "0". now rewrite add_add.
Qed.

Lemma primaryLoop_nil (ds : list entityDiff) (rest : list (option entityDiff)) :
  forall st, primaryLoop st ((Some <$> ds) ++ None :: rest) = primaryLoop st (Some <$> ds).
Proof.
  induction ds as [|d ds IH]; intros st; [reflexivity|].
  cbn [fmap list_fmap app primaryLoop]. apply IH.
Qed.

(** Fed the diffs of a change set, the pipeline of the primary index
    enqueues one [ZREM] with the ids of the DELETE diffs and then one
    [ZADD] with the ids of all the other diffs, in the order of the diffs,
    each command only if it has an id; a [nil] diff ends the reading and
    what was read before it is enqueued all the same. *)
Theorem primaryPipeline_classifies (t : table) (tx : list redisCommand)
    (ds : list entityDiff) :
  primaryPipeline t tx (Some <$> ds)
  = tx ++ bulkRemove (primaryRedisKey t)
            (diffId <$> List.filter (fun d => isDelete (diffChangeType d)) ds)
       ++ bulkAdd (primaryRedisKey t)
            (diffId <$> List.filter (fun d => negb (isDelete (diffChangeType d))) ds)
  /\ forall rest,
       primaryPipeline t tx ((Some <$> ds) ++ None :: rest)
       = primaryPipeline t tx (Some <$> ds).
Proof.
  unfold primaryPipeline. split.
  - rewrite primaryLoop_spec. apply sendBoth_spec.
  - intros rest. now rewrite primaryLoop_nil.
Qed.

(** ** The hash of a property list *)

Lemma fnvWrite_app (a b : string) : forall h, fnvWrite h (a +:+ b) = fnvWrite (fnvWrite h a) b.
Proof.
  induction a as [|c a IH]; intros h; [reflexivity|].
  rewrite append_cons. cbn [fnvWrite]. apply IH.
Qed.

Lemma hash_strConcat (l : list string) :
  forall h, fold_left fnvWrite l h = fnvWrite h (strConcat l).
Proof.
  induction l as [|s l IH]; intros h; [reflexivity|].
  cbn [fold_left strConcat]. now rewrite IH, fnvWrite_app.
Qed.

(** The hash of a property list is the hash of the names written one
    after the other with nothing in between: two lists whose names
    concatenate to the same text have the same hash. *)
Theorem hash_concat (l1 l2 : list string) :
  strConcat l1 = strConcat l2 -> hash l1 = hash l2.
Proof.
  intros Heq. unfold hash. now rewrite !hash_strConcat, Heq.
Qed.

Lemma hash_concat_witness : hash ["ab"; "c"] = hash ["a"; "bc"].
Proof. apply (hash_concat ["ab"; "c"] ["a"; "bc"]). reflexivity. Defined.

(** ** The indexable properties of a change *)

Lemma contains_app_r (acc : list string) (p : string) :
  contains (acc ++ [p]) p = true.
Proof. apply contains_elem, elem_of_app. right. apply list_elem_of_here. Qed.

Lemma addMissing_elem (more props : list string) (p : string) :
  p ∈ addMissing props more <-> p ∈ props \/ p ∈ more.
Proof.
  unfold addMissing. revert props. induction more as [|m more IH]; intros props.
  - cbn. split; [tauto|]. intros [Hp|Hp]; [exact Hp | now apply elem_of_nil in Hp].
  - cbn [fold_left]. rewrite IH. rewrite elem_of_cons.
    destruct (contains props m) eqn:Hm.
    + apply contains_elem in Hm. split; [tauto|].
      intros [Hp|[->|Hp]]; tauto.
    + rewrite elem_of_app, list_elem_of_singleton. tauto.
Qed.

Lemma addMissing_NoDup (more props : list string) :
  NoDup props -> NoDup (addMissing props more).
Proof.
  unfold addMissing. revert props. induction more as [|m more IH]; intros props Hnd.
  - exact Hnd.
  - cbn [fold_left]. apply IH. destruct (contains props m) eqn:Hm; [exact Hnd|].
    apply NoDup_app. split; [exact Hnd|]. split; [|apply NoDup_singleton].
    intros x Hx Hx'. apply list_elem_of_singleton in Hx'. subst x.
    apply contains_elem in Hx. congruence.
Qed.

(** The properties read before a change are the columns of the primary
    index and, for every change in it, the columns of every index that the
    changed property is a column of; for a DELETE, the columns of every
    index.  Beyond the columns of the primary index no property comes
    twice. *)
Theorem computeIndexable_spec (t : table) (rc : entityChange) :
  (forall p,
      p ∈ computeIndexable t rc
      <-> p ∈ primaryProps t
          \/ exists idx ch,
               idx ∈ indexes t /\ ch ∈ changes rc /\ p ∈ properties idx
               /\ (isDelete (rcChangeType rc) = true
                   \/ query.ChangeProperty ch ∈ properties idx))
  /\ (NoDup (primaryProps t) -> NoDup (computeIndexable t rc)).
Proof.
  unfold computeIndexable.
  set (step := fun (ch : query.Change) (props : list string) (idx : CompoundIndex) =>
                 if isDelete (rcChangeType rc) then addMissing props (properties idx)
                 else if MatchesProperties idx [query.ChangeProperty ch]
                      then addMissing props (properties idx)
                      else props).
  assert (Hinner : forall ch idxs props p,
             p ∈ fold_left (step ch) idxs props
             <-> p ∈ props
                 \/ exists idx, idx ∈ idxs /\ p ∈ properties idx
                                /\ (isDelete (rcChangeType rc) = true
                                    \/ query.ChangeProperty ch ∈ properties idx)).
  { intros ch idxs. induction idxs as [|idx idxs IH]; intros props p.
    - cbn. split; [tauto|]. intros [Hp|(idx & Hin & _)]; [exact Hp|].
      now apply elem_of_nil in Hin.
    - cbn [fold_left]. rewrite IH. unfold step.
      assert (Hm : MatchesProperties idx [query.ChangeProperty ch] = true
                   <-> query.ChangeProperty ch ∈ properties idx).
      { unfold MatchesProperties. cbn [forallb]. rewrite andb_true_r. apply contains_elem. }
      split.
      + intros [Hp|(idx' & Hin & Hp & Hc)].
        * destruct (isDelete (rcChangeType rc)) eqn:Hd.
          -- apply addMissing_elem in Hp as [Hp|Hp]; [now left|].
             right. exists idx. split; [apply list_elem_of_here|]. split; [exact Hp|]. now left.
          -- destruct (MatchesProperties idx [query.ChangeProperty ch]) eqn:Hmp; [|now left].
             apply addMissing_elem in Hp as [Hp|Hp]; [now left|].
             right. exists idx. split; [apply list_elem_of_here|]. split; [exact Hp|].
             right. now apply Hm.
        * right. exists idx'. split; [now apply list_elem_of_further|]. now split.
      + intros [Hp|(idx' & Hin & Hp & Hc)].
        * left. destruct (isDelete (rcChangeType rc)); [apply addMissing_elem; now left|].
          destruct (MatchesProperties idx [query.ChangeProperty ch]);
            [apply addMissing_elem; now left | exact Hp].
        * apply elem_of_cons in Hin as [->|Hin].
          -- left. destruct Hc as [Hd|Hc].
             ++ rewrite Hd. apply addMissing_elem. now right.
             ++ destruct (isDelete (rcChangeType rc)); [apply addMissing_elem; now right|].
                apply Hm in Hc. rewrite Hc. apply addMissing_elem. now right.
          -- right. exists idx'. now repeat split. }
  assert (Hinner_nd : forall ch idxs props,
             NoDup props -> NoDup (fold_left (step ch) idxs props)).
  { intros ch idxs. induction idxs as [|idx idxs IH]; intros props Hnd; [exact Hnd|].
    cbn [fold_left]. apply IH. unfold step.
    destruct (isDelete (rcChangeType rc)); [now apply addMissing_NoDup|].
    destruct (MatchesProperties idx _); [now apply addMissing_NoDup | exact Hnd]. }
  change (fold_left (fun props ch => fold_left (step ch) (indexes t) props)
                    (changes rc) (primaryProps t))
    with (fold_left (fun props ch => fold_left (step ch) (indexes t) props)
                    (changes rc) (primaryProps t)).
  generalize (primaryProps t) as props0. generalize (changes rc) as chs.
  intros chs. induction chs as [|ch chs IH]; intros props0.
  - cbn. split; [|tauto]. intros p. split; [tauto|].
    intros [Hp|(idx & ch & _ & Hin & _)]; [exact Hp | now apply elem_of_nil in Hin].
  - cbn [fold_left]. destruct (IH (fold_left (step ch) (indexes t) props0)) as [IHin IHnd].
    split.
    + intros p. etransitivity; [apply IHin|]. rewrite Hinner. split.
      * intros [[Hp|(idx & Hin & Hp & Hc)]|(idx & ch' & Hin & Hch & Hp & Hc)].
        -- now left.
        -- right. exists idx, ch. split; [exact Hin|]. split; [apply list_elem_of_here|].
           now split.
        -- right. exists idx, ch'. split; [exact Hin|].
           split; [now apply list_elem_of_further|]. now split.
      * intros [Hp|(idx & ch' & Hin & Hch & Hp & Hc)]; [now left; left|].
        apply elem_of_cons in Hch as [->|Hch].
        -- left. right. exists idx. now repeat split.
        -- right. exists idx, ch'. now repeat split.
    + intros Hnd. apply IHnd. now apply Hinner_nd.
Qed.

(** ** Change sets that cannot be written *)

Section ExecuteProperties.
Context `{ExternalLibs}.

Lemma executeLoop_failure (enc : Encoder) (t : table) (chs : list entityChange) :
  (exists rc, rc ∈ chs /\ isOk (commands enc rc) = false) ->
  forall cache tx results,
    isOk (executeLoop enc t chs cache tx results).2 = false.
Proof.
  induction chs as [|rc chs IH]; intros (bad & Hin & Hbad) cache tx results.
  - now apply elem_of_nil in Hin.
  - cbn [executeLoop].
    destruct (indexableProperties t rc cache) as [indexable cache1].
    destruct (match indexable with
              | [] => (tx, results)
              | _ :: _ => _
              end) as [tx1 results1].
    destruct (commands enc rc) as [cmds| |] eqn:Hcmds; [|reflexivity..].
    apply IH. apply elem_of_cons in Hin as [->|Hin].
    + rewrite Hcmds in Hbad. discriminate.
    + now exists bad.
Qed.

(** A change set in which the commands of one change cannot be built (an
    operation the driver does not carry out, a value that cannot be
    encoded, a time to live that is no duration) is refused as a whole:
    [Execute] fails and nothing is sent to Redis, not even the changes
    that come before the one at fault. *)
Theorem Execute_refuses_whole_set (enc : Encoder) (c : changeSet) (w : World) :
  (exists rc, rc ∈ csChanges c /\ isOk (commands enc rc) = false) ->
  store (Execute enc c w).1 = store w /\ isOk (Execute enc c w).2 = false.
Proof.
  intros Hbad. unfold Execute.
  pose proof (executeLoop_failure enc (csTable c) (csChanges c) Hbad (propCache w) [] [])
    as Hfail.
  destruct (executeLoop enc (csTable c) (csChanges c) (propCache w) [] []) as [cache r].
  destruct r as [[tx results]| |]; [discriminate|split; reflexivity..].
Qed.

Lemma putLoop_compound (enc : Encoder) (t : table) (i : compoundPrimaryIndex)
    (entities : list Entity) :
  primary t = compoundPrimary i ->
  forall w ret cs w' ret' cs',
    putLoop enc t entities w ret cs = (w', Ok (ret', cs')) ->
    w' = w
    /\ exists ids, ret' = ret ++ ids
                   /\ Forall2 (fun ent id => GenerateId enc i ent = Ok id) entities ids.
Proof.
  intros Hprim. induction entities as [|ent ents IH]; intros w ret cs w' ret' cs' Hput.
  - cbn in Hput. injection Hput as <- <- <-. split; [reflexivity|].
    exists []. split; [now rewrite app_nil_r | constructor].
  - cbn [putLoop] in Hput. unfold generateId in Hput. rewrite Hprim in Hput.
    destruct (GenerateId enc i ent) as [id| |] eqn:Hid; [|discriminate..].
    apply IH in Hput as (-> & ids & -> & Hall). split; [reflexivity|].
    exists (id :: ids). split; [now rewrite <- app_assoc|]. now constructor.
Qed.

(** On a table with a compound primary index, the ids a successful [Put]
    returns are the ids [GenerateId] computes from the entities, one for
    each entity and in their order, whatever ids the entities came with. *)
Theorem Put_returns_generated_ids (enc : Encoder) (t : table) (i : compoundPrimaryIndex)
    (entities : list Entity) (w w' : World) (ids : list string) :
  primary t = compoundPrimary i ->
  Put enc t entities w = (w', Ok ids) ->
  Forall2 (fun ent id => GenerateId enc i ent = Ok id) entities ids.
Proof.
  intros Hprim Hput. unfold Put in Hput.
  destruct (putLoop enc t entities w [] []) as [w1 [[ret cs]| |]] eqn:Hloop;
    [|discriminate..].
  destruct (putLoop_compound enc t i entities Hprim w [] [] w1 ret cs Hloop)
    as (_ & ids' & -> & Hall).
  destruct (Execute enc {| csTable := t; csChanges := cs |} w1) as [w2 [n| |]];
    [|discriminate..].
  injection Hput as _ <-. exact Hall.
Qed.

End ExecuteProperties.

Lemma Execute_refuses_whole_set_witness :
  store (@Execute asciiLibs exampleEncoder
           {| csTable := usersTable;
              csChanges := [renameUser; unsupportedChange] |} threeSams).1
  = store threeSams
  /\ isOk (@Execute asciiLibs exampleEncoder
             {| csTable := usersTable;
                csChanges := [renameUser; unsupportedChange] |} threeSams).2 = false.
Proof.
  apply (@Execute_refuses_whole_set asciiLibs exampleEncoder
           {| csTable := usersTable; csChanges := [renameUser; unsupportedChange] |}
           threeSams).
  exists unsupportedChange. split.
  - apply list_elem_of_further, list_elem_of_here.
  - vm_compute. reflexivity.
Defined.

Lemma Put_returns_generated_ids_witness :
  Forall2 (fun ent id => @GenerateId asciiLibs exampleEncoder fullName ent = Ok id)
          [johnDoe] ["john|doe|"].
Proof.
  apply (@Put_returns_generated_ids asciiLibs exampleEncoder peopleTable fullName
           [johnDoe] emptyWorld onePerson ["john|doe|"]).
  - reflexivity.
  - vm_compute. reflexivity.
Defined.

(** ** What a lookup does to the store *)

Lemma lexRange_invalid (d : Redis.db) (k smin smax : string) (opt : list string) (rev : bool) :
  Redis.parseLex smin = None ->
  Redis.lexRange d k smin smax opt rev
  = Redis.RError "ERR min or max not valid string range item".
Proof. intros Hmin. unfold Redis.lexRange. now rewrite Hmin. Qed.

Section FindStore.
Context `{ExternalLibs}.

(** [Find] on a compound index only reads: whatever the query and
    whatever comes back, the store is left as it was. *)
Theorem Find_reads_only (enc : Encoder) (i : CompoundIndex) (d : Redis.db)
    (filters : query.Filters) (offset limit : Z) (order : query.Ordering) :
  (Find enc i d filters offset limit order).1 = d.
Proof.
  unfold Find.
  destruct (rangeKeys enc i filters order) as [[rs re]| |]; [|reflexivity..].
  set (cmd := if 0 <? limit then _ else _).
  assert (Hcmd : exists a b opt,
             cmd = newRedisCommand "ZRANGEBYLEX" (RedisKey i :: a :: b :: opt)
             \/ cmd = newRedisCommand "ZREVRANGEBYLEX" (RedisKey i :: a :: b :: opt)).
  { subst cmd. unfold findCommand.
    destruct (negb (query.IsNil order) && negb (query.Ascending order)), (0 <? limit);
      do 3 eexists; (left; reflexivity) || (right; reflexivity). }
  destruct Hcmd as (a & b & opt & [-> | ->]);
    unfold batchExecute; cbn [runAll command args newRedisCommand take];
    rewrite ?exec_ZRANGEBYLEX, ?exec_ZREVRANGEBYLEX, exec_ZLEXCOUNT;
    cbn [fst snd];
    match goal with
    | |- context [existsb Redis.isError ?l] => destruct (existsb Redis.isError l)
    end; reflexivity.
Qed.

(** A query that has no filter on the first column of the index gets no
    range: [rangeKeys] returns two empty bounds, Redis refuses them, and
    [Find] returns the error instead of ids. *)
Theorem Find_without_leading_filter (enc : Encoder) (i : CompoundIndex) (d : Redis.db)
    (filters : query.Filters) (offset limit : Z) (order : query.Ordering) :
  (forall p, head (properties i) = Some p -> filters !! p = None) ->
  rangeKeys enc i filters order = Ok ("", "")
  /\ Find enc i d filters offset limit order = (d, Err "Redis error").
Proof.
  intros Hhead.
  assert (Hrk : rangeKeys enc i filters order = Ok ("", "")).
  { unfold rangeKeys. destruct (properties i) as [|p ps]; [reflexivity|].
    cbn [rangeLoop]. now rewrite (Hhead p eq_refl). }
  split; [exact Hrk|]. unfold Find. rewrite Hrk.
  set (cmd := if 0 <? limit then _ else _).
  assert (Hcmd : exists opt,
             cmd = newRedisCommand "ZRANGEBYLEX" (RedisKey i :: "" :: "" :: opt)
             \/ cmd = newRedisCommand "ZREVRANGEBYLEX" (RedisKey i :: "" :: "" :: opt)).
  { subst cmd. unfold findCommand.
    destruct (negb (query.IsNil order) && negb (query.Ascending order)), (0 <? limit);
      eexists; (left; reflexivity) || (right; reflexivity). }
  destruct Hcmd as (opt & [-> | ->]);
    unfold batchExecute; cbn [runAll command args newRedisCommand take];
    rewrite ?exec_ZRANGEBYLEX, ?exec_ZREVRANGEBYLEX, exec_ZLEXCOUNT;
    rewrite lexRange_invalid by reflexivity; reflexivity.
Qed.

End FindStore.

Lemma Find_without_leading_filter_witness :
  @rangeKeys asciiLibs exampleEncoder abcIndex (NewFilters [Equals "B" (VInt 2)])
             query.NoOrder = Ok ("", "")
  /\ @Find asciiLibs exampleEncoder abcIndex (store threeSams)
           (NewFilters [Equals "B" (VInt 2)]) 0 10 query.NoOrder
     = (store threeSams, Err "Redis error").
Proof.
  apply (@Find_without_leading_filter asciiLibs exampleEncoder abcIndex (store threeSams)
           (NewFilters [Equals "B" (VInt 2)]) 0 10 query.NoOrder).
  intros p Hp. injection Hp as <-. reflexivity.
Defined.

(** ** Read repair of the primary index *)

Lemma filter_filter {A : Type} (f g : A -> bool) (l : list A) :
  List.filter f (List.filter g l) = List.filter (fun x => g x && f x) l.
Proof.
  induction l as [|x l IH]; [reflexivity|].
  cbn [List.filter]. destruct (g x); cbn [List.filter andb]; [|exact IH].
  destruct (f x); now rewrite IH.
Qed.

Lemma filter_ext_bool {A : Type} (f g : A -> bool) (l : list A) :
  (forall x, f x = g x) -> List.filter f l = List.filter g l.
Proof.
  intros Hfg. induction l as [|x l IH]; [reflexivity|].
  cbn [List.filter]. now rewrite Hfg, IH.
Qed.

Lemma zremove_all (ms z : list string) :
  fold_left (fun z m => Redis.zremove m z) ms z
  = List.filter (fun x => negb (existsb (strEq x) ms)) z.
Proof.
  revert z. induction ms as [|m ms IH]; intros z.
  - cbn. induction z as [|x z IHz]; [reflexivity|]. cbn. now rewrite <- IHz.
  - cbn [fold_left]. rewrite IH. unfold Redis.zremove. rewrite filter_filter.
    apply filter_ext_bool. intros x. cbn [existsb]. now rewrite negb_orb.
Qed.

Lemma exec_ZREM (d : Redis.db) (k m : string) (ms : list string) :
  Redis.exec d "ZREM" (k :: m :: ms)
  = match Redis.asZSet d k with
    | None => (d, Redis.wrongType)
    | Some z =>
        let z' := fold_left (fun z m => Redis.zremove m z) (m :: ms) z in
        (if Redis.hasKey d k then Redis.putZSet d k z' else d,
         Redis.RInt (Z.of_nat (length z) - Z.of_nat (length z')))
    end.
Proof. reflexivity. Qed.

Lemma asZSet_putZSet (d : Redis.db) (k : string) (z : list string) :
  Redis.asZSet (Redis.putZSet d k z) k = Some z.
Proof.
  unfold Redis.asZSet, Redis.putZSet. destruct z as [|x z]; cbn.
  - now rewrite lookup_delete_eq.
  - now rewrite lookup_insert_eq.
Qed.

Lemma keys_putZSet_ne (d : Redis.db) (k k' : string) (z : list string) :
  k' <> k -> Redis.keys (Redis.putZSet d k z) !! k' = Redis.keys d !! k'.
Proof.
  intros Hne. unfold Redis.putZSet. destruct z as [|x z]; cbn.
  - now rewrite lookup_delete_ne.
  - now rewrite lookup_insert_ne.
Qed.

(** [find] repairs the primary index as it reads: every id that was asked
    for and has no row is taken out of the primary set; the other members
    of the set and all the other keys of the store stay as they were. *)
Theorem find_read_repair (t : table) (d : Redis.db) (ids : list Value) (z : list string) :
  Forall (fun id => is_Some (asKey id)) ids ->
  Redis.asZSet d (primaryRedisKey t) = Some z ->
  exists d' found total,
    find t d ids = (d', Ok (found, total))
    /\ Redis.asZSet d' (primaryRedisKey t)
       = Some (List.filter
                 (fun m => negb (existsb (strEq m)
                                   (List.filter
                                      (fun k => negb (Redis.hasKey d (idKey t k)))
                                      ((fun id => default "" (asKey id)) <$> ids))))
                 z)
    /\ (forall k, k <> primaryRedisKey t -> Redis.keys d' !! k = Redis.keys d !! k).
Proof.
  intros Hids Hz. unfold find. rewrite (exists_commands t ids Hids).
  set (asked := (fun id => default "" (asKey id)) <$> ids).
  unfold batchExecute. rewrite runAll_exists.
  cbn [runAll command args newRedisCommand fst snd].
  rewrite exec_ZCARD, Hz. cbn [fst snd].
  rewrite no_error_in_exists.
  pose proof (findLoop_exists t d (Z.of_nat (length z)) asked [] [] [] 0) as Hloop.
  cbn [app length] in Hloop. rewrite Hloop. cbn [app].
  destruct (List.filter (fun k => negb (Redis.hasKey d (idKey t k))) asked)
    as [|m ms] eqn:Hmissing.
  - do 3 eexists. split; [reflexivity|]. split; [|reflexivity].
    rewrite Hz. f_equal. cbn [existsb negb].
    clear. induction z as [|x z IH]; [reflexivity|]. cbn. now rewrite <- IH.
  - do 3 eexists. split; [reflexivity|].
    rewrite exec_ZREM, Hz. cbn [fst]. rewrite zremove_all.
    destruct (Redis.hasKey d (primaryRedisKey t)) eqn:Hhas.
    + split; [apply asZSet_putZSet|]. intros k Hk. now apply keys_putZSet_ne.
    + split; [|reflexivity].
      unfold Redis.hasKey in Hhas. unfold Redis.asZSet in *.
      destruct (Redis.keys d !! primaryRedisKey t); [discriminate|].
      injection Hz as <-. reflexivity.
Qed.

Lemma find_read_repair_witness :
  exists d' found total,
    find usersTable (store threeSams) [VKey "u1"; VKey "u9"] = (d', Ok (found, total))
    /\ Redis.asZSet d' (primaryRedisKey usersTable)
       = Some (List.filter
                 (fun m => negb (existsb (strEq m)
                                   (List.filter
                                      (fun k => negb (Redis.hasKey (store threeSams)
                                                        (idKey usersTable k)))
                                      ((fun id => default "" (asKey id))
                                         <$> [VKey "u1"; VKey "u9"]))))
                 ["u1"; "u2"; "u3"])
    /\ (forall k, k <> primaryRedisKey usersTable ->
                  Redis.keys d' !! k = Redis.keys (store threeSams) !! k).
Proof.
  apply (find_read_repair usersTable (store threeSams) [VKey "u1"; VKey "u9"]
           ["u1"; "u2"; "u3"]).
  - repeat constructor; eexists; reflexivity.
  - vm_compute. reflexivity.
Defined.

(** ** Numbers that Redis increments *)

Lemma string2ll_formatInt (i : Z) :
  - 2 ^ 63 <= i < 2 ^ 63 -> Redis.string2ll (formatInt i) = Some i.
Proof.
  intros Hi. unfold formatInt. destruct (Z.ltb_spec i 0) as [Hneg|Hpos].
  - destruct (formatUint_head (- i) ltac:(lia)) as (d & r & Heq & Hd & Hnz).
    pose proof (formatUint_parse (- i) ltac:(lia)) as Hparse.
    specialize (Hnz ltac:(lia)).
    assert (Hz : digitChar d <> "0"%char).
    { intros Hc. apply (f_equal byteVal) in Hc. rewrite digitChar_val in Hc by lia.
      change (byteVal "0") with 48 in Hc. lia. }
    change (Redis.string2ll (String "-" (formatUint (- i))) = Some i).
    unfold Redis.string2ll.
    rewrite bool_decide_eq_true_2 by reflexivity.
    rewrite Heq, (bool_decide_eq_false_2 _ Hz), <- Heq, Hparse.
    destruct (Z.leb_spec (- i) (2 ^ 63)); [f_equal; lia | lia].
  - apply string2ll_formatUint. lia.
Qed.

Section StoredNumbers.
Context `{ExternalLibs}.

(** An Integer is stored as the decimal text Redis itself computes with,
    so the [HINCRBY] that the driver sends for an increment leaves in the
    row the encoding of the sum, which decodes to the sum. *)
Theorem Increment_on_stored_integer (enc : Encoder) (t : table) (id prop : string)
    (d : Redis.db) (h : gmap string string) (i delta : Z) :
  - 2 ^ 63 <= i < 2 ^ 63 -> - 2 ^ 63 <= delta < 2 ^ 63 ->
  - 2 ^ 63 <= i + delta < 2 ^ 63 ->
  Redis.asHash d (idKey t id) = Some h ->
  (exists s, Encode enc (VInt i) = Ok s /\ h !! prop = Some s) ->
  exists cmd d' s',
    commands enc (newEntityChange t id changeUpdate
                    [{| query.ChangeProperty := prop; query.ChangeValue := VInt delta;
                        query.Op := query.OpIncrement |}]) = Ok [cmd]
    /\ Redis.exec d (command cmd) (args cmd) = (d', Redis.RInt (i + delta))
    /\ Redis.asHash d' (idKey t id) = Some (<[prop := s']> h)
    /\ Encode enc (VInt (i + delta)) = Ok s'
    /\ Decode s' = Ok (VInt (i + delta)).
Proof.
  intros Hi Hdelta Hsum Hh (s & Hs & Hprop).
  cbn [Encode] in Hs. injection Hs as <-. unfold encodeInt in Hprop.
  exists (newRedisCommand "HINCRBY" [idKey t id; prop; formatInt delta]).
  exists (Redis.setKey d (idKey t id) (Redis.RHash (<[prop := formatInt (i + delta)]> h))).
  exists (formatInt (i + delta)).
  split; [reflexivity|]. split.
  - cbn [command args newRedisCommand].
    change (Redis.exec d "HINCRBY" [idKey t id; prop; formatInt delta])
      with (match Redis.string2ll (formatInt delta), Redis.asHash d (idKey t id) with
            | None, _ => (d, Redis.notInteger)
            | _, None => (d, Redis.wrongType)
            | Some incr, Some h =>
                match (match h !! prop with
                       | Some v => Redis.string2ll v
                       | None => Some 0
                       end) with
                | None => (d, Redis.RError "ERR hash value is not an integer")
                | Some old =>
                    let new := old + incr in
                    if (new <? - 2 ^ 63) || (2 ^ 63 <=? new)
                    then (d, Redis.RError "ERR increment or decrement would overflow")
                    else (Redis.setKey d (idKey t id)
                            (Redis.RHash (<[prop := formatInt new]> h)),
                          Redis.RInt new)
                end
            end).
    rewrite (string2ll_formatInt delta Hdelta), Hh, Hprop, (string2ll_formatInt i Hi).
    cbn zeta.
    destruct (Z.ltb_spec (i + delta) (- 2 ^ 63)); [lia|].
    destruct (Z.leb_spec (2 ^ 63) (i + delta)); [lia|]. reflexivity.
  - split; [|split; [reflexivity|]].
    + unfold Redis.asHash, Redis.setKey. cbn [Redis.keys]. now rewrite lookup_insert_eq.
    + rewrite Decode_formatInt. unfold decodeNumber.
      now rewrite ParseInt_formatInt.
Qed.

(** [Decode] still reads the tagged numbers that [Encode] does not write:
    [i] and [u] before a decimal give an Integer and an Unsigned of any
    size in range, and [t] before a decimal the Timestamp of that
    second. *)
Theorem Decode_tagged_numbers (i u : Z) :
  - 2 ^ 63 <= i < 2 ^ 63 -> 0 <= u < 2 ^ 64 ->
  Decode (String IntPrefix (formatInt i)) = Ok (VInt i)
  /\ Decode (String UintPrefix (formatInt u)) = Ok (VUint u)
  /\ Decode (String TimestampPrefix (formatInt i)) = Ok (VTimestamp i 0).
Proof.
  intros Hi Hu. repeat split.
  - change (Decode (String IntPrefix (formatInt i))) with (decodeInt (formatInt i)).
    unfold decodeInt. now rewrite ParseInt_formatInt.
  - change (Decode (String UintPrefix (formatInt u))) with (decodeUint (formatInt u)).
    unfold decodeUint, formatInt. destruct (Z.ltb_spec u 0); [lia|].
    now rewrite ParseUint_formatUint.
  - change (Decode (String TimestampPrefix (formatInt i)))
      with (decodeTimestamp (formatInt i)).
    unfold decodeTimestamp. now rewrite ParseInt_formatInt.
Qed.

End StoredNumbers.

Lemma Increment_on_stored_integer_witness :
  exists cmd d' s',
    @commands asciiLibs exampleEncoder
      (newEntityChange usersTable "u1" changeUpdate
         [{| query.ChangeProperty := "age"; query.ChangeValue := VInt (-3);
             query.Op := query.OpIncrement |}]) = Ok [cmd]
    /\ Redis.exec (Redis.putHash Redis.empty "test.Users:u1" {[ "age" := "33" ]})
                  (command cmd) (args cmd) = (d', Redis.RInt (33 + -3))
    /\ Redis.asHash d' (idKey usersTable "u1")
       = Some (<["age" := s']> ({[ "age" := "33" ]} : gmap string string))
    /\ @Encode asciiLibs exampleEncoder (VInt (33 + -3)) = Ok s'
    /\ @Decode asciiLibs s' = Ok (VInt (33 + -3)).
Proof.
  apply (@Increment_on_stored_integer asciiLibs exampleEncoder usersTable "u1" "age"
           (Redis.putHash Redis.empty "test.Users:u1" {[ "age" := "33" ]})
           {[ "age" := "33" ]} 33 (-3)); try lia.
  - vm_compute. reflexivity.
  - exists "33". split; vm_compute; reflexivity.
Defined.

Lemma Decode_tagged_numbers_witness :
  @Decode asciiLibs (String IntPrefix (formatInt (-7))) = Ok (VInt (-7))
  /\ @Decode asciiLibs (String UintPrefix (formatInt 7)) = Ok (VUint 7)
  /\ @Decode asciiLibs (String TimestampPrefix (formatInt (-7))) = Ok (VTimestamp (-7) 0).
Proof. apply (@Decode_tagged_numbers asciiLibs (-7) 7); lia. Defined.

(** ** The range of a query with equality filters *)

Lemma strLt_nil_r (s : string) : strLt s "" = false.
Proof. now destruct s. Qed.

(** The range from [pre] included to [pre] followed by the byte [0xff]
    excluded holds the members that start with [pre], but for those that
    go on with the byte [0xff]. *)
Lemma inLexRange_prefix (pre m : string) :
  Redis.inLexRange (Redis.LexIncl pre)
                   (Redis.LexExcl (pre +:+ String (byteOf 255) "")) m
  = inPrefixRange pre m.
Proof.
  unfold Redis.inLexRange, Redis.aboveMin, Redis.belowMax, strLe, inPrefixRange.
  revert m. induction pre as [|c p IH]; intros m.
  - rewrite strLt_nil_r, append_nil. cbn [negb andb startsWith String.length strDrop].
    destruct m as [|x r]; [reflexivity|].
    rewrite strLt_cons, strLt_nil_r, andb_false_r, orb_false_r.
    cbn [headIs255]. rewrite byteVal_byteOf by lia.
    pose proof (byteVal_range x).
    destruct (Z.ltb_spec (byteVal x) 255), (Z.eqb_spec (byteVal x) 255); try reflexivity; lia.
  - rewrite append_cons. destruct m as [|x r]; [reflexivity|].
    rewrite !strLt_cons. cbn [startsWith String.length strDrop].
    destruct (Z.lt_trichotomy (byteVal x) (byteVal c)) as [Hlt|[Heq|Hgt]].
    + rewrite (proj2 (Z.ltb_lt _ _) Hlt). cbn [orb negb andb].
      rewrite bool_decide_eq_false_2; [reflexivity|]. intros ->. lia.
    + apply byteVal_inj in Heq. subst x.
      rewrite Z.ltb_irrefl, Z.eqb_refl. cbn [orb andb].
      rewrite bool_decide_eq_true_2 by reflexivity. cbn [andb]. apply IH.
    + destruct (Z.ltb_spec (byteVal x) (byteVal c)); [lia|].
      destruct (Z.eqb_spec (byteVal x) (byteVal c)); [lia|]. cbn [orb andb negb].
      rewrite bool_decide_eq_false_2; [reflexivity|]. intros ->. lia.
Qed.

Lemma inPrefixRange_app (pre r : string) :
  headIs255 r = false -> inPrefixRange pre (pre +:+ r) = true.
Proof.
  intros Hr. unfold inPrefixRange. induction pre as [|c p IH].
  - rewrite append_nil. cbn. now rewrite Hr.
  - rewrite append_cons. cbn [startsWith String.length strDrop].
    now rewrite bool_decide_eq_true_2 by reflexivity.
Qed.

Lemma append_nil_r (s : string) : s +:+ "" = s.
Proof. induction s as [|c s IH]; [reflexivity|]. now rewrite append_cons, IH. Qed.

Lemma headIs255_app (a b : string) :
  headIs255 (a +:+ b) = match a with EmptyString => headIs255 b | _ => headIs255 a end.
Proof. destruct a; [now rewrite append_nil | now rewrite append_cons]. Qed.

(** After the first column, what the loop of [entry] adds is nothing or
    starts with the separator. *)
Lemma entryLoop_tail (vals : gmap string PValue) (props : list string) :
  forall validEntry acc b sv,
    entryLoop props vals false validEntry acc = Some (b, sv) ->
    exists tail, sv = acc +:+ tail /\ headIs255 (tail +:+ "|") = false.
Proof.
  induction props as [|p ps IH]; intros ve acc b sv Hloop.
  - cbn in Hloop. injection Hloop as _ <-. exists "". now rewrite append_nil_r.
  - cbn [entryLoop] in Hloop. destruct (vals !! p) as [v|]; [|discriminate].
    destruct v.
    + apply IH in Hloop as (tail & -> & _).
      exists ("|" +:+ tail). split; [now rewrite append_assoc | reflexivity].
    + apply IH in Hloop as (tail & -> & _).
      exists ("|" +:+ (sprintV (PStr s) +:+ tail)).
      split; [now rewrite !append_assoc | reflexivity].
    + apply IH in Hloop as (tail & -> & _).
      exists ("|" +:+ (sprintV (PBytes b0) +:+ tail)).
      split; [now rewrite !append_assoc | reflexivity].
Qed.

Section RangeProperties.
Context `{ExternalLibs}.

(** The bounds that equality filters give. *)
Lemma rangeLoop_equalities (enc : Encoder) (filters : query.Filters)
    (order : query.Ordering) (props : list string) :
  (forall p f, p ∈ props -> filters !! p = Some f -> isEquality enc f) ->
  exists k,
    (forall p, head props = Some p -> is_Some (filters !! p) -> (0 < k)%nat)
    /\ forall startVals endVals n,
         rangeLoop enc filters order props startVals endVals n 0
         = Ok (startVals +:+ filterPrefix enc filters props,
               endVals +:+ filterPrefix enc filters props, (n + k)%nat).
Proof.
  induction props as [|p ps IH]; intros Hgood.
  - exists 0%nat. split; [discriminate|]. intros sa ea n. cbn.
    now rewrite !append_nil_r, Nat.add_0_r.
  - destruct (filters !! p) as [f|] eqn:Hp.
    + destruct (Hgood p f (list_elem_of_here _ _) Hp) as (Hop & v & rest & pv & Hvals & Hpv).
      destruct IH as (k & _ & IH).
      { intros q g Hq. apply Hgood. now apply list_elem_of_further. }
      exists (S k). split; [lia|]. intros sa ea n.
      cbn [rangeLoop filterPrefix]. rewrite Hp, Hop, Hvals, Hpv.
      change (strEq query.Eq query.Eq) with true.
      change (0 <? 0)%nat with false. cbv iota. rewrite bindR_ok. cbv zeta.
      rewrite IH. rewrite !append_assoc. f_equal. f_equal. lia.
    + exists 0%nat. split.
      * intros q Hq Hsome. injection Hq as <-. rewrite Hp in Hsome. now destruct Hsome.
      * intros sa ea n. cbn [rangeLoop filterPrefix]. rewrite Hp.
        now rewrite !append_nil_r, Nat.add_0_r.
Qed.

Lemma rangeKeys_equalities (enc : Encoder) (i : CompoundIndex) (filters : query.Filters)
    (order : query.Ordering) :
  (exists p, head (properties i) = Some p /\ is_Some (filters !! p)) ->
  (forall p f, p ∈ properties i -> filters !! p = Some f -> isEquality enc f) ->
  rangeKeys enc i filters order
  = Ok (String "[" (filterPrefix enc filters (properties i)),
        String "(" (filterPrefix enc filters (properties i) +:+ String (byteOf 255) "")).
Proof.
  intros (p & Hhead & Hsome) Hgood. unfold rangeKeys.
  destruct (rangeLoop_equalities enc filters order (properties i) Hgood) as (k & Hk & ->).
  specialize (Hk p Hhead Hsome). rewrite bindR_ok.
  destruct (Nat.ltb_spec 0 (0 + k)); [reflexivity | lia].
Qed.

(** The entry of an entity whose values are those of the filters starts
    with the text of the filters. *)
Lemma entryLoop_filterPrefix (enc : Encoder) (filters : query.Filters)
    (vals : gmap string PValue) (props : list string) :
  (forall p f, p ∈ props -> filters !! p = Some f -> equalsColumn enc vals p f) ->
  (forall p v, vals !! p = Some v -> headIs255 (sprintV v) = false) ->
  forall first validEntry acc b sv,
    entryLoop props vals first validEntry acc = Some (b, sv) ->
    exists rest,
      sv +:+ "|"
      = (if first then acc else acc +:+ "|") +:+ filterPrefix enc filters props +:+ rest
      /\ forall t, headIs255 (rest +:+ String ":" t) = false.
Proof.
  intros Hgood Hvals. induction props as [|p ps IH]; intros first ve acc b sv Hloop.
  - cbn in Hloop. injection Hloop as _ <-. cbn [filterPrefix].
    destruct first.
    + exists "|". split; [now rewrite append_nil | reflexivity].
    + exists "". split; [now rewrite append_nil, append_nil_r | reflexivity].
  - cbn [entryLoop] in Hloop. destruct (vals !! p) as [v|] eqn:Hv; [|discriminate].
    assert (Hps : forall q g, q ∈ ps -> filters !! q = Some g -> equalsColumn enc vals q g).
    { intros q g Hq. apply Hgood. now apply list_elem_of_further. }
    cbn [filterPrefix]. destruct (filters !! p) as [f|] eqn:Hp.
    + destruct (Hgood p f (list_elem_of_here _ _) Hp)
        as (Hop & v0 & vs & pv & Hvalues & Hpv & Hnil & Hpvals).
      rewrite Hv in Hpvals. injection Hpvals as ->.
      rewrite Hvalues, Hpv.
      assert (Hnext : entryLoop ps vals false true
                        ((if first then acc else acc +:+ "|") +:+ sprintV pv) = Some (b, sv)).
      { destruct pv; [congruence | exact Hloop | exact Hloop]. }
      destruct (IH Hps false true _ b sv Hnext) as (rest & Heq & Hrest).
      exists rest. split; [|exact Hrest].
      rewrite Heq. now rewrite !append_assoc.
    + assert (Hcases : exists ve' s,
                 entryLoop ps vals false ve' ((if first then acc else acc +:+ "|") +:+ s)
                 = Some (b, sv)
                 /\ headIs255 s = false).
      { destruct v.
        - exists ve, "". split; [now rewrite append_nil_r | reflexivity].
        - exists true, (sprintV (PStr s)). split; [exact Hloop|]. now apply (Hvals p).
        - exists true, (sprintV (PBytes b0)). split; [exact Hloop|]. now apply (Hvals p). }
      destruct Hcases as (ve' & s & Hnext & Hs).
      destruct (entryLoop_tail vals ps ve' _ b sv Hnext) as (tail & -> & Htail).
      exists (s +:+ tail +:+ "|"). split; [now rewrite append_nil, !append_assoc|].
      intros t. rewrite !headIs255_app.
      destruct s; [|exact Hs].
      rewrite headIs255_app in Htail. destruct tail; [reflexivity | exact Htail].
Qed.

(** The range of a query by equalities, read as a prefix. *)
Lemma Find_equalities_range (enc : Encoder) (i : CompoundIndex) (d : Redis.db)
    (filters : query.Filters) (order : query.Ordering) (z : list string) :
  query.IsNil order || query.Ascending order = true ->
  (exists p, head (properties i) = Some p /\ is_Some (filters !! p)) ->
  (forall p f, p ∈ properties i -> filters !! p = Some f -> isEquality enc f) ->
  Redis.asZSet d (RedisKey i) = Some z ->
  Find enc i d filters 0 (-1) order
  = (d, Ok (extractId
              <$> List.filter (inPrefixRange (filterPrefix enc filters (properties i))) z,
            Z.of_nat (length (List.filter
                                (inPrefixRange (filterPrefix enc filters (properties i)))
                                z)))).
Proof.
  intros Hasc Hhead Hgood Hz.
  apply Find_unlimited with
    (rangeStart := String "[" (filterPrefix enc filters (properties i)))
    (rangeEnd := String "(" (filterPrefix enc filters (properties i)
                             +:+ String (byteOf 255) "")).
  - exact Hasc.
  - now apply rangeKeys_equalities.
  - unfold inRange.
    change (Redis.parseLex (String "[" (filterPrefix enc filters (properties i))))
      with (Some (Redis.LexIncl (filterPrefix enc filters (properties i)))).
    change (Redis.parseLex (String "(" ?s)) with (Some (Redis.LexExcl s)).
    rewrite Hz. f_equal. apply filter_ext_bool. intros m. apply inLexRange_prefix.
Qed.

(** With equality filters on the leading columns of the index, [Find]
    without a limit returns the ids of the members of the index that
    start with the text of the filter values, in the order of the index,
    except for the members that go on with the byte [0xff], and counts
    them as the total.  A filter on a column after the first column
    without a filter is not looked at. *)
Theorem Find_by_equalities (enc : Encoder) (i : CompoundIndex) (d : Redis.db)
    (filters : query.Filters) (order : query.Ordering) (z : list string) :
  query.IsNil order || query.Ascending order = true ->
  (exists p, head (properties i) = Some p /\ is_Some (filters !! p)) ->
  (forall p f, p ∈ properties i -> filters !! p = Some f -> isEquality enc f) ->
  Redis.asZSet d (RedisKey i) = Some z ->
  Find enc i d filters 0 (-1) order
  = (d, Ok (extractId
              <$> List.filter (inPrefixRange (filterPrefix enc filters (properties i))) z,
            Z.of_nat (length (List.filter
                                (inPrefixRange (filterPrefix enc filters (properties i)))
                                z)))).
Proof.
  intros Hasc Hhead Hgood Hz.
  exact (Find_equalities_range enc i d filters order z Hasc Hhead Hgood Hz).
Qed.

(** An entity is found by its index entry: when the filters are
    equalities on the values the entity has in the leading columns of the
    index, none of them [nil], and no value of the entity starts with the
    byte [0xff], [Find] without a limit returns the id read from the
    entry of the entity. *)
Theorem Find_finds_entry (enc : Encoder) (i : CompoundIndex) (d : Redis.db)
    (filters : query.Filters) (order : query.Ordering) (id : string)
    (vals : gmap string PValue) (z : list string) :
  query.IsNil order || query.Ascending order = true ->
  (exists p, head (properties i) = Some p /\ is_Some (filters !! p)) ->
  (forall p f, p ∈ properties i -> filters !! p = Some f -> equalsColumn enc vals p f) ->
  (forall p v, vals !! p = Some v -> headIs255 (sprintV v) = false) ->
  Redis.asZSet d (RedisKey i) = Some z ->
  entry i id vals <> "" -> entry i id vals ∈ z ->
  exists ids total,
    Find enc i d filters 0 (-1) order = (d, Ok (ids, total))
    /\ extractId (entry i id vals) ∈ ids.
Proof.
  intros Hasc Hhead Hgood Hvals Hz Hne Hin.
  assert (Heqs : forall p f, p ∈ properties i -> filters !! p = Some f -> isEquality enc f).
  { intros p f Hp Hf. destruct (Hgood p f Hp Hf) as (Hop & v & rest & pv & Hv & Hpv & _).
    split; [exact Hop|]. now exists v, rest, pv. }
  do 2 eexists. split; [exact (Find_equalities_range enc i d filters order z Hasc Hhead Heqs Hz)|].
  apply list_elem_of_fmap. exists (entry i id vals). split; [reflexivity|].
  apply list_elem_of_In, filter_In. split; [now apply list_elem_of_In|].
  unfold entry in *.
  destruct (entryLoop (properties i) vals true false "") as [[[] sv]|] eqn:Hloop;
    try congruence.
  destruct (entryLoop_filterPrefix enc filters vals (properties i) Hgood Hvals
              true false "" true sv Hloop) as (rest & Heq & Hrest).
  rewrite append_nil in Heq.
  change (sv +:+ "|::" +:+ id) with (sv +:+ ("|" +:+ String ":" (String ":" id))).
  rewrite <- append_assoc, Heq, append_assoc.
  apply inPrefixRange_app. apply Hrest.
Qed.

End RangeProperties.

Lemma namedSam_equality (p : string) (f : query.Filter) :
  p ∈ properties nameIndex -> namedSam !! p = Some f ->
  @equalsColumn asciiLibs exampleEncoder {[ "name" := PStr "sam" ]} p f.
Proof.
  intros Hp Hf. cbn in Hp.
  apply elem_of_cons in Hp as [->|Hp]; [|now apply elem_of_nil in Hp].
  vm_compute in Hf. injection Hf as <-.
  split; [reflexivity|].
  exists (VText "sam"), [], (PStr "sam").
  split; [reflexivity|]. split; [vm_compute; reflexivity|].
  split; [discriminate | vm_compute; reflexivity].
Qed.

Lemma Find_by_equalities_witness :
  @Find asciiLibs exampleEncoder nameIndex (store threeSams) namedSam 0 (-1) query.NoOrder
  = (store threeSams,
     Ok (extractId
           <$> List.filter
                 (inPrefixRange (@filterPrefix asciiLibs exampleEncoder namedSam
                                   (properties nameIndex)))
                 ["sam|::u1"; "sam|::u2"; "sam|::u3"],
         Z.of_nat (length (List.filter
                             (inPrefixRange (@filterPrefix asciiLibs exampleEncoder namedSam
                                               (properties nameIndex)))
                             ["sam|::u1"; "sam|::u2"; "sam|::u3"])))).
Proof.
  apply (@Find_by_equalities asciiLibs exampleEncoder nameIndex (store threeSams) namedSam
           query.NoOrder ["sam|::u1"; "sam|::u2"; "sam|::u3"]).
  - reflexivity.
  - exists "name". split; [reflexivity|]. vm_compute. eexists. reflexivity.
  - intros p f Hp Hf.
    destruct (namedSam_equality p f Hp Hf) as (Hop & v & rest & pv & Hv & Hpv & _).
    split; [exact Hop|]. now exists v, rest, pv.
  - vm_compute. reflexivity.
Defined.

Lemma Find_finds_entry_witness :
  exists ids total,
    @Find asciiLibs exampleEncoder nameIndex (store threeSams) namedSam 0 (-1) query.NoOrder
    = (store threeSams, Ok (ids, total))
    /\ extractId (entry nameIndex "u2" {[ "name" := PStr "sam" ]}) ∈ ids.
Proof.
  apply (@Find_finds_entry asciiLibs exampleEncoder nameIndex (store threeSams) namedSam
           query.NoOrder "u2" {[ "name" := PStr "sam" ]}
           ["sam|::u1"; "sam|::u2"; "sam|::u3"]).
  - reflexivity.
  - exists "name". split; [reflexivity|]. vm_compute. eexists. reflexivity.
  - apply namedSam_equality.
  - intros p v Hv. apply lookup_singleton_Some in Hv as [_ <-]. reflexivity.
  - vm_compute. reflexivity.
  - vm_compute. discriminate.
  - apply list_elem_of_further, list_elem_of_here.
Defined.

(** ** Loading entities *)

Example load_after_put :
  @load asciiLibs peopleTable (store onePerson) ["john|doe|"; "jane|doe|"] []
  = Ok [{| Id := "john|doe|";
           Properties := <["name" := VText "john"]> (<["surname" := VText "doe"]>
                           (<["email" := VText "john@doe.org"]> ∅));
           TTL := 0 |}]
  /\ mapR (fmap Properties)
          (@load asciiLibs peopleTable (store onePerson) ["john|doe|"; "jane|doe|"] ["name"])
     = Ok [{[ "name" := VText "john" ]}; ∅].
Proof. split; vm_compute; reflexivity. Qed.

Section LoadProperties.
Context `{ExternalLibs}.

(** One pass of [readEntity] over the fields of a row. *)
Lemma readPairs_fold (l : list (string * string)) :
  (forall fv, fv ∈ l -> Decode fv.2 <> Panic) ->
  forall acc,
    readPairs (concat ((fun fv : string * string => [Redis.RBulk fv.1; Redis.RBulk fv.2])
                         <$> l)) acc
    = Ok (fold_left
            (fun acc (fv : string * string) =>
               if strEq fv.1 IdKey then acc
               else match decoded fv.2 with
                    | Some v => <[fv.1 := v]> acc
                    | None => acc
                    end)
            l acc).
Proof.
  induction l as [|[k data] l IH]; intros Hsafe acc; [reflexivity|].
  cbn [fmap list_fmap concat app readPairs fold_left fst snd].
  change (list_fmap _ _ ?f l) with (f <$> l).
  assert (Hl : forall fv, fv ∈ l -> Decode fv.2 <> Panic).
  { intros fv Hfv. apply Hsafe. now apply list_elem_of_further. }
  destruct (strEq k IdKey); [now apply IH|].
  pose proof (Hsafe (k, data) (list_elem_of_here _ _)) as Hd. cbn [snd] in Hd.
  unfold decoded. destruct (Decode data); [now apply IH | now apply IH | congruence].
Qed.

Lemma fold_decoded (l : list (string * string)) :
  NoDup l.*1 ->
  forall acc,
    fold_left
      (fun acc (fv : string * string) =>
         if strEq fv.1 IdKey then acc
         else match decoded fv.2 with
              | Some v => <[fv.1 := v]> acc
              | None => acc
              end)
      l acc
    = omap decoded (delete IdKey (list_to_map l : gmap string string)) ∪ acc.
Proof.
  induction l as [|[k data] l IH]; intros Hnd acc.
  - cbn. rewrite delete_empty, omap_empty. now rewrite (left_id_L ∅ (∪)).
  - cbn [fmap list_fmap fst] in Hnd. apply NoDup_cons in Hnd as [Hk Hnd].
    cbn [fold_left fst snd list_to_map foldr]. rewrite (IH Hnd).
    assert (Hnone : (list_to_map l : gmap string string) !! k = None).
    { now apply not_elem_of_list_to_map_1. }
    unfold strEq. case_bool_decide as Hid.
    + subst k. now rewrite delete_insert_eq.
    + rewrite delete_insert_ne by congruence.
      assert (Hnone' : omap decoded (delete IdKey (list_to_map l : gmap string string)) !! k
                       = None).
      { rewrite lookup_omap, lookup_delete_ne by congruence. now rewrite Hnone. }
      rewrite omap_insert. destruct (decoded data) as [v|].
      * now rewrite <- insert_union_r, insert_union_l by exact Hnone'.
      * now rewrite (delete_id _ k Hnone').
Qed.

(** What [load] makes of one row. *)
Lemma loadOne_row (t : table) (d : Redis.db) (id : string) :
  (forall z, Redis.keys d !! idKey t id <> Some (Redis.RZSet z)) ->
  (forall h f data, Redis.keys d !! idKey t id = Some (Redis.RHash h) ->
                    h !! f = Some data -> Decode data <> Panic) ->
  Redis.isError (loadReply t d [] id) = false
  /\ loadOne [] id (loadReply t d [] id) = Ok (rowEntity t d id).
Proof.
  intros Hnz Hsafe. unfold loadReply, hgetall, rowEntity, Redis.asHash.
  destruct (Redis.keys d !! idKey t id) as [[h|z]|] eqn:Hkey.
  - split; [reflexivity|]. unfold loadOne. cbn [replyValues default]. unfold Datatypes.id.
    change (0 <? length (@nil string))%nat with false. cbn [andb].
    case_bool_decide as Hempty.
    + subst h. now rewrite map_to_list_empty.
    + assert (Hlen : (1 <? length (concat ((fun fv : string * string =>
                                              [Redis.RBulk fv.1; Redis.RBulk fv.2])
                                             <$> map_to_list h)))%nat = true).
      { destruct (map_to_list h) as [|fv l] eqn:Hl; [|reflexivity].
        apply map_to_list_empty_iff in Hl. contradiction. }
      rewrite Hlen. unfold readEntity.
      rewrite readPairs_fold.
      * rewrite fold_decoded by apply NoDup_fst_map_to_list.
        rewrite list_to_map_to_list, (right_id_L ∅ (∪)). reflexivity.
      * intros [f data] Hin. apply elem_of_map_to_list in Hin.
        exact (Hsafe h f data eq_refl Hin).
  - now specialize (Hnz z).
  - split; [reflexivity|]. unfold loadOne. now rewrite map_to_list_empty.
Qed.

Lemma load_rows_aux (t : table) (d : Redis.db) (ids : list string) :
  (forall id z, id ∈ ids -> Redis.keys d !! idKey t id <> Some (Redis.RZSet z)) ->
  (forall id h f data, id ∈ ids -> Redis.keys d !! idKey t id = Some (Redis.RHash h) ->
                       h !! f = Some data -> Decode data <> Panic) ->
  load t d ids [] = Ok (omap (rowEntity t d) ids).
Proof.
  intros Hnz Hsafe. unfold load.
  assert (Hrows : forall id, id ∈ ids ->
             Redis.isError (loadReply t d [] id) = false
             /\ loadOne [] id (loadReply t d [] id) = Ok (rowEntity t d id)).
  { intros id Hid. apply loadOne_row; [intros z; now apply Hnz | intros h f data; now apply Hsafe]. }
  clear Hnz Hsafe.
  assert (Herr : existsb Redis.isError (loadReply t d [] <$> ids) = false).
  { induction ids as [|id ids IH]; [reflexivity|].
    cbn [fmap list_fmap existsb].
    rewrite (proj1 (Hrows id (list_elem_of_here _ _))). cbn [orb].
    apply IH. intros id' Hid'. apply Hrows. now apply list_elem_of_further. }
  rewrite Herr.
  assert (Hmap : mapMR (fun ir : string * Redis.reply => loadOne [] ir.1 ir.2)
                       (zip ids (loadReply t d [] <$> ids))
                 = Ok (rowEntity t d <$> ids)).
  { clear Herr. induction ids as [|id ids IH]; [reflexivity|].
    cbn [fmap list_fmap zip zip_with mapMR fst snd].
    rewrite (proj2 (Hrows id (list_elem_of_here _ _))), bindR_ok.
    change (list_fmap _ _ ?f ids) with (f <$> ids).
    change (zip_with pair ids (loadReply t d [] <$> ids))
      with (zip ids (loadReply t d [] <$> ids)).
    rewrite IH; [reflexivity|].
    intros id' Hid'. apply Hrows. now apply list_elem_of_further. }
  rewrite Hmap. unfold mapR, bindR. f_equal.
  clear. induction ids as [|id ids IH]; [reflexivity|].
  cbn [fmap list_fmap omap list_omap]. destruct (rowEntity t d id); cbn; now rewrite <- IH.
Qed.

(** [load] without a list of properties returns, in the order of the
    ids, one entity for every id that has a row, ids without a row being
    left out: the entity has the id and the fields of the row that
    decode, the field [id] apart.  (No key of an id holds a sorted set,
    and no field holds bytes on which [Decode] panics.) *)
Theorem load_rows (t : table) (d : Redis.db) (ids : list string) :
  (forall id z, id ∈ ids -> Redis.keys d !! idKey t id <> Some (Redis.RZSet z)) ->
  (forall id h f data, id ∈ ids -> Redis.keys d !! idKey t id = Some (Redis.RHash h) ->
                       h !! f = Some data -> Decode data <> Panic) ->
  load t d ids [] = Ok (omap (rowEntity t d) ids).
Proof. apply load_rows_aux. Qed.

End LoadProperties.

Lemma oneRow_keys (id : string) :
  id ∈ ["u1"; "u2"] ->
  (id = "u1" /\ Redis.keys oneRow !! idKey usersTable id
                = Some (Redis.RHash {[ "age" := "33" ]}))
  \/ (id = "u2" /\ Redis.keys oneRow !! idKey usersTable id = None).
Proof.
  intros Hid.
  apply elem_of_cons in Hid as [->|Hid];
    [left|apply elem_of_cons in Hid as [->|Hid]; [right|now apply elem_of_nil in Hid]];
    (split; [reflexivity | vm_compute; reflexivity]).
Qed.

Lemma load_rows_witness :
  @load asciiLibs usersTable oneRow ["u1"; "u2"] []
  = Ok (omap (@rowEntity asciiLibs usersTable oneRow) ["u1"; "u2"]).
Proof.
  apply (@load_rows asciiLibs usersTable oneRow ["u1"; "u2"]).
  - intros id z Hid Hk.
    destruct (oneRow_keys id Hid) as [[-> Hrow]|[-> Hrow]]; rewrite Hrow in Hk; discriminate.
  - intros id h f data Hid Hk Hf.
    destruct (oneRow_keys id Hid) as [[-> Hrow]|[-> Hrow]]; rewrite Hrow in Hk;
      [|discriminate].
    injection Hk as <-. apply lookup_singleton_Some in Hf as [_ <-].
    vm_compute. discriminate.
Defined.

Example load_rows_example :
  @load asciiLibs usersTable oneRow ["u1"; "u2"] []
  = Ok [{| Id := "u1"; Properties := {[ "age" := VInt 33 ]}; TTL := 0 |}].
Proof. vm_compute. reflexivity. Qed.

(** ** The row that [Put] writes *)

Lemma pairUp_flatten (pairs : list (string * string)) :
  Redis.pairUp (concat ((fun p : string * string => [p.1; p.2]) <$> pairs)) = Some pairs.
Proof.
  induction pairs as [|[k v] pairs IH]; [reflexivity|].
  cbn [fmap list_fmap concat app Redis.pairUp fst snd].
  change (list_fmap _ _ ?f pairs) with (f <$> pairs). now rewrite IH.
Qed.

Lemma fold_insert_pairs (pairs : list (string * string)) :
  NoDup pairs.*1 ->
  forall h : gmap string string,
    fold_left (fun h (fv : string * string) => <[fv.1 := fv.2]> h) pairs h
    = list_to_map pairs ∪ h.
Proof.
  induction pairs as [|[k v] pairs IH]; intros Hnd h.
  - cbn. now rewrite (left_id_L ∅ (∪)).
  - cbn [fmap list_fmap fst] in Hnd. apply NoDup_cons in Hnd as [Hk Hnd].
    cbn [fold_left fst snd list_to_map foldr]. rewrite (IH Hnd).
    rewrite <- insert_union_l.
    now rewrite insert_union_r by (now apply not_elem_of_list_to_map_1).
Qed.

Lemma exec_HMSET (d : Redis.db) (k : string) (pairs : list (string * string))
    (h : gmap string string) :
  pairs <> [] -> Redis.asHash d k = Some h ->
  Redis.exec d "HMSET" (k :: concat ((fun p : string * string => [p.1; p.2]) <$> pairs))
  = (Redis.setKey d k
       (Redis.RHash (fold_left (fun h (fv : string * string) => <[fv.1 := fv.2]> h) pairs h)),
     Redis.RStatus "OK").
Proof.
  intros Hne Hh. destruct pairs as [|[f v] pairs]; [congruence|].
  pose proof (pairUp_flatten ((f, v) :: pairs)) as Hpu.
  cbn [fmap list_fmap concat app fst snd] in *.
  change (list_fmap _ _ ?g pairs) with (g <$> pairs) in *.
  change (Redis.exec d "HMSET"
            (k :: f :: v :: concat ((fun p : string * string => [p.1; p.2]) <$> pairs)))
    with (match Redis.pairUp (f :: v :: concat ((fun p : string * string => [p.1; p.2])
                                                  <$> pairs)),
                Redis.asHash d k with
          | None, _ => (d, Redis.wrongArity)
          | _, None => (d, Redis.wrongType)
          | Some ps, Some h =>
              (Redis.setKey d k
                 (Redis.RHash (fold_left (fun h (fv : string * string) => <[fv.1 := fv.2]> h)
                                         ps h)),
               Redis.RStatus "OK")
          end).
  now rewrite Hpu, Hh.
Qed.

Lemma exec_HMGET_store (d : Redis.db) (k f : string) (fs : list string) :
  (Redis.exec d "HMGET" (k :: f :: fs)).1 = d.
Proof.
  change (Redis.exec d "HMGET" (k :: f :: fs))
    with (match Redis.asHash d k with
          | None => (d, Redis.wrongType)
          | Some h =>
              (d, Redis.RArray ((fun f => match h !! f with
                                          | Some v => Redis.RBulk v
                                          | None => Redis.RNull
                                          end) <$> (f :: fs)))
          end).
  now destruct (Redis.asHash d k).
Qed.

Section PutRow.
Context `{ExternalLibs}.

Lemma commandsLoop_sets (enc : Encoder) (key : string) (kvs : list (string * Value)) :
  forall hmset ret,
    commandsLoop enc key ((fun kv : string * Value => query.Set_ kv.1 kv.2) <$> kvs) hmset ret
    = pairs ← mapMR (storedPair enc) kvs;
      Ok (inr (add hmset (concat ((fun p : string * string => [p.1; p.2]) <$> pairs)), ret)).
Proof.
  induction kvs as [|[k v] kvs IH]; intros hmset ret.
  - cbn. now rewrite add_nil.
  - cbn [fmap list_fmap commandsLoop mapMR query.Op query.Set_ query.ChangeValue
           query.ChangeProperty fst snd].
    change (list_fmap _ _ ?f kvs) with (f <$> kvs).
    change (storedPair enc (k, v))
      with (match Encode enc v with
            | Ok s => Ok (k, s)
            | Err _ => Err "Could not encode changeset"
            | Panic => Panic
            end).
    destruct (Encode enc v) as [s| |]; [|reflexivity..].
    rewrite IH, bindR_ok.
    destruct (mapMR (storedPair enc) kvs) as [pairs| |]; [|reflexivity..].
    rewrite !bindR_ok. cbn [fmap list_fmap concat fst snd].
    change (list_fmap _ _ ?f pairs) with (f <$> pairs).
    now rewrite add_add.
Qed.

End PutRow.

Lemma exec_index_frame (d : Redis.db) (c : redisCommand) (ks : list string) (key : string) :
  isIndexCommand ks c -> key ∉ ks ->
  Redis.keys (Redis.exec d (command c) (args c)).1 !! key = Redis.keys d !! key.
Proof.
  intros [Hcmd (k & rest & Hargs & Hk)] Hkey.
  assert (Hne : key <> k) by (intros ->; contradiction).
  rewrite Hargs. destruct rest as [|m ms].
  - destruct Hcmd as [-> | ->]; reflexivity.
  - destruct Hcmd as [-> | ->].
    + change (Redis.exec d "ZADD" (k :: m :: ms))
        with (match Redis.pairUp (m :: ms), Redis.asZSet d k with
              | None, _ => (d, Redis.RError "ERR syntax error")
              | _, None => (d, Redis.wrongType)
              | Some ps, Some z =>
                  if forallb (fun sm : string * string => strEq sm.1 "0") ps then
                    let z' := fold_left (fun z (sm : string * string) =>
                                           Redis.zinsert sm.2 z) ps z in
                    (Redis.putZSet d k z',
                     Redis.RInt (Z.of_nat (length z') - Z.of_nat (length z)))
                  else (d, Redis.RError "ERR a score other than 0")
              end).
      destruct (Redis.pairUp (m :: ms)) as [ps|], (Redis.asZSet d k) as [z|];
        try reflexivity.
      destruct (forallb _ ps); [|reflexivity].
      cbn [fst]. now apply keys_putZSet_ne.
    + rewrite exec_ZREM. destruct (Redis.asZSet d k) as [z|]; [|reflexivity].
      cbn [fst]. destruct (Redis.hasKey d k); [|reflexivity].
      now apply keys_putZSet_ne.
Qed.

Lemma runAll_index_frame (ks : list string) (key : string) (cmds : list redisCommand) :
  Forall (isIndexCommand ks) cmds -> key ∉ ks ->
  forall d, Redis.keys (runAll d cmds).1 !! key = Redis.keys d !! key.
Proof.
  intros Hall Hkey. induction Hall as [|c cmds Hc _ IH]; intros d; [reflexivity|].
  cbn [runAll].
  pose proof (exec_index_frame d c ks key Hc Hkey) as Hstep.
  destruct (Redis.exec d (command c) (args c)) as [d1 r]. cbn [fst] in Hstep.
  specialize (IH d1). destruct (runAll d1 cmds) as [d2 rs]. cbn [fst] in *.
  now rewrite IH.
Qed.

Lemma bulk_isIndexCommand (ks : list string) (key : string) (tx : list redisCommand)
    (adds dels : list string) :
  key ∈ ks -> Forall (isIndexCommand ks) tx ->
  Forall (isIndexCommand ks) (tx ++ bulkRemove key dels ++ bulkAdd key adds).
Proof.
  intros Hk Htx. apply Forall_app. split; [exact Htx|]. apply Forall_app. split.
  - destruct dels as [|e es]; [constructor|]. apply Forall_singleton.
    split; [now right|]. now exists key, (e :: es).
  - destruct adds as [|e es]; [constructor|]. apply Forall_singleton.
    split; [now left|]. now eexists key, _.
Qed.

Lemma Pipeline_isIndexCommand (ks : list string) (i : CompoundIndex)
    (tx : list redisCommand) (ds : list entityDiff) :
  RedisKey i ∈ ks -> Forall (isIndexCommand ks) tx ->
  Forall (isIndexCommand ks) (Pipeline i tx (Some <$> ds)).
Proof.
  intros Hk Htx. unfold Pipeline. rewrite pipelineLoop_spec, sendBoth_spec.
  now apply bulk_isIndexCommand.
Qed.

Lemma primaryPipeline_isIndexCommand (ks : list string) (t : table)
    (tx : list redisCommand) (ds : list entityDiff) :
  primaryRedisKey t ∈ ks -> Forall (isIndexCommand ks) tx ->
  Forall (isIndexCommand ks) (primaryPipeline t tx (Some <$> ds)).
Proof.
  intros Hk Htx. unfold primaryPipeline. rewrite primaryLoop_spec, sendBoth_spec.
  now apply bulk_isIndexCommand.
Qed.

Lemma Pipelines_isIndexCommand (ks : list string) (ds : list entityDiff)
    (idxs : list CompoundIndex) :
  (forall i, i ∈ idxs -> RedisKey i ∈ ks) ->
  forall tx, Forall (isIndexCommand ks) tx ->
    Forall (isIndexCommand ks)
           (fold_left (fun tx idx => Pipeline idx tx (Some <$> ds)) idxs tx).
Proof.
  induction idxs as [|i idxs IH]; intros Hks tx Htx; [exact Htx|].
  cbn [fold_left]. apply IH.
  - intros j Hj. apply Hks. now apply list_elem_of_further.
  - apply Pipeline_isIndexCommand; [|exact Htx]. apply Hks. apply list_elem_of_here.
Qed.

Section PutRowStore.
Context `{ExternalLibs}.

(** The transaction of the indexes touches the keys of the indexes only. *)
Lemma indexChanges_frame (enc : Encoder) (t : table) (d : Redis.db)
    (results : list changeResult) (replies : list Redis.reply) (key : string) :
  key ∉ indexKeys t ->
  Redis.keys (indexChanges enc t d results replies).1 !! key = Redis.keys d !! key.
Proof.
  intros Hkey. unfold indexChanges.
  destruct (mapMR (getDiffs enc replies) results) as [ds| |]; [|reflexivity..].
  cbn [fst]. unfold txExecute. apply (runAll_index_frame (indexKeys t)); [|exact Hkey].
  apply Pipelines_isIndexCommand.
  - intros i Hi. unfold indexKeys. apply list_elem_of_further.
    apply list_elem_of_fmap. now exists i.
  - apply primaryPipeline_isIndexCommand; [apply list_elem_of_here | constructor].
Qed.

Lemma storedPairs_ok (enc : Encoder) (kvs : list (string * Value)) :
  (forall k v, (k, v) ∈ kvs -> is_Some (encoded enc v)) ->
  exists pairs, mapMR (storedPair enc) kvs = Ok pairs.
Proof.
  induction kvs as [|[k v] kvs IH]; intros Henc; [now exists []|].
  destruct IH as [pairs Hpairs].
  { intros k' v' Hin. apply (Henc k'). now apply list_elem_of_further. }
  destruct (Henc k v (list_elem_of_here _ _)) as [s Hs].
  unfold encoded in Hs. exists ((k, s) :: pairs).
  cbn [mapMR]. rewrite Hpairs.
  change (storedPair enc (k, v))
    with (match Encode enc v with
          | Ok s => Ok (k, s)
          | Err _ => Err "Could not encode changeset"
          | Panic => Panic
          end).
  destruct (Encode enc v); [|discriminate..]. now inversion Hs.
Qed.

Lemma storedPairs_map (enc : Encoder) (kvs : list (string * Value)) :
  forall pairs, mapMR (storedPair enc) kvs = Ok pairs ->
    pairs.*1 = kvs.*1
    /\ (list_to_map pairs : gmap string string)
       = omap (encoded enc) (list_to_map kvs : gmap string Value).
Proof.
  induction kvs as [|[k v] kvs IH]; intros pairs Hpairs.
  - inversion Hpairs. split; [reflexivity|]. cbn. now rewrite omap_empty.
  - cbn [mapMR] in Hpairs.
    change (storedPair enc (k, v))
      with (match Encode enc v with
            | Ok s => Ok (k, s)
            | Err _ => Err "Could not encode changeset"
            | Panic => Panic
            end) in Hpairs.
    destruct (Encode enc v) as [s| |] eqn:He; [|discriminate..].
    rewrite bindR_ok in Hpairs.
    destruct (mapMR (storedPair enc) kvs) as [ps| |]; [|discriminate..].
    rewrite bindR_ok in Hpairs. inversion Hpairs. subst pairs.
    destruct (IH ps eq_refl) as [Hfst Hmap]. split.
    + cbn [fmap list_fmap fst]. f_equal. exact Hfst.
    + cbn [list_to_map foldr fst snd].
      change (foldr _ ∅ ps) with (list_to_map ps : gmap string string).
      change (foldr _ ∅ kvs) with (list_to_map kvs : gmap string Value).
      rewrite Hmap. symmetry. apply omap_insert_Some. unfold encoded. now rewrite He.
Qed.

End PutRowStore.

Lemma runAll_app (a b : list redisCommand) :
  forall d, (runAll d (a ++ b)).1 = (runAll (runAll d a).1 b).1.
Proof.
  induction a as [|c a IH]; intros d; [reflexivity|].
  cbn [app runAll]. destruct (Redis.exec d (command c) (args c)) as [d1 r].
  specialize (IH d1).
  destruct (runAll d1 (a ++ b)) as [d2 rs], (runAll d1 a) as [d3 rs']. exact IH.
Qed.

Section PutRowMain.
Context `{ExternalLibs}.

Lemma generateId_store (enc : Encoder) (t : table) (ent : Entity) (w : World) :
  store (generateId enc t ent w).1 = store w.
Proof.
  unfold generateId. destruct (primary t); [|reflexivity]. now destruct (Id ent).
Qed.

Lemma commands_put (enc : Encoder) (t : table) (id : string) (ct : changeType)
    (ent : Entity) (pairs : list (string * string)) :
  TTL ent <= 0 -> pairs <> [] ->
  mapMR (storedPair enc) (map_to_list (Properties ent)) = Ok pairs ->
  commands enc (newEntityChange t id ct (putChanges ent))
  = Ok [newRedisCommand "HMSET"
          (idKey t id :: concat ((fun p : string * string => [p.1; p.2]) <$> pairs))].
Proof.
  intros Httl Hne Hpairs. unfold commands, putChanges.
  cbn [changes newEntityChange rcTable objectId].
  destruct (0 <? TTL ent) eqn:Hlt; [lia|]. rewrite app_nil_r.
  rewrite commandsLoop_sets, Hpairs, !bindR_ok.
  destruct pairs as [|[f v] pairs]; [congruence|]. reflexivity.
Qed.

(** What a change set of one change leaves at a key that is not the key
    of an index: what the commands of the change leave there. *)
Lemma Execute_single_row (enc : Encoder) (t : table) (rc : entityChange) (w : World)
    (cmds : list redisCommand) (key : string) :
  commands enc rc = Ok cmds -> key ∉ indexKeys t ->
  Redis.keys (store (Execute enc {| csTable := t; csChanges := [rc] |} w).1) !! key
  = Redis.keys (runAll (store w) cmds).1 !! key.
Proof.
  intros Hcmds Hkey. unfold Execute. cbn [csTable csChanges executeLoop].
  destruct (indexableProperties t rc (propCache w)) as [indexable cache1].
  rewrite Hcmds.
  set (pre := match indexable with
              | [] => ([], [])
              | _ :: _ => _
              end).
  assert (Hpre : forall d, (runAll d pre.1).1 = d).
  { intros d. subst pre. destruct indexable as [|p ps]; [reflexivity|].
    destruct (rcChangeType rc); try reflexivity.
    - cbn [fst app runAll command args newRedisCommand].
      pose proof (exec_HMGET_store d (idKey t (objectId rc)) p ps) as Hget.
      destruct (Redis.exec d "HMGET" (idKey t (objectId rc) :: p :: ps)). exact Hget.
    - cbn [fst app runAll command args newRedisCommand].
      pose proof (exec_HMGET_store d (idKey t (objectId rc)) p ps) as Hget.
      destruct (Redis.exec d "HMGET" (idKey t (objectId rc) :: p :: ps)). exact Hget. }
  destruct pre as [tx1 results1]. cbn [fst] in Hpre.
  unfold txExecute at 1. cbn [store withCache].
  pose proof (runAll_app tx1 cmds (store w)) as Happ. rewrite Hpre in Happ.
  destruct (runAll (store w) (tx1 ++ cmds)) as [d1 replies]. cbn [fst] in Happ.
  pose proof (indexChanges_frame enc t d1 results1 replies key Hkey) as Hframe.
  destruct (indexChanges enc t d1 results1 replies) as [d2 r2]. cbn [fst] in Hframe.
  rewrite <- Happ, <- Hframe. now destruct r2.
Qed.

Lemma Put_row_aux (enc : Encoder) (t : table) (ent : Entity) (w : World) (id : string)
    (h0 : gmap string string) :
  (generateId enc t ent w).2 = Ok id ->
  Properties ent <> ∅ -> TTL ent <= 0 ->
  (forall p v, Properties ent !! p = Some v -> is_Some (encoded enc v)) ->
  Redis.asHash (store w) (idKey t id) = Some h0 ->
  idKey t id ∉ indexKeys t ->
  Redis.keys (store (Put enc t [ent] w).1) !! idKey t id
  = Some (Redis.RHash (omap (encoded enc) (Properties ent) ∪ h0))
  /\ forall ids, (Put enc t [ent] w).2 = Ok ids -> ids = [id].
Proof.
  intros Hid Hprops Httl Henc Hh Hkey.
  destruct (storedPairs_ok enc (map_to_list (Properties ent))) as [pairs Hpairs].
  { intros k v Hin. apply (Henc k). now apply elem_of_map_to_list. }
  destruct (storedPairs_map enc _ pairs Hpairs) as [Hfst Hmap].
  rewrite list_to_map_to_list in Hmap.
  assert (Hne : pairs <> []).
  { intros ->. apply Hprops. apply map_to_list_empty_iff.
    destruct (map_to_list (Properties ent)); [reflexivity | discriminate]. }
  assert (Hnd : NoDup pairs.*1).
  { rewrite Hfst. apply NoDup_fst_map_to_list. }
  pose proof (generateId_store enc t ent w) as Hstore.
  unfold Put. cbn [putLoop].
  destruct (generateId enc t ent w) as [w1 r]. cbn [fst snd] in Hid, Hstore. subst r.
  cbn [app].
  set (rc := newEntityChange t id _ (putChanges ent)).
  pose proof (commands_put enc t id (rcChangeType rc) ent pairs Httl Hne Hpairs) as Hcmds.
  change (newEntityChange t id (rcChangeType rc) (putChanges ent)) with rc in Hcmds.
  pose proof (Execute_single_row enc t rc w1 _ (idKey t id) Hcmds Hkey) as Hrow.
  destruct (Execute enc {| csTable := t; csChanges := [rc] |} w1) as [w2 r2].
  cbn [fst] in Hrow.
  assert (Hw2 : Redis.keys (store w2) !! idKey t id
                = Some (Redis.RHash (omap (encoded enc) (Properties ent) ∪ h0))).
  { rewrite Hrow. cbn [runAll command args newRedisCommand].
    rewrite (exec_HMSET (store w1) (idKey t id) pairs h0 Hne) by (now rewrite Hstore).
    cbn [fst Redis.setKey Redis.keys]. rewrite lookup_insert_eq.
    now rewrite (fold_insert_pairs pairs Hnd), Hmap. }
  destruct r2; cbn [fst snd]; (split; [exact Hw2|]); intros ids Hids;
    [now inversion Hids | discriminate..].
Qed.

End PutRowMain.

Section PutRowTheorems.
Context `{ExternalLibs}.

(** [Put] of one entity that has a property, no expiry and values that can
    all be encoded writes the row: the hash at the entity's key gains the
    encoded value of every property, over the fields it had.  It does so
    whatever [Put] then returns: when the indexing that follows fails,
    [Put] returns the error and the row stays written. *)
Theorem Put_writes_row (enc : Encoder) (t : table) (ent : Entity) (w : World)
    (id : string) (h0 : gmap string string) :
  (generateId enc t ent w).2 = Ok id ->
  Properties ent <> ∅ -> TTL ent <= 0 ->
  (forall p v, Properties ent !! p = Some v -> is_Some (encoded enc v)) ->
  Redis.asHash (store w) (idKey t id) = Some h0 ->
  idKey t id ∉ indexKeys t ->
  Redis.keys (store (Put enc t [ent] w).1) !! idKey t id
  = Some (Redis.RHash (omap (encoded enc) (Properties ent) ∪ h0)).
Proof.
  intros Hid Hprops Httl Henc Hh Hkey.
  exact (proj1 (Put_row_aux enc t ent w id h0 Hid Hprops Httl Henc Hh Hkey)).
Qed.

(** An entity put where there was no row is loaded back under the id
    [Put] gave it, with every property as its value reads back from its
    encoding (a property whose bytes do not decode is left out) and with
    no expiry: provided the entity has a property, none called [id], and
    no expiry, and its key is not the key of an index. *)
Theorem Put_then_load (enc : Encoder) (t : table) (ent : Entity) (w : World)
    (id : string) :
  (generateId enc t ent w).2 = Ok id ->
  Properties ent <> ∅ -> TTL ent <= 0 -> Properties ent !! IdKey = None ->
  (forall p v, Properties ent !! p = Some v ->
               is_Some (encoded enc v) /\ decodeEncoded enc v <> Panic) ->
  Redis.keys (store w) !! idKey t id = None ->
  idKey t id ∉ indexKeys t ->
  load t (store (Put enc t [ent] w).1) [id] []
  = Ok [{| Id := id; Properties := omap (readsBack enc) (Properties ent); TTL := 0 |}].
Proof.
  intros Hid Hprops Httl Hnoid Hvals Hnone Hkey.
  assert (Hh : Redis.asHash (store w) (idKey t id) = Some ∅).
  { unfold Redis.asHash. now rewrite Hnone. }
  destruct (Put_row_aux enc t ent w id ∅ Hid Hprops Httl
              (fun p v Hv => proj1 (Hvals p v Hv)) Hh Hkey) as [Hrow _].
  rewrite (right_id_L ∅ (∪)) in Hrow.
  rewrite load_rows_aux.
  - cbn [omap list_omap]. unfold rowEntity. rewrite Hrow.
    rewrite bool_decide_eq_false_2.
    + do 3 f_equal. rewrite delete_id by (rewrite lookup_omap, Hnoid; reflexivity).
      apply map_eq. intros p. rewrite !lookup_omap.
      destruct (Properties ent !! p) as [v|]; [|reflexivity].
      cbn [mbind option_bind]. unfold encoded, readsBack, decodeEncoded, decoded.
      destruct (Encode enc v); reflexivity.
    + intros Hempty. destruct (map_choose _ Hprops) as (p & v & Hv).
      destruct (proj1 (Hvals p v Hv)) as [s Hs].
      assert (Hp : omap (encoded enc) (Properties ent) !! p = Some s).
      { rewrite lookup_omap, Hv. exact Hs. }
      rewrite Hempty, lookup_empty in Hp. discriminate.
  - intros id' z Hin. apply list_elem_of_singleton in Hin as ->. rewrite Hrow. discriminate.
  - intros id' h f data Hin Hrow' Hf. apply list_elem_of_singleton in Hin as ->.
    rewrite Hrow in Hrow'. inversion Hrow'. subst h.
    rewrite lookup_omap in Hf.
    destruct (Properties ent !! f) as [v|] eqn:Hv; [|discriminate].
    cbn [mbind option_bind] in Hf. destruct (Hvals f v Hv) as [_ Hsafe].
    unfold encoded in Hf. unfold decodeEncoded in Hsafe.
    destruct (Encode enc v) as [s| |]; [|discriminate..].
    inversion Hf. subst s. exact Hsafe.
Qed.

End PutRowTheorems.

Lemma Put_writes_row_witness :
  Redis.keys (store (@Put asciiLibs exampleEncoder usersTable [user "u1" "sam"] emptyWorld).1)
    !! idKey usersTable "u1"
  = Some (Redis.RHash (omap (@encoded asciiLibs exampleEncoder)
                            (Properties (user "u1" "sam")) ∪ ∅)).
Proof.
  apply (@Put_writes_row asciiLibs exampleEncoder usersTable (user "u1" "sam") emptyWorld
           "u1" ∅).
  - reflexivity.
  - intros Hempty. apply (f_equal (fun m : gmap string Value => m !! "name")) in Hempty.
    vm_compute in Hempty. discriminate.
  - cbn. lia.
  - intros p v Hv. cbn [Properties user] in Hv.
    apply lookup_singleton_Some in Hv as [_ <-]. vm_compute. eexists. reflexivity.
  - reflexivity.
  - apply (bool_decide_unpack (idKey usersTable "u1" ∉ indexKeys usersTable)).
    vm_compute. exact I.
Defined.

Lemma Put_then_load_witness :
  @load asciiLibs usersTable
        (store (@Put asciiLibs exampleEncoder usersTable [user "u1" "sam"] emptyWorld).1)
        ["u1"] []
  = Ok [{| Id := "u1";
           Properties := omap (@readsBack asciiLibs exampleEncoder)
                              (Properties (user "u1" "sam"));
           TTL := 0 |}].
Proof.
  apply (@Put_then_load asciiLibs exampleEncoder usersTable (user "u1" "sam") emptyWorld "u1").
  - reflexivity.
  - intros Hempty. apply (f_equal (fun m : gmap string Value => m !! "name")) in Hempty.
    vm_compute in Hempty. discriminate.
  - cbn. lia.
  - reflexivity.
  - intros p v Hv. cbn [Properties user] in Hv.
    apply lookup_singleton_Some in Hv as [_ <-]. split.
    + vm_compute. eexists. reflexivity.
    + vm_compute. discriminate.
  - reflexivity.
  - apply (bool_decide_unpack (idKey usersTable "u1" ∉ indexKeys usersTable)).
    vm_compute. exact I.
Defined.

(** A user put and loaded back. *)
Example put_then_load_example :
  @load asciiLibs usersTable
        (store (@Put asciiLibs exampleEncoder usersTable [user "u1" "sam"] emptyWorld).1)
        ["u1"] []
  = Ok [user "u1" "sam"].
Proof. vm_compute. reflexivity. Qed.

(** A [Put] over a row whose indexed field does not decode fails in the
    indexing and has written the row all the same; no index has an entry
    for it. *)
Example put_is_not_atomic :
  let after := @Put asciiLibs exampleEncoder usersTable [user "u1" "sam"] brokenRow in
  after.2 = Err "Could not decode"
  /\ @load asciiLibs usersTable (store after.1) ["u1"] [] = Ok [user "u1" "sam"]
  /\ (map_to_list (Redis.keys (store after.1))).*1 = ["test.Users:u1"].
Proof. cbv zeta. repeat split; vm_compute; reflexivity. Qed.
